(** * Equal-ratio channel selection (ENOT tutorials, MobileNetV2 pruning notebook)

    The notebook cell under verification:
<<
    all_channel_indices_to_prune: List[int] = []

    for _, labels, criteria in iterate_over_gate_criteria(pruning_info):
        criteria: np.ndarray = np.array(criteria)
        prune_channels_num = int(len(criteria) * pruning_ratio)
        index_for_pruning = np.argsort(criteria)[:prune_channels_num]
        all_channel_indices_to_prune += np.array(labels)[index_for_pruning].tolist()
>>
    [pruning_ratio] is a Python float ([pruning_ratio = 0.433] in the
    notebook), the criteria are float scores, the labels are Python
    integers.

    The embedding keeps the arithmetic of the interpreter: Python floats
    are IEEE 754 binary64 numbers (the Standard Library's [spec_float] at
    precision 53), [int * float] converts the integer and multiplies with
    round-to-nearest-even, [int(x)] truncates toward zero and raises on NaN
    and on infinities, a slice [a[:k]] accepts any [k], [np.array(labels)]
    gives the labels the common type NumPy finds for them (64-bit
    integers, Python objects, or doubles) and [.tolist()] returns them in
    that type, and NumPy's integer array indexing raises [IndexError] out
    of range.  [np.argsort] is not
    code of the repository: it is a parameter constrained by its documented
    contract, and an insertion-based instance shows the contract can be met. *)

From Stdlib Require Import String.
From Stdlib Require Import ZArith List Bool Lia Permutation.
From Stdlib Require Import Floats.SpecFloat.
Import ListNotations.

(** ** Python exceptions and results *)

Inductive exn : Type :=
| IndexError
| ValueError
| OverflowError.

Inductive result (A : Type) : Type :=
| Ok (a : A)
| Raise (e : exn).

Arguments Ok {A} a.
Arguments Raise {A} e.

Definition bind {A B : Type} (c : result A) (f : A -> result B) : result B :=
  match c with
  | Ok a => f a
  | Raise e => Raise e
  end.

Notation "x <- c ;; k" := (bind c (fun x => k))
  (at level 61, c at next level, right associativity).

(** ** Python floats *)

Definition float : Type := spec_float.

Module Float64.

Definition prec : Z := 53.
Definition emax : Z := 1024.

Definition zero : float := S754_zero false.
Definition one : float := SFone prec emax.

Definition valid (x : float) : bool := valid_binary prec emax x.

Definition is_nan (x : float) : bool :=
  match x with
  | S754_nan => true
  | _ => false
  end.

Definition is_finite (x : float) : bool :=
  match x with
  | S754_zero _ | S754_finite _ _ _ => true
  | _ => false
  end.

Definition ltb : float -> float -> bool := SFltb.
Definition leb : float -> float -> bool := SFleb.

(** [float(n)] for a Python integer: correctly rounded, [OverflowError]
    when the integer is too large for a double. *)
Definition of_int (n : Z) : result float :=
  match binary_normalize prec emax n 0 false with
  | S754_infinity _ => Raise OverflowError
  | x => Ok x
  end.

Definition mul : float -> float -> float := SFmul prec emax.

(** [n * x] for an integer [n] and a float [x]. *)
Definition int_mul (n : Z) (x : float) : result float :=
  fn <- of_int n ;;
  Ok (mul fn x).

(** [a / b] for two integers (true division, correctly rounded); it is
    also the value of the decimal literal with numerator [a] and
    denominator [b] a power of ten. *)
Definition ratio (a b : Z) : float :=
  SFdiv prec emax (binary_normalize prec emax a 0 false)
                  (binary_normalize prec emax b 0 false).

(** [int(x)]: truncation toward zero. *)
Definition to_int (x : float) : result Z :=
  match x with
  | S754_zero _ => Ok 0%Z
  | S754_finite s m e => Ok (cond_Zopp s (Z.shiftl (Zpos m) e))
  | S754_nan => Raise ValueError
  | S754_infinity _ => Raise OverflowError
  end.

(** Integers up to this bound convert to a double without rounding. *)
Definition exact_int_bound : Z := 2 ^ 53.

(** [math.floor(x)]. *)
Definition floor (x : float) : result Z :=
  match x with
  | S754_zero _ => Ok 0%Z
  | S754_finite s m e => Ok (Z.shiftl (cond_Zopp s (Zpos m)) e)
  | S754_nan => Raise ValueError
  | S754_infinity _ => Raise OverflowError
  end.

End Float64.

(** ** Python and NumPy sequence operations *)

(** [a[:k]]: a negative stop counts from the end, and the stop is clipped
    to the length of the sequence. *)
Definition slice_stop {A : Type} (a : list A) (k : Z) : list A :=
  if (k <? 0)%Z
  then firstn (Z.to_nat (Z.of_nat (length a) + k)) a
  else firstn (Z.to_nat k) a.

(** [a[idx]] for a one-dimensional array [a] and an index array of
    non-negative integers: every index is checked against the length of
    [a]. *)
Fixpoint take {A : Type} (a : list A) (idx : list nat) : result (list A) :=
  match idx with
  | [] => Ok []
  | i :: idx' =>
      match nth_error a i with
      | None => Raise IndexError
      | Some v => vs <- take a idx' ;; Ok (v :: vs)
      end
  end.

(** What [.tolist()] puts into a Python list: Python ints for an array
    of integers or of objects, Python floats for an array of doubles. *)
Inductive pyvalue : Type :=
| PyInt (z : Z)
| PyFloat (x : float).

(** [np.array(labels)] for a list of Python ints.  NumPy gives every int
    the first type it fits, [int64], then [uint64], then [object], and
    the array the common type of its elements: [int64] and [uint64]
    have no common integer type and promote to [float64], and [object]
    absorbs every other type.  An empty list gives an empty [float64]
    array. *)
Inductive dtype : Type :=
| dt_int64
| dt_uint64
| dt_float64
| dt_object.

Definition int_dtype (z : Z) : dtype :=
  if (- 2 ^ 63 <=? z)%Z && (z <? 2 ^ 63)%Z then dt_int64
  else if (2 ^ 63 <=? z)%Z && (z <? 2 ^ 64)%Z then dt_uint64
  else dt_object.

Definition promote_types (a b : dtype) : dtype :=
  match a, b with
  | dt_object, _ | _, dt_object => dt_object
  | dt_int64, dt_int64 => dt_int64
  | dt_uint64, dt_uint64 => dt_uint64
  | _, _ => dt_float64
  end.

Fixpoint common_dtype (d : dtype) (ints : list Z) : dtype :=
  match ints with
  | [] => d
  | z :: ints' => common_dtype (promote_types d (int_dtype z)) ints'
  end.

Definition result_dtype (ints : list Z) : dtype :=
  match ints with
  | [] => dt_float64
  | z :: ints' => common_dtype (int_dtype z) ints'
  end.

(** One element of the array, as [.tolist()] returns it: the int itself,
    or the double nearest to it when the array holds doubles. *)
Definition tolist_item (d : dtype) (z : Z) : pyvalue :=
  match d with
  | dt_float64 => PyFloat (binary_normalize Float64.prec Float64.emax z 0 false)
  | _ => PyInt z
  end.

(** The elements of [np.array(ints)], as [.tolist()] returns them. *)
Definition np_array_of_ints (ints : list Z) : list pyvalue :=
  map (tolist_item (result_dtype ints)) ints.

(** The order NumPy sorts floats by: the IEEE order on numbers, with NaN
    after every number. *)
Definition np_lt (a b : float) : bool :=
  Float64.ltb a b || (Float64.is_nan b && negb (Float64.is_nan a)).

Definition np_le (a b : float) : bool := negb (np_lt b a).

(** [c[i]] for an index that the caller knows to be in range. *)
Definition item (c : list float) (i : nat) : float := nth i c S754_nan.

(** [ascending c p]: the scores read along [p] never decrease. *)
Fixpoint ascending_from (c : list float) (i : nat) (p : list nat) : bool :=
  match p with
  | [] => true
  | j :: p' => np_le (item c i) (item c j) && ascending_from c j p'
  end.

Definition ascending (c : list float) (p : list nat) : bool :=
  match p with
  | [] => true
  | i :: p' => ascending_from c i p'
  end.

(** ** The notebook namespace and the cell *)

(** One element yielded by [iterate_over_gate_criteria(pruning_info)]. *)
Definition gate : Type := string * list Z * list float.

Record namespace : Type := {
  pruning_info : list gate;
  pruning_ratio : float;
  all_channel_indices_to_prune : list pyvalue;
  underscore : string;
  labels : list Z;
  criteria : list float;
  prune_channels_num : Z;
  index_for_pruning : list nat
}.

(** What a statement leaves behind: the namespace, and the exception when
    one was raised. *)
Inductive outcome : Type :=
| Normal (ns : namespace)
| Raised (e : exn) (ns : namespace).

Definition andthen (o : outcome) (f : namespace -> outcome) : outcome :=
  match o with
  | Normal ns => f ns
  | Raised e ns => Raised e ns
  end.

Definition final (o : outcome) : namespace :=
  match o with
  | Normal ns => ns
  | Raised _ ns => ns
  end.

Definition set_all_channel_indices_to_prune (v : list pyvalue)
    (ns : namespace) :=
  {| pruning_info := pruning_info ns;
     pruning_ratio := pruning_ratio ns;
     all_channel_indices_to_prune := v;
     underscore := underscore ns;
     labels := labels ns;
     criteria := criteria ns;
     prune_channels_num := prune_channels_num ns;
     index_for_pruning := index_for_pruning ns |}.

Definition set_target (g : gate) (ns : namespace) :=
  let '(name, ls, cs) := g in
  {| pruning_info := pruning_info ns;
     pruning_ratio := pruning_ratio ns;
     all_channel_indices_to_prune := all_channel_indices_to_prune ns;
     underscore := name;
     labels := ls;
     criteria := cs;
     prune_channels_num := prune_channels_num ns;
     index_for_pruning := index_for_pruning ns |}.

Definition set_prune_channels_num (k : Z) (ns : namespace) :=
  {| pruning_info := pruning_info ns;
     pruning_ratio := pruning_ratio ns;
     all_channel_indices_to_prune := all_channel_indices_to_prune ns;
     underscore := underscore ns;
     labels := labels ns;
     criteria := criteria ns;
     prune_channels_num := k;
     index_for_pruning := index_for_pruning ns |}.

Definition set_index_for_pruning (p : list nat) (ns : namespace) :=
  {| pruning_info := pruning_info ns;
     pruning_ratio := pruning_ratio ns;
     all_channel_indices_to_prune := all_channel_indices_to_prune ns;
     underscore := underscore ns;
     labels := labels ns;
     criteria := criteria ns;
     prune_channels_num := prune_channels_num ns;
     index_for_pruning := p |}.

Definition set_criteria (c : list float) (ns : namespace) :=
  {| pruning_info := pruning_info ns;
     pruning_ratio := pruning_ratio ns;
     all_channel_indices_to_prune := all_channel_indices_to_prune ns;
     underscore := underscore ns;
     labels := labels ns;
     criteria := c;
     prune_channels_num := prune_channels_num ns;
     index_for_pruning := index_for_pruning ns |}.

(** A statement [x = e] whose right-hand side may raise. *)
Definition assign {A : Type} (e : result A) (set : A -> namespace -> namespace)
    (ns : namespace) : outcome :=
  match e with
  | Ok v => Normal (set v ns)
  | Raise x => Raised x ns
  end.

(** [np.array(a)] for a sequence of floats: a one-dimensional array with
    the same elements in the same order. *)
Definition np_array (a : list float) : list float := a.

(** [int(n * r)] for a length [n]. *)
Definition count (n : nat) (r : float) : result Z :=
  x <- Float64.int_mul (Z.of_nat n) r ;; Float64.to_int x.

Section Cell.

(** [np.argsort] on a one-dimensional float array. *)
Variable argsort : list float -> list nat.

(** [np.array(criteria)] *)
Definition criteria_expr (ns : namespace) : result (list float) :=
  Ok (np_array (criteria ns)).

(** [int(len(criteria) * pruning_ratio)] *)
Definition prune_channels_num_expr (ns : namespace) : result Z :=
  count (length (criteria ns)) (pruning_ratio ns).

(** [np.argsort(criteria)[:prune_channels_num]] *)
Definition index_for_pruning_expr (ns : namespace) : result (list nat) :=
  Ok (slice_stop (argsort (criteria ns)) (prune_channels_num ns)).

(** [all_channel_indices_to_prune + np.array(labels)[index_for_pruning].tolist()] *)
Definition extended_expr (ns : namespace) : result (list pyvalue) :=
  picked <- take (np_array_of_ints (labels ns)) (index_for_pruning ns) ;;
  Ok (all_channel_indices_to_prune ns ++ picked).

(** One iteration of the [for] loop: the targets [_, labels, criteria] are
    bound to the triple, then the four statements of the body run. *)
Definition loop_body (g : gate) (ns : namespace) : outcome :=
  let ns0 := set_target g ns in
  andthen (assign (criteria_expr ns0) set_criteria ns0)
    (fun ns1 =>
  andthen (assign (prune_channels_num_expr ns1) set_prune_channels_num ns1)
    (fun ns2 =>
  andthen (assign (index_for_pruning_expr ns2) set_index_for_pruning ns2)
    (fun ns3 =>
  assign (extended_expr ns3) set_all_channel_indices_to_prune ns3))).

Fixpoint for_loop (gs : list gate) (ns : namespace) : outcome :=
  match gs with
  | [] => Normal ns
  | g :: gs' => andthen (loop_body g ns) (for_loop gs')
  end.

Definition run_cell (ns : namespace) : outcome :=
  for_loop (pruning_info ns) (set_all_channel_indices_to_prune [] ns).

(** The cell as the library function it spells out,
    [get_labels_for_equal_pruning(pruning_info, pruning_ratio)]: the
    cell is run in a namespace that binds the two inputs. *)
Definition namespace_of (info : list gate) (ratio : float) : namespace :=
  {| pruning_info := info;
     pruning_ratio := ratio;
     all_channel_indices_to_prune := [];
     underscore := EmptyString;
     labels := [];
     criteria := [];
     prune_channels_num := 0;
     index_for_pruning := [] |}.

Definition selection (o : outcome) : result (list pyvalue) :=
  match o with
  | Normal ns => Ok (all_channel_indices_to_prune ns)
  | Raised e _ => Raise e
  end.

Definition get_labels_for_equal_pruning (info : list gate) (ratio : float)
  : result (list pyvalue) :=
  selection (run_cell (namespace_of info ratio)).

End Cell.

(** ** [np.argsort]: the contract, and an instance

    "Returns the indices that would sort an array": the result lists every
    position of the array once, and the scores read in that order ascend.
    The order among equal scores is left to the implementation. *)

Definition argsort_contract (argsort : list float -> list nat) : Prop :=
  forall c : list float,
    Permutation (argsort c) (seq 0 (length c)) /\
    ascending c (argsort c) = true.

(** Stable insertion of the positions, one instance of the contract. *)

Fixpoint insert_index (c : list float) (i : nat) (p : list nat) : list nat :=
  match p with
  | [] => [i]
  | j :: p' =>
      if np_lt (item c i) (item c j) then i :: j :: p'
      else j :: insert_index c i p'
  end.

Definition stable_argsort (c : list float) : list nat :=
  fold_right (fun i p => insert_index c i p) [] (rev (seq 0 (length c))).

(** ** The vocabulary of the specification *)

(** A ratio in the open interval (0,1): a well-formed double [r] with
    [0 < r] and [r < 1]. *)
Definition unit_ratio (r : float) : bool :=
  Float64.valid r && Float64.ltb Float64.zero r && Float64.ltb r Float64.one.

(** A triple whose label and criteria sequences have equal lengths (and a
    length that converts to a double exactly, as every length of an array
    in memory does). *)
Definition aligned (g : gate) : bool :=
  let '(_, ls, cs) := g in
  (length ls =? length cs) &&
  (Z.of_nat (length cs) <=? Float64.exact_int_bound)%Z.

(** Labels that [np.array(labels)] holds as they are: all of them are
    64-bit signed integers, or all of them lie in [[2^63, 2^64)], or one of
    them lies outside [[-2^63, 2^64)] (the array then holds Python
    objects).  In the remaining case, integers below [2^63] together with
    integers from [2^63] on, the array holds doubles. *)
Definition int64_label (z : Z) : bool :=
  (- 2 ^ 63 <=? z)%Z && (z <? 2 ^ 63)%Z.

Definition uint64_label (z : Z) : bool :=
  (2 ^ 63 <=? z)%Z && (z <? 2 ^ 64)%Z.

Definition big_label (z : Z) : bool :=
  negb (int64_label z) && negb (uint64_label z).

Definition exact_labels (ls : list Z) : bool :=
  forallb int64_label ls || forallb uint64_label ls || existsb big_label ls.

Definition keeps_labels (g : gate) : bool :=
  let '(_, ls, _) := g in exact_labels ls.

(** [floor(n * r)]: the mathematical floor of the exact product of [n]
    and the number that the double [r] stands for, [(-1)^s * m * 2^e]. *)
Definition exact_floor_count (n : nat) (r : float) : result Z :=
  match r with
  | S754_zero _ => Ok 0%Z
  | S754_finite s m e => Ok (Z.shiftl (Z.of_nat n * cond_Zopp s (Zpos m)) e)
  | S754_nan => Raise ValueError
  | S754_infinity _ => Raise OverflowError
  end.

(** Rounding of the quotient [a / D] to the nearest integer, ties to the
    even one ([0 < D]). *)
Definition round_up (a D : Z) : bool :=
  (D <? 2 * (a mod D))%Z || ((2 * (a mod D) =? D)%Z && Z.odd (a / D)).

Definition nearest_even (a D : Z) : Z :=
  (a / D + (if round_up a D then 1 else 0))%Z.

(** The floor of the double nearest to the exact product [n * r]
    (binary64: round to nearest, ties to even), in integer arithmetic.
    On the scale [2^b] the exact product is the integer [X]; around a
    number of [L] bits the doubles are the multiples of
    [H = 2^max(L - 53, -1074 - b)] (53 bits of mantissa, and nothing finer
    than [2^-1074]); [X] is rounded to the nearest multiple of [H], and
    the result is brought back from the scale [2^b] with a floor.  This
    is for products below the largest double, which those of a ratio in
    (0,1) with a length are. *)
Definition rounded_floor_count (n : nat) (r : float) : result Z :=
  match r with
  | S754_zero _ => Ok 0%Z
  | S754_finite s m e =>
      let b := Z.min e (-1074) in
      let X := (Z.of_nat n * Zpos m * 2 ^ (e - b))%Z in
      let L := (Z.log2 X + 1)%Z in
      let H := (2 ^ Z.max (L - 53) (-1074 - b))%Z in
      Ok (cond_Zopp s (nearest_even X H * H) / 2 ^ (- b))%Z
  | S754_nan => Raise ValueError
  | S754_infinity _ => Raise OverflowError
  end.

(** [n * r < 1 - 2^-54] for the exact product of [n] and a finite [r]:
    the product is nearer to the largest double below 1 than to 1 (at
    [1 - 2^-54], half way, the tie goes to the even mantissa, that of
    1). *)
Definition below_last_double (n : nat) (r : float) : bool :=
  match r with
  | S754_zero _ => true
  | S754_finite true _ _ => true
  | S754_finite false m e =>
      (2 ^ 54 * (Z.of_nat n * Zpos m * 2 ^ Z.max e 0)
       <? (2 ^ 54 - 1) * 2 ^ Z.max (- e) 0)%Z
  | _ => false
  end.

(** Concatenation of per-tensor results; the first exception wins. *)
Fixpoint collect {A : Type} (parts : list (result (list A)))
  : result (list A) :=
  match parts with
  | [] => Ok []
  | p :: parts' => x <- p ;; xs <- collect parts' ;; Ok (x ++ xs)
  end.

(** The reference algorithm, in the words of the specification: compute
    [k = floor(len(criteria) * r)]; sort the criteria ascending; take the
    indices of the [k] smallest criteria values; map those indices into
    the label sequence.  The output concatenates the labels of all
    triples.  The floor of the product is a parameter: the
    specification's [floor(n * r)] is [exact_floor_count], and
    [rounded_floor_count] is the floor of the product as a double has
    it. *)
Definition reference_pick (floor_of_product : nat -> float -> result Z)
    (argsort : list float -> list nat) (r : float) (g : gate)
  : result (list Z) :=
  let '(_, ls, cs) := g in
  k <- floor_of_product (length cs) r ;;
  let order := argsort cs in
  let smallest := firstn (Z.to_nat k) order in
  Ok (map (fun i => nth i ls 0%Z) smallest).

Definition reference_selection
    (floor_of_product : nat -> float -> result Z)
    (argsort : list float -> list nat) (r : float) (gs : list gate)
  : result (list Z) :=
  collect (map (reference_pick floor_of_product argsort r) gs).

(** The sum over all tensors of the floors of the products [n_t * r]. *)
Fixpoint total_count (floor_of_product : nat -> float -> result Z)
    (r : float) (gs : list gate) : result Z :=
  match gs with
  | [] => Ok 0%Z
  | (_, _, cs) :: gs' =>
      k <- floor_of_product (length cs) r ;;
      t <- total_count floor_of_product r gs' ;;
      Ok (k + t)%Z
  end.

(** ** The examples of the specification *)

(** [criteria = [0.5, 0.1, 0.9, 0.3]], [labels = [10, 11, 12, 13]]. *)
Definition example_criteria : list float :=
  [Float64.ratio 5 10; Float64.ratio 1 10; Float64.ratio 9 10;
   Float64.ratio 3 10].

Definition example_gate : gate :=
  ("features.0"%string, [10; 11; 12; 13]%Z, example_criteria).

(** [criteria = []], [labels = []]. *)
Definition empty_gate : gate := ("features.1"%string, [], []).

(** [ratio = 0.5]. *)
Definition example_ratio : float := Float64.ratio 5 10.

(** ** Notions used in the proofs *)

(** What one iteration appends. *)
Definition pick (argsort : list float -> list nat) (r : float)
    (ls : list Z) (cs : list float) : result (list pyvalue) :=
  k <- count (length cs) r ;;
  take (np_array_of_ints ls) (slice_stop (argsort cs) k).

(** What the whole loop appends. *)
Fixpoint gather (argsort : list float -> list nat) (r : float)
    (gs : list gate) : result (list pyvalue) :=
  match gs with
  | [] => Ok []
  | (_, ls, cs) :: gs' =>
      p <- pick argsort r ls cs ;;
      ps <- gather argsort r gs' ;;
      Ok (p ++ ps)
  end.

(** What right shifts by a total factor [P] have made of the mantissa
    [M]: the quotient, and round and sticky bits that are set only when
    bits were lost. *)
Definition shr_inv (M P : Z) (mrs : shr_record) : Prop :=
  (0 <= shr_m mrs)%Z /\
  (shr_m mrs * P <= M < (shr_m mrs + 1) * P)%Z /\
  (shr_r mrs || shr_s mrs = true -> shr_m mrs * P < M)%Z.

(** [below m e J]: the number [m * 2^e] is at most the integer [J]. *)
Definition below (m e J : Z) : Prop :=
  (m * 2 ^ Z.max e 0 <= J * 2 ^ Z.max (- e) 0)%Z.

(** [above m e F]: the number [m * 2^e] is at least the integer [F]. *)
Definition above (m e F : Z) : Prop :=
  (F * 2 ^ Z.max (- e) 0 <= m * 2 ^ Z.max e 0)%Z.

(** Exactly what right shifts by a total factor [P] have made of the
    mantissa [M]: the quotient, the round bit (the remainder reaches half
    of [P]) and the sticky bit (the remainder is neither zero nor half). *)
Definition shr_exactly (M P : Z) (mrs : shr_record) : Prop :=
  exists R : Z,
    (0 <= shr_m mrs)%Z /\ M = (shr_m mrs * P + R)%Z /\ (0 <= R < P)%Z /\
    shr_r mrs = (P <=? 2 * R)%Z /\
    shr_s mrs = negb ((R =? 0)%Z || (2 * R =? P)%Z).

(** A double that is not NaN and whose sign bit is clear: [+0.0], a
    positive double or [+inf]. *)
Definition nonnegative (x : float) : bool :=
  match x with
  | S754_zero s | S754_infinity s | S754_finite s _ _ => negb s
  | S754_nan => false
  end.

(** [at_most x J]: the double [x] is not NaN, is [+0.0] or positive, and
    stands for a number that is at most the integer [J]. *)
Definition at_most (x : float) (J : Z) : bool :=
  match x with
  | S754_zero false => true
  | S754_finite false m e =>
      (Zpos m * 2 ^ Z.max e 0 <=? J * 2 ^ Z.max (- e) 0)%Z
  | _ => false
  end.

(** ** Model evaluation

    [eval_model(model, dataloader)] of the pruning notebooks:
<<
    def eval_model(model, dataloader):
        model.eval()
        total = 0
        total_loss = 0.0
        total_correct = 0.0
        criterion = nn.CrossEntropyLoss()
        with torch.no_grad():
            for inputs, labels in tqdm(dataloader):
                n = inputs.shape[0]
                pred_labels = model(inputs)
                batch_loss = criterion(pred_labels, labels)
                batch_accuracy = accuracy(pred_labels, labels)
                total += n
                total_loss += batch_loss.item() * n
                total_correct += batch_accuracy.item() * n
        return total_loss / total, total_correct / total
>>
    The network, the loss and the accuracy metric are library code: they
    are parameters, read through [.item()] as Python floats.  The
    accumulation and the two divisions are the function's own. *)

Inductive eval_exn : Type :=
| ZeroDivisionError
| ConversionError (e : exn).

Inductive evaluation : Type :=
| Evaluated (loss accuracy : float)
| Failed (e : eval_exn).

Definition float_add : float -> float -> float :=
  SFadd Float64.prec Float64.emax.

Definition float_div : float -> float -> float :=
  SFdiv Float64.prec Float64.emax.

(** [x * n] for a float [x] and an integer [n]. *)
Definition float_mul_int (x : float) (n : Z) : result float :=
  fn <- Float64.of_int n ;; Ok (Float64.mul x fn).

Definition is_zero (x : float) : bool :=
  match x with
  | S754_zero _ => true
  | _ => false
  end.

(** [x / n] for a float [x] and an integer [n]: the integer is converted,
    and a zero divisor raises. *)
Definition float_div_int (x : float) (n : Z) : evaluation + float :=
  match Float64.of_int n with
  | Raise e => inl (Failed (ConversionError e))
  | Ok fn =>
      if is_zero fn then inl (Failed ZeroDivisionError)
      else inr (float_div x fn)
  end.

(** The double nearest to a natural number. *)
Definition float_of_nat (n : nat) : float :=
  binary_normalize Float64.prec Float64.emax (Z.of_nat n) 0 false.

Record totals : Type := {
  total : Z;
  total_loss : float;
  total_correct : float
}.

Section EvalModel.

Variables Inputs Labels Preds : Type.

(** [inputs.shape[0]] *)
Variable batch_size : Inputs -> nat.
(** [model(inputs)], the network in evaluation mode *)
Variable model : Inputs -> Preds.
(** [criterion(pred_labels, labels).item()] *)
Variable criterion : Preds -> Labels -> float.
(** [accuracy(pred_labels, labels).item()] *)
Variable accuracy : Preds -> Labels -> float.

(** The body of the loop. *)
Definition eval_step (sample : Inputs * Labels) (t : totals) : result totals :=
  let '(inputs, labels) := sample in
  let n := Z.of_nat (batch_size inputs) in
  let pred_labels := model inputs in
  let batch_loss := criterion pred_labels labels in
  let batch_accuracy := accuracy pred_labels labels in
  weighted_loss <- float_mul_int batch_loss n ;;
  weighted_correct <- float_mul_int batch_accuracy n ;;
  Ok {| total := total t + n;
        total_loss := float_add (total_loss t) weighted_loss;
        total_correct := float_add (total_correct t) weighted_correct |}.

Fixpoint eval_loop (dataloader : list (Inputs * Labels)) (t : totals)
  : result totals :=
  match dataloader with
  | [] => Ok t
  | sample :: rest => t' <- eval_step sample t ;; eval_loop rest t'
  end.

Definition eval_model (dataloader : list (Inputs * Labels)) : evaluation :=
  match eval_loop dataloader
          {| total := 0; total_loss := Float64.zero;
             total_correct := Float64.zero |} with
  | Raise e => Failed (ConversionError e)
  | Ok t =>
      match float_div_int (total_loss t) (total t) with
      | inl failure => failure
      | inr loss =>
          match float_div_int (total_correct t) (total t) with
          | inl failure => failure
          | inr acc => Evaluated loss acc
          end
      end
  end.

(** The number of samples of a data loader. *)
Definition samples (dataloader : list (Inputs * Labels)) : nat :=
  fold_right (fun sample acc => batch_size (fst sample) + acc) 0 dataloader.

(** The average of a batch metric over the samples, in doubles: every
    batch value is multiplied by the size of its batch, the products are
    added up from [0.0] in the order of the batches, and the sum is
    divided by the number of samples; each operation rounds to the
    nearest double. *)
Definition weighted (metric : Preds -> Labels -> float)
    (sample : Inputs * Labels) : float :=
  Float64.mul (metric (model (fst sample)) (snd sample))
    (float_of_nat (batch_size (fst sample))).

Definition weighted_sum (metric : Preds -> Labels -> float)
    (dataloader : list (Inputs * Labels)) : float :=
  fold_left (fun sum sample => float_add sum (weighted metric sample))
    dataloader Float64.zero.

Definition average (metric : Preds -> Labels -> float)
    (dataloader : list (Inputs * Labels)) : float :=
  float_div (weighted_sum metric dataloader)
    (float_of_nat (samples dataloader)).

End EvalModel.

Arguments eval_step {Inputs Labels Preds} batch_size model criterion accuracy.
Arguments eval_loop {Inputs Labels Preds} batch_size model criterion accuracy.
Arguments eval_model {Inputs Labels Preds} batch_size model criterion accuracy.
Arguments samples {Inputs Labels} batch_size.
Arguments weighted {Inputs Labels Preds} batch_size model.
Arguments weighted_sum {Inputs Labels Preds} batch_size model.
Arguments average {Inputs Labels Preds} batch_size model.

(** * Properties *)

(** ** Sequences: slices and index arrays *)

Lemma slice_stop_firstn {A : Type} (a : list A) (k : Z) :
  exists n, slice_stop a k = firstn n a.
Proof.
  unfold slice_stop. destruct (k <? 0)%Z; eauto.
Qed.

Lemma slice_stop_nonneg {A : Type} (a : list A) (k : Z) :
  (0 <= k)%Z -> slice_stop a k = firstn (Z.to_nat k) a.
Proof.
  intros Hk. unfold slice_stop. destruct (Z.ltb_spec k 0); [lia|reflexivity].
Qed.

Lemma slice_stop_length_le {A : Type} (a : list A) (k : Z) :
  length (slice_stop a k) <= length a.
Proof.
  destruct (slice_stop_firstn a k) as [n ->].
  rewrite length_firstn. lia.
Qed.

Lemma slice_stop_incl {A : Type} (a : list A) (k : Z) (x : A) :
  In x (slice_stop a k) -> In x a.
Proof.
  destruct (slice_stop_firstn a k) as [n ->].
  intros Hx. rewrite <- (firstn_skipn n a). apply in_or_app. now left.
Qed.

Lemma slice_stop_NoDup {A : Type} (a : list A) (k : Z) :
  NoDup a -> NoDup (slice_stop a k).
Proof.
  destruct (slice_stop_firstn a k) as [n ->].
  intros Ha. rewrite <- (firstn_skipn n a) in Ha.
  now apply NoDup_app_remove_r in Ha.
Qed.

(** [np.array(labels)] has one element for each label, and holds the
    labels as they are exactly when they are [exact_labels]. *)
Lemma np_array_of_ints_length (ls : list Z) :
  length (np_array_of_ints ls) = length ls.
Proof. unfold np_array_of_ints. apply length_map. Qed.

Lemma int_dtype_cases (z : Z) :
  (int64_label z = true /\ uint64_label z = false /\ int_dtype z = dt_int64)
  \/ (int64_label z = false /\ uint64_label z = true
      /\ int_dtype z = dt_uint64)
  \/ (int64_label z = false /\ uint64_label z = false
      /\ int_dtype z = dt_object).
Proof.
  unfold int_dtype, int64_label, uint64_label.
  destruct (- 2 ^ 63 <=? z)%Z eqn:H1, (z <? 2 ^ 63)%Z eqn:H2,
    (2 ^ 63 <=? z)%Z eqn:H3, (z <? 2 ^ 64)%Z eqn:H4; simpl; auto;
    exfalso; lia.
Qed.

Lemma common_dtype_object (ls : list Z) :
  common_dtype dt_object ls = dt_object.
Proof. induction ls as [|z ls IH]; simpl; auto. Qed.

Lemma common_dtype_big (d : dtype) (ls : list Z) :
  existsb big_label ls = true -> common_dtype d ls = dt_object.
Proof.
  revert d. induction ls as [|z ls IH]; simpl; intros d H; [discriminate|].
  apply orb_true_iff in H as [Hz|Hls]; [|now apply IH].
  unfold big_label in Hz.
  destruct (int_dtype_cases z) as [(Ha & Hb & Hc)|[(Ha & Hb & Hc)|(Ha & Hb & Hc)]];
    rewrite Ha, Hb in Hz; try discriminate Hz.
  rewrite Hc. replace (promote_types d dt_object) with dt_object
    by (destruct d; reflexivity).
  apply common_dtype_object.
Qed.

Lemma common_dtype_int64 (ls : list Z) :
  forallb int64_label ls = true -> common_dtype dt_int64 ls = dt_int64.
Proof.
  induction ls as [|z ls IH]; simpl; [reflexivity|].
  intros H. apply andb_true_iff in H as [Hz Hls].
  unfold int_dtype. unfold int64_label in Hz. rewrite Hz. simpl. auto.
Qed.

Lemma common_dtype_uint64 (ls : list Z) :
  forallb uint64_label ls = true -> common_dtype dt_uint64 ls = dt_uint64.
Proof.
  induction ls as [|z ls IH]; simpl; [reflexivity|].
  intros H. apply andb_true_iff in H as [Hz Hls].
  destruct (int_dtype_cases z) as [(Ha & Hb & Hc)|[(Ha & Hb & Hc)|(Ha & Hb & Hc)]];
    rewrite Hb in Hz; try discriminate Hz.
  rewrite Hc. simpl. auto.
Qed.

(** Integers below [2^63] together with integers from [2^63] on make an
    array of doubles. *)
Lemma common_dtype_mixed (d : dtype) (ls : list Z) :
  existsb big_label ls = false ->
  d = dt_float64
  \/ (d = dt_int64 /\ forallb int64_label ls = false)
  \/ (d = dt_uint64 /\ forallb uint64_label ls = false) ->
  common_dtype d ls = dt_float64.
Proof.
  revert d. induction ls as [|z ls IH]; simpl; intros d Hbig Hd.
  - destruct Hd as [Hd|[[_ Hd]|[_ Hd]]]; [exact Hd|discriminate|discriminate].
  - apply orb_false_iff in Hbig as [Hz Hls]. unfold big_label in Hz.
    apply IH; [exact Hls|].
    destruct (int_dtype_cases z) as [(Ha & Hb & Hc)|[(Ha & Hb & Hc)|(Ha & Hb & Hc)]];
      rewrite Ha, Hb in *; try discriminate Hz; rewrite Hc;
      destruct Hd as [->|[[-> Hd]|[-> Hd]]]; simpl in *; auto;
      discriminate.
Qed.

Lemma np_array_of_exact (ls : list Z) :
  np_array_of_ints ls = map PyInt ls <-> exact_labels ls = true.
Proof.
  unfold np_array_of_ints, exact_labels.
  destruct ls as [|z ls]; [simpl; tauto|].
  destruct (existsb big_label (z :: ls)) eqn:Hbig.
  { rewrite orb_true_r. split; [reflexivity|intros _].
    assert (Hd : result_dtype (z :: ls) = dt_object).
    { simpl in Hbig. apply orb_true_iff in Hbig as [Hz|Hls].
      - unfold big_label in Hz. simpl.
        destruct (int_dtype_cases z)
          as [(Ha & Hb & Hc)|[(Ha & Hb & Hc)|(Ha & Hb & Hc)]];
          rewrite Ha, Hb in Hz; try discriminate Hz.
        rewrite Hc. apply common_dtype_object.
      - simpl. now apply common_dtype_big. }
    rewrite Hd. reflexivity. }
  rewrite orb_false_r.
  destruct (forallb int64_label (z :: ls)) eqn:H64.
  { split; [reflexivity|intros _].
    assert (Hd : result_dtype (z :: ls) = dt_int64).
    { simpl in H64. apply andb_true_iff in H64 as [Hz Hls].
      unfold result_dtype, int_dtype. unfold int64_label in Hz. rewrite Hz.
      now apply common_dtype_int64. }
    rewrite Hd. reflexivity. }
  destruct (forallb uint64_label (z :: ls)) eqn:Hu64.
  { split; [reflexivity|intros _].
    assert (Hd : result_dtype (z :: ls) = dt_uint64).
    { simpl in Hu64. apply andb_true_iff in Hu64 as [Hz Hls]. simpl.
      destruct (int_dtype_cases z)
        as [(Ha & Hb & Hc)|[(Ha & Hb & Hc)|(Ha & Hb & Hc)]];
        rewrite Hb in Hz; try discriminate Hz.
      rewrite Hc. now apply common_dtype_uint64. }
    rewrite Hd. reflexivity. }
  split; [|discriminate]. intros H. exfalso.
  assert (Hd : result_dtype (z :: ls) = dt_float64).
  { simpl in Hbig, H64, Hu64 |- *.
    apply orb_false_iff in Hbig as [Hz Hls]. unfold big_label in Hz.
    apply common_dtype_mixed; [exact Hls|].
    destruct (int_dtype_cases z)
      as [(Ha & Hb & Hc)|[(Ha & Hb & Hc)|(Ha & Hb & Hc)]];
      rewrite Ha, Hb in *; try discriminate Hz; rewrite Hc; simpl in *; auto. }
  rewrite Hd in H. discriminate H.
Qed.

(** Indexing succeeds when every index is in range, and fails with
    [IndexError] on an index that is not. *)
Lemma take_ok {A : Type} (a : list A) (idx : list nat) :
  Forall (fun i => i < length a) idx ->
  exists vs, take a idx = Ok vs /\ length vs = length idx
             /\ Forall2 (fun i v => nth_error a i = Some v) idx vs.
Proof.
  induction 1 as [|i idx Hi _ IH]; simpl.
  - exists []. repeat split. constructor.
  - destruct (nth_error a i) as [v|] eqn:Hv.
    + destruct IH as (vs & -> & Hlen & Hall). simpl.
      exists (v :: vs). repeat split; simpl; [lia|now constructor].
    + apply nth_error_None in Hv. lia.
Qed.

Lemma take_inv {A : Type} (a : list A) (idx : list nat) (vs : list A) :
  take a idx = Ok vs ->
  Forall2 (fun i v => nth_error a i = Some v) idx vs.
Proof.
  revert vs. induction idx as [|i idx IH]; simpl; intros vs H.
  - injection H as <-. constructor.
  - destruct (nth_error a i) as [v|] eqn:Hv; [|discriminate].
    destruct (take a idx) as [ws|] eqn:Hw; simpl in H; [|discriminate].
    injection H as <-. constructor; auto.
Qed.

Lemma take_raise {A : Type} (a : list A) (idx : list nat) (e : exn) :
  take a idx = Raise e ->
  e = IndexError /\ exists i, In i idx /\ length a <= i.
Proof.
  induction idx as [|i idx IH]; simpl; [discriminate|].
  destruct (nth_error a i) as [v|] eqn:Hv.
  - destruct (take a idx) as [ws|e'] eqn:Hw; simpl; [discriminate|].
    intros H. injection H as <-.
    destruct (IH eq_refl) as (He & j & Hj & Hlen).
    split; [exact He|]. exists j. auto.
  - intros H. injection H as <-. split; [reflexivity|].
    exists i. split; [now left|]. now apply nth_error_None.
Qed.

Lemma take_length {A : Type} (a : list A) (idx : list nat) (vs : list A) :
  take a idx = Ok vs -> length vs = length idx.
Proof.
  intros H. apply take_inv in H.
  induction H; simpl; congruence.
Qed.

(** ** The sort order of NumPy on floats *)

Ltac split_compare :=
  repeat match goal with
    | H : context [PosDef.Pos.compare_cont Eq ?x ?y] |- _ =>
        change (PosDef.Pos.compare_cont Eq x y) with (Pos.compare x y) in H
    | |- context [PosDef.Pos.compare_cont Eq ?x ?y] =>
        change (PosDef.Pos.compare_cont Eq x y) with (Pos.compare x y)
    | H : context [Z.compare ?x ?y] |- _ =>
        destruct (Z.compare_spec x y); simpl in H; try discriminate H
    | |- context [Z.compare ?x ?y] =>
        destruct (Z.compare_spec x y); simpl
    | H : context [Pos.compare ?x ?y] |- _ =>
        destruct (Pos.compare_spec x y); simpl in H; try discriminate H
    | |- context [Pos.compare ?x ?y] =>
        destruct (Pos.compare_spec x y); simpl
    end.

(** The sort order is a total preorder: asymmetric strict part,
    transitive. *)
Lemma np_lt_asym (a b : float) : np_lt a b = true -> np_lt b a = false.
Proof.
  unfold np_lt, Float64.ltb, Float64.is_nan, SFltb, SFcompare.
  destruct a as [sa|sa| |sa ma ea], b as [sb|sb| |sb mb eb];
    try destruct sa; try destruct sb; simpl; try easy;
    intros H; split_compare; try reflexivity; subst; lia.
Qed.

Lemma np_lt_le (a b : float) : np_lt a b = true -> np_le a b = true.
Proof.
  intros H. unfold np_le. now rewrite (np_lt_asym _ _ H).
Qed.

Lemma np_le_trans (a b c : float) :
  np_le a b = true -> np_le b c = true -> np_le a c = true.
Proof.
  unfold np_le, np_lt, Float64.ltb, Float64.is_nan, SFltb, SFcompare.
  destruct a as [sa|sa| |sa ma ea], b as [sb|sb| |sb mb eb],
           c as [sc|sc| |sc mc ec];
    try destruct sa; try destruct sb; try destruct sc; simpl; try easy;
    intros H1 H2; split_compare; try reflexivity; subst; lia.
Qed.

(** Without NaN the sort order is the IEEE comparison. *)
Lemma np_le_leb (a b : float) :
  Float64.is_nan a = false -> Float64.is_nan b = false ->
  np_le a b = Float64.leb a b.
Proof.
  unfold np_le, np_lt, Float64.ltb, Float64.leb, Float64.is_nan,
    SFltb, SFleb, SFcompare.
  destruct a as [sa|sa| |sa ma ea], b as [sb|sb| |sb mb eb];
    try destruct sa; try destruct sb; simpl; try easy;
    intros _ _; split_compare; try reflexivity; subst; lia.
Qed.

(** With NaN on the right every score is below; with NaN on the left only
    NaN is above. *)
Lemma np_le_spec (a b : float) :
  np_le a b = Float64.leb a b || Float64.is_nan b.
Proof.
  unfold np_le, np_lt, Float64.ltb, Float64.leb, Float64.is_nan,
    SFltb, SFleb, SFcompare.
  destruct a as [sa|sa| |sa ma ea], b as [sb|sb| |sb mb eb];
    try destruct sa; try destruct sb; simpl; try easy;
    split_compare; try reflexivity; subst; lia.
Qed.

Lemma ascending_from_all (c : list float) (i : nat) (p : list nat) :
  ascending_from c i p = true ->
  forall j, In j p -> np_le (item c i) (item c j) = true.
Proof.
  revert i. induction p as [|k p IH]; simpl; intros i H j Hj; [easy|].
  apply andb_true_iff in H as [Hik Hk].
  destruct Hj as [<-|Hj]; [exact Hik|].
  eapply np_le_trans; [exact Hik|]. now apply IH.
Qed.

Lemma ascending_from_tail (c : list float) (i : nat) (p : list nat) :
  ascending_from c i p = true -> ascending c p = true.
Proof.
  destruct p as [|j p]; simpl; [easy|].
  intros H. now apply andb_true_iff in H.
Qed.

(** In an ascending reading order, whatever is read earlier is below
    whatever is read later. *)
Lemma ascending_app (c : list float) (p q : list nat) :
  ascending c (p ++ q) = true ->
  forall i j, In i p -> In j q -> np_le (item c i) (item c j) = true.
Proof.
  induction p as [|k p IH]; simpl; intros H i j Hi Hj; [easy|].
  destruct Hi as [<-|Hi].
  - apply (ascending_from_all _ _ _ H). apply in_or_app. now right.
  - apply IH; auto. exact (ascending_from_tail _ _ _ H).
Qed.

(** *** The insertion instance meets the contract of [np.argsort] *)

Lemma insert_index_perm (c : list float) (i : nat) (p : list nat) :
  Permutation (insert_index c i p) (i :: p).
Proof.
  induction p as [|j p IH]; simpl; [reflexivity|].
  destruct (np_lt (item c i) (item c j)); [reflexivity|].
  rewrite IH. apply perm_swap.
Qed.

Lemma insert_index_ascending_from (c : list float) (k i : nat) (p : list nat) :
  np_le (item c k) (item c i) = true ->
  ascending_from c k p = true ->
  ascending_from c k (insert_index c i p) = true.
Proof.
  revert k. induction p as [|j p IH]; simpl; intros k Hki Hk.
  - now rewrite Hki.
  - apply andb_true_iff in Hk as [Hkj Hj].
    destruct (np_lt (item c i) (item c j)) eqn:Hij; simpl.
    + now rewrite Hki, (np_lt_le _ _ Hij), Hj.
    + rewrite Hkj. simpl. apply IH; [|exact Hj].
      unfold np_le. now rewrite Hij.
Qed.

Lemma insert_index_ascending (c : list float) (i : nat) (p : list nat) :
  ascending c p = true -> ascending c (insert_index c i p) = true.
Proof.
  destruct p as [|j p]; simpl; [easy|]. intros Hj.
  destruct (np_lt (item c i) (item c j)) eqn:Hij; simpl.
  - now rewrite (np_lt_le _ _ Hij), Hj.
  - apply insert_index_ascending_from; [|exact Hj].
    unfold np_le. now rewrite Hij.
Qed.

Lemma stable_argsort_perm (c : list float) :
  Permutation (stable_argsort c) (seq 0 (length c)).
Proof.
  unfold stable_argsort.
  apply Permutation_trans with (rev (seq 0 (length c)));
    [|apply Permutation_sym, Permutation_rev].
  induction (rev (seq 0 (length c))) as [|i l IH]; simpl; [reflexivity|].
  rewrite insert_index_perm. now constructor.
Qed.

Lemma stable_argsort_ascending (c : list float) :
  ascending c (stable_argsort c) = true.
Proof.
  unfold stable_argsort.
  induction (rev (seq 0 (length c))) as [|i l IH]; simpl; [reflexivity|].
  now apply insert_index_ascending.
Qed.

(** ** Rounding: a product between two integers stays between them *)

(** The iterator of the rounding functions is iteration a number of
    times. *)
Lemma iter_pos_nat {A : Type} (f : A -> A) (p : positive) (x : A) :
  iter_pos f p x = Nat.iter (Pos.to_nat p) f x.
Proof.
  revert x. induction p as [p IH|p IH|]; intros x; simpl iter_pos.
  - rewrite !IH, Pos2Nat.inj_xI, Nat.iter_succ_r.
    replace (2 * Pos.to_nat p) with (Pos.to_nat p + Pos.to_nat p) by lia.
    now rewrite Nat.iter_add.
  - rewrite !IH, Pos2Nat.inj_xO.
    replace (2 * Pos.to_nat p) with (Pos.to_nat p + Pos.to_nat p) by lia.
    now rewrite Nat.iter_add.
  - reflexivity.
Qed.

(** One more right shift doubles the factor. *)
Lemma shr_1_inv (M P : Z) (mrs : shr_record) :
  (0 < P)%Z -> shr_inv M P mrs -> shr_inv M (2 * P) (shr_1 mrs).
Proof.
  intros HP (Hm & Hq & Hrs). remember (2 * P)%Z as Q eqn:HQ.
  destruct mrs as [m r s]. cbn [shr_m shr_r shr_s] in *.
  destruct m as [|[p|p|]|p]; [| | | |lia];
    try (rewrite (Pos2Z.inj_xI p) in Hq, Hrs);
    try (rewrite (Pos2Z.inj_xO p) in Hq, Hrs);
    unfold shr_inv; cbn [shr_1 shr_m shr_r shr_s];
    (split; [lia|split; [lia|]]); intros H; simpl in H;
    try (specialize (Hrs H)); lia.
Qed.

Lemma iter_shr_1_inv (M : Z) (n : nat) (mrs : shr_record) :
  shr_inv M 1 mrs -> shr_inv M (2 ^ Z.of_nat n) (Nat.iter n shr_1 mrs).
Proof.
  intros H. induction n as [|n IH]; [exact H|].
  rewrite Nat2Z.inj_succ, Z.pow_succ_r by lia. simpl Nat.iter.
  apply shr_1_inv; [|exact IH]. apply Z.pow_pos_nonneg; lia.
Qed.

(** Shifting a mantissa that carries no lost bits yet. *)
Lemma shr_exact (m e n : Z) :
  (0 <= m)%Z ->
  let '(mrs, e') := shr (shr_record_of_loc m loc_Exact) e n in
  e' = (e + Z.max n 0)%Z /\ shr_inv m (2 ^ Z.max n 0) mrs.
Proof.
  intros Hm. unfold shr, shr_record_of_loc.
  assert (H0 : shr_inv m 1 (Build_shr_record m false false))
    by (unfold shr_inv; simpl; repeat split; try lia; discriminate).
  destruct n as [|p|p].
  - rewrite Z.add_0_r. now split.
  - rewrite Z.max_l by lia. split; [reflexivity|]. rewrite iter_pos_nat.
    rewrite <- (positive_nat_Z p). now apply iter_shr_1_inv.
  - rewrite Z.max_r by lia. rewrite Z.add_0_r. now split.
Qed.

(** Rounding to nearest even keeps the quotient or adds one, and adds
    one only when bits were lost. *)
Lemma round_nearest_even_bounds (mrs : shr_record) :
  let m1 := round_nearest_even (shr_m mrs) (loc_of_shr_record mrs) in
  (shr_m mrs <= m1 <= shr_m mrs + 1)%Z /\
  (m1 <> shr_m mrs -> shr_r mrs || shr_s mrs = true).
Proof.
  destruct mrs as [m [|] [|]]; simpl; try destruct (Z.even m);
    split; try lia; auto; intros H; congruence.
Qed.

(** The number of binary digits of a mantissa. *)
Lemma digits2_pos_bounds (m : positive) :
  (2 ^ (Zpos (digits2_pos m) - 1) <= Zpos m < 2 ^ Zpos (digits2_pos m))%Z.
Proof.
  induction m as [m IH|m IH|]; simpl digits2_pos;
    rewrite ?Pos2Z.inj_succ.
  - replace (Z.succ (Zpos (digits2_pos m)) - 1)%Z
      with (Z.succ (Zpos (digits2_pos m) - 1)) by lia.
    rewrite !Z.pow_succ_r by lia. lia.
  - replace (Z.succ (Zpos (digits2_pos m)) - 1)%Z
      with (Z.succ (Zpos (digits2_pos m) - 1)) by lia.
    rewrite !Z.pow_succ_r by lia. lia.
  - simpl. lia.
Qed.

Lemma Zdigits2_le (z k : Z) :
  (0 <= z < 2 ^ k)%Z -> (0 <= k)%Z -> (Zdigits2 z <= k)%Z.
Proof.
  intros Hz Hk. destruct z as [|p|p]; simpl; [lia| |lia].
  pose proof (digits2_pos_bounds p) as [Hlo _].
  destruct (Z.le_gt_cases (Zpos (digits2_pos p)) k) as [|Hgt]; [assumption|].
  assert (2 ^ k <= 2 ^ (Zpos (digits2_pos p) - 1))%Z
    by (apply Z.pow_le_mono_r; lia).
  lia.
Qed.

(** Both comparisons, scaled to a common exponent [B]. *)
Lemma below_scaled (m e J B : Z) :
  (B <= e)%Z -> (B <= 0)%Z ->
  below m e J <-> (m * 2 ^ (e - B) <= J * 2 ^ (- B))%Z.
Proof.
  intros HBe HB. unfold below.
  destruct (Z.le_gt_cases 0 e) as [He|He].
  - rewrite Z.max_l, Z.max_r by lia. rewrite Z.pow_0_r, Z.mul_1_r.
    replace (e - B)%Z with (e + - B)%Z by lia. rewrite Z.pow_add_r by lia.
    assert (0 < 2 ^ (- B))%Z by (apply Z.pow_pos_nonneg; lia).
    split; intros; nia.
  - rewrite Z.max_r, Z.max_l by lia. rewrite Z.pow_0_r, Z.mul_1_r.
    replace (- B)%Z with (- e + (e - B))%Z by lia.
    rewrite Z.pow_add_r by lia.
    assert (0 < 2 ^ (e - B))%Z by (apply Z.pow_pos_nonneg; lia).
    split; intros; nia.
Qed.

Lemma above_scaled (m e F B : Z) :
  (B <= e)%Z -> (B <= 0)%Z ->
  above m e F <-> (F * 2 ^ (- B) <= m * 2 ^ (e - B))%Z.
Proof.
  intros HBe HB. unfold above.
  destruct (Z.le_gt_cases 0 e) as [He|He].
  - rewrite (Z.max_r (- e) 0), (Z.max_l e 0) by lia.
    rewrite Z.pow_0_r, Z.mul_1_r.
    replace (e - B)%Z with (e + - B)%Z by lia. rewrite Z.pow_add_r by lia.
    rewrite Z.mul_assoc. apply Z.mul_le_mono_pos_r.
    apply Z.pow_pos_nonneg; lia.
  - rewrite (Z.max_l (- e) 0), (Z.max_r e 0) by lia.
    rewrite Z.pow_0_r, Z.mul_1_r.
    replace (- B)%Z with (- e + (e - B))%Z by lia.
    rewrite Z.pow_add_r by lia.
    rewrite Z.mul_assoc. apply Z.mul_le_mono_pos_r.
    apply Z.pow_pos_nonneg; lia.
Qed.

Lemma fexp_eq (x : Z) : fexp 53 1024 x = Z.max (x - 53) (-1074).
Proof. reflexivity. Qed.

(** Rounding the exact number [M * 2^E] to a double never crosses an
    integer that a double represents exactly: integer bounds [F] below
    and [J] above are bounds of the rounded number too. *)
Lemma binary_round_aux_between (M : positive) (E F J : Z) :
  (E <= 0)%Z -> (0 <= F)%Z -> (0 <= J <= 2 ^ 53)%Z ->
  above (Zpos M) E F -> below (Zpos M) E J ->
  (binary_round_aux 53 1024 false (Zpos M) E loc_Exact = S754_zero false
   /\ F = 0%Z) \/
  exists m e,
    binary_round_aux 53 1024 false (Zpos M) E loc_Exact = S754_finite false m e
    /\ (e <= 2)%Z /\ below (Zpos m) e J /\ above (Zpos m) e F.
Proof.
  intros HE HF0 HJ HF HM.
  apply (below_scaled _ _ _ E) in HM; try lia.
  apply (above_scaled _ _ _ E) in HF; try lia.
  rewrite Z.sub_diag, Z.pow_0_r, Z.mul_1_r in HM, HF.
  unfold binary_round_aux, shr_fexp. rewrite !fexp_eq.
  pose proof (digits2_pos_bounds M) as Hd.
  change (Zdigits2 (Zpos M)) with (Zpos (digits2_pos M)).
  set (d := Zpos (digits2_pos M)) in *.
  set (W := (2 ^ (- E))%Z) in *.
  assert (HW : (0 < W)%Z) by (apply Z.pow_pos_nonneg; lia).
  assert (HdE : (d + E <= 54)%Z).
  { assert (2 ^ (d - 1) <= 2 ^ (53 - E))%Z as Hp.
    { replace (53 - E)%Z with (53 + - E)%Z by lia.
      rewrite (Z.pow_add_r 2 53) by lia. fold W. nia. }
    apply Z.pow_le_mono_r_iff in Hp; lia. }
  set (n1 := (Z.max (d + E - 53) (-1074) - E)%Z).
  pose proof (shr_exact (Zpos M) E n1 ltac:(lia)) as H1.
  destruct (shr (shr_record_of_loc (Zpos M) loc_Exact) E n1) as [mrs1 e1].
  destruct H1 as [He1 (Hm1 & Hq1 & Hs1)]. rewrite fexp_eq.
  pose proof (round_nearest_even_bounds mrs1) as [Hr Hr'].
  set (m1 := round_nearest_even (shr_m mrs1) (loc_of_shr_record mrs1)) in *.
  set (P1 := (2 ^ Z.max n1 0)%Z) in *.
  assert (HP1 : (0 < P1)%Z) by (apply Z.pow_pos_nonneg; lia).
  assert (Hm53 : (shr_m mrs1 < 2 ^ 53)%Z).
  { assert (2 ^ d <= 2 ^ 53 * P1)%Z as Hp.
    { unfold P1. rewrite <- Z.pow_add_r by lia.
      apply Z.pow_le_mono_r; lia. }
    nia. }
  assert (HD1 : (Zdigits2 m1 <= 54)%Z).
  { apply Zdigits2_le; [|lia]. change (2 ^ 54)%Z with (2 * 2 ^ 53)%Z. lia. }
  set (n2 := (Z.max (Zdigits2 m1 + e1 - 53) (-1074) - e1)%Z).
  pose proof (shr_exact m1 e1 n2 ltac:(lia)) as H2.
  destruct (shr (shr_record_of_loc m1 loc_Exact) e1 n2) as [mrs2 e2].
  destruct H2 as [He2 (Hm2 & Hq2 & _)].
  set (P2 := (2 ^ Z.max n2 0)%Z) in *.
  assert (HP2 : (0 < P2)%Z) by (apply Z.pow_pos_nonneg; lia).
  (* either the integers lie on the grid of the first shift, or that
     shift lost nothing *)
  assert (Hgrid : (e1 <= 0)%Z \/ (shr_m mrs1 * P1)%Z = Zpos M).
  { destruct (Z.le_gt_cases e1 0) as [|Hgt]; [now left|right].
    assert (Hn1 : n1 = (1 - E)%Z) by lia.
    assert (HM53 : Zpos M = (2 ^ 52 * P1)%Z).
    { assert (2 ^ (d - 1) = 2 ^ 53 * W)%Z as Hp.
      { unfold W. rewrite <- Z.pow_add_r by lia. f_equal. lia. }
      assert (P1 = 2 * W)%Z as ->.
      { unfold P1, W. rewrite Hn1, Z.max_l by lia.
        replace (1 - E)%Z with (1 + - E)%Z by lia.
        now rewrite Z.pow_add_r by lia. }
      change (2 ^ 53)%Z with (2 * 2 ^ 52)%Z in *. nia. }
    rewrite HM53 in Hq1 |- *. destruct Hq1 as [Hlo Hhi].
    apply Z.mul_le_mono_pos_r in Hlo; [|exact HP1].
    apply Z.mul_lt_mono_pos_r in Hhi; [|exact HP1].
    f_equal. lia. }
  assert (HWQ : (e1 <= 0)%Z -> W = (P1 * 2 ^ (- e1))%Z).
  { intros Hle. unfold W, P1. rewrite <- Z.pow_add_r by lia. f_equal. lia. }
  assert (Hkey : (m1 * P1 <= J * W)%Z).
  { destruct (Z.eq_dec m1 (shr_m mrs1)) as [->|Hne]; [lia|].
    specialize (Hs1 (Hr' Hne)).
    destruct Hgrid as [Hle|Heq]; [|lia].
    set (Q := (2 ^ (- e1))%Z) in *.
    assert (Hlt : (shr_m mrs1 < J * Q)%Z).
    { apply (Z.mul_lt_mono_pos_r P1); [exact HP1|].
      rewrite (HWQ Hle) in HM. lia. }
    apply Z.le_trans with (J * Q * P1)%Z; [|rewrite (HWQ Hle); lia].
    apply Z.mul_le_mono_nonneg_r; lia. }
  assert (Hlow : (F * W <= m1 * P1)%Z).
  { apply Z.le_trans with (shr_m mrs1 * P1)%Z;
      [|apply Z.mul_le_mono_nonneg_r; lia].
    destruct Hgrid as [Hle|Heq]; [|lia].
    set (Q := (2 ^ (- e1))%Z) in *.
    assert (Hlt : (F * Q < shr_m mrs1 + 1)%Z).
    { apply (Z.mul_lt_mono_pos_r P1); [exact HP1|].
      rewrite (HWQ Hle) in HF. lia. }
    apply Z.le_trans with (F * Q * P1)%Z; [rewrite (HWQ Hle); lia|].
    apply Z.mul_le_mono_nonneg_r; lia. }
  (* the second shift loses nothing *)
  assert (Hex2 : (shr_m mrs2 * P2)%Z = m1).
  { destruct (Z.le_gt_cases n2 0) as [Hn2|Hn2].
    - assert (P2 = 1%Z) as -> by (unfold P2; now rewrite Z.max_r by lia).
      lia.
    - assert (HD54 : Zdigits2 m1 = 54%Z) by lia.
      assert (Hm1' : m1 = (2 ^ 53)%Z).
      { destruct m1 as [|p|p]; simpl in HD54; try lia.
        pose proof (digits2_pos_bounds p) as [Hlo _].
        rewrite HD54 in Hlo. change (2 ^ (54 - 1))%Z with (2 ^ 53)%Z in Hlo.
        lia. }
      assert (P2 = 2%Z) as ->.
      { unfold P2. replace (Z.max n2 0) with 1%Z by lia. reflexivity. }
      rewrite Hm1' in *. change (2 ^ 53)%Z with (2 * 2 ^ 52)%Z in *. lia. }
  destruct (shr_m mrs2) as [|m|m] eqn:Hm; [left|right|lia].
  - split; [reflexivity|]. nia.
  - destruct (Z.leb_spec e2 (1024 - 53)) as [_|Hbig]; [|lia].
    exists m, e2. split; [reflexivity|]. split; [lia|].
    assert (Hpow : (2 ^ (e2 - E) = P1 * P2)%Z).
    { replace (e2 - E)%Z with (Z.max n1 0 + Z.max n2 0)%Z by lia.
      now rewrite Z.pow_add_r by lia. }
    split.
    + apply (below_scaled _ _ _ E); [lia|lia|]. fold W. rewrite Hpow.
      rewrite (Z.mul_comm P1 P2), Z.mul_assoc, Hex2. exact Hkey.
    + apply (above_scaled _ _ _ E); [lia|lia|]. fold W. rewrite Hpow.
      rewrite (Z.mul_comm P1 P2), Z.mul_assoc, Hex2. exact Hlow.
Qed.

(** [int] and [math.floor] of a non-negative double between two
    integers. *)
Lemma to_int_between (m : positive) (e F J : Z) :
  below (Zpos m) e J -> above (Zpos m) e F ->
  exists k, Float64.to_int (S754_finite false m e) = Ok k
            /\ Float64.floor (S754_finite false m e) = Ok k
            /\ (0 <= k)%Z /\ (F <= k <= J)%Z.
Proof.
  unfold below, above. intros HJ HF. exists (Z.shiftl (Zpos m) e).
  split; [reflexivity|]. split; [reflexivity|].
  destruct (Z.le_gt_cases 0 e) as [He|He].
  - rewrite (Z.max_l e 0), (Z.max_r (- e) 0), Z.pow_0_r, Z.mul_1_r
      in HJ, HF by lia.
    rewrite Z.shiftl_mul_pow2 by lia.
    assert (0 < 2 ^ e)%Z by (apply Z.pow_pos_nonneg; lia). nia.
  - rewrite (Z.max_r e 0), (Z.max_l (- e) 0), Z.pow_0_r, Z.mul_1_r
      in HJ, HF by lia.
    rewrite Z.shiftl_div_pow2 by lia.
    assert (0 < 2 ^ (- e))%Z by (apply Z.pow_pos_nonneg; lia).
    split; [apply Z.div_pos; lia|]. split.
    + apply Z.div_le_lower_bound; lia.
    + apply Z.div_le_upper_bound; lia.
Qed.

(** [float(N)] for a length up to [2^53] is the number [N] itself. *)
Lemma of_int_exact (N : Z) :
  (0 <= N <= 2 ^ 53)%Z ->
  (Float64.of_int N = Ok (S754_zero false) /\ N = 0%Z) \/
  exists m e, Float64.of_int N = Ok (S754_finite false m e)
              /\ (e <= 2)%Z /\ below (Zpos m) e N /\ above (Zpos m) e N.
Proof.
  intros HN. unfold Float64.of_int, binary_normalize.
  destruct N as [|n|n]; [left; split; reflexivity| |lia].
  unfold binary_round, shl_align. change Float64.prec with 53%Z.
  change Float64.emax with 1024%Z. rewrite fexp_eq.
  set (ex := Z.max (Zpos (digits2_pos n) + 0 - 53) (-1074)).
  assert (Hal : exists mz ez,
    (match (ex - 0)%Z with
     | Zneg d => (Pos.iter xO n d, ex)
     | _ => (n, 0%Z)
     end) = (mz, ez) /\ (ez <= 0)%Z
    /\ below (Zpos mz) ez (Zpos n) /\ above (Zpos mz) ez (Zpos n)).
  { destruct (ex - 0)%Z as [|d|d] eqn:Hex.
    - exists n, 0%Z. unfold below, above. simpl. repeat split; lia.
    - exists n, 0%Z. unfold below, above. simpl. repeat split; lia.
    - exists (Pos.iter xO n d), ex. unfold below, above.
      rewrite (Z.max_r ex 0), (Z.max_l (- ex) 0), Z.pow_0_r, !Z.mul_1_r by lia.
      fold (shift_pos d n). rewrite shift_pos_correct, Z.pow_pos_fold.
      replace (- ex)%Z with (Zpos d) by lia. repeat split; lia. }
  destruct Hal as (mz & ez & -> & Hez & Hb & Ha).
  destruct (binary_round_aux_between mz ez (Zpos n) (Zpos n) Hez
              (Pos2Z.is_nonneg n) HN Ha Hb)
    as [[_ H0]|(m & e & -> & He & Hm & Hm')];
    [discriminate H0|right; exists m, e; auto].
Qed.

Lemma one_eq : Float64.one = S754_finite false 4503599627370496 (-52).
Proof. vm_compute. reflexivity. Qed.

Lemma finite_ltb_inv (m1 m2 : positive) (e1 e2 : Z) :
  SFltb (S754_finite false m1 e1) (S754_finite false m2 e2) = true ->
  (e1 < e2)%Z \/ (e1 = e2 /\ (Zpos m1 < Zpos m2)%Z).
Proof.
  unfold SFltb, SFcompare.
  change (PosDef.Pos.compare_cont Eq m1 m2) with (Pos.compare m1 m2).
  destruct (Z.compare_spec e1 e2) as [->|Hlt|Hgt]; [|now left|discriminate].
  destruct (Pos.compare_spec m1 m2) as [|Hm|]; try discriminate.
  right. split; [reflexivity|]. exact Hm.
Qed.

(** A ratio in the open interval (0,1). *)
Lemma unit_ratio_inv (r : float) :
  Float64.valid r = true ->
  Float64.ltb Float64.zero r = true -> Float64.ltb r Float64.one = true ->
  exists m e, r = S754_finite false m e /\ (e <= -52)%Z
              /\ (Zpos m < 2 ^ (- e))%Z.
Proof.
  rewrite one_eq. unfold Float64.zero, Float64.ltb.
  intros Hv H0 H1. destruct r as [s|s| |s m e]; try discriminate.
  - destruct s; discriminate.
  - destruct s; [discriminate|]. exists m, e. split; [reflexivity|].
    apply finite_ltb_inv in H1 as [Hlt|[-> Hm]].
    + split; [lia|].
      unfold Float64.valid, valid_binary, bounded, canonical_mantissa in Hv.
      apply andb_true_iff in Hv as [Hc _]. apply Z.eqb_eq in Hc.
      change Float64.prec with 53%Z in Hc.
      change Float64.emax with 1024%Z in Hc. rewrite fexp_eq in Hc.
      pose proof (digits2_pos_bounds m) as [_ Hhi].
      assert (2 ^ Zpos (digits2_pos m) <= 2 ^ (- e))%Z
        by (apply Z.pow_le_mono_r; lia).
      lia.
    + split; [lia|].
      change (2 ^ (- -52))%Z with 4503599627370496%Z. lia.
Qed.

(** For a ratio in (0,1) and a length that a double represents exactly,
    [len * ratio] is a double between 0 and the length: [int] and
    [math.floor] agree on it, neither raises, and their value is the
    floor of the exact product or that floor plus one. *)
Lemma unit_ratio_count (n : nat) (r : float) :
  (Z.of_nat n <= 2 ^ 53)%Z ->
  Float64.valid r = true ->
  Float64.ltb Float64.zero r = true -> Float64.ltb r Float64.one = true ->
  exists x k F,
    Float64.int_mul (Z.of_nat n) r = Ok x /\ Float64.to_int x = Ok k
    /\ Float64.floor x = Ok k /\ (0 <= k <= Z.of_nat n)%Z
    /\ exact_floor_count n r = Ok F /\ (F <= k <= F + 1)%Z.
Proof.
  intros HN Hv H0 H1.
  destruct (unit_ratio_inv r Hv H0 H1) as (mr & er & -> & Her & Hmr).
  unfold Float64.int_mul, exact_floor_count. simpl cond_Zopp.
  set (N := Z.of_nat n) in *.
  assert (HN0 : (0 <= N)%Z) by (unfold N; lia).
  assert (Hpr : (0 < 2 ^ (- er))%Z) by (apply Z.pow_pos_nonneg; lia).
  rewrite Z.shiftl_div_pow2 by lia.
  set (F := (N * Zpos mr / 2 ^ (- er))%Z).
  destruct (of_int_exact N ltac:(lia))
    as [[-> HNz]|(mN & eN & -> & HeN & HbN & HaN)]; simpl bind.
  - exists (S754_zero false), 0%Z, F.
    assert (F = 0%Z) as -> by (unfold F; rewrite HNz; reflexivity).
    repeat split; lia.
  - unfold Float64.mul, SFmul. simpl xorb.
    change Float64.prec with 53%Z. change Float64.emax with 1024%Z.
    (* the exact product, [N * mr * 2^er], lies in [F, F + 1) and below N *)
    assert (HFlo : (F * 2 ^ (- er) <= N * Zpos mr)%Z).
    { unfold F. rewrite Z.mul_comm. apply Z.mul_div_le. exact Hpr. }
    assert (HFhi : (N * Zpos mr < (F + 1) * 2 ^ (- er))%Z).
    { unfold F. pose proof (Z.mod_pos_bound (N * Zpos mr) (2 ^ (- er)) Hpr).
      pose proof (Z.div_mod (N * Zpos mr) (2 ^ (- er)) ltac:(lia)). nia. }
    assert (HNpos : (0 < N)%Z).
    { unfold above in HaN. destruct (Z.eq_dec N 0) as [Hz|]; [|lia].
      rewrite Hz in HbN. unfold below in HbN.
      assert (0 < 2 ^ Z.max eN 0)%Z by (apply Z.pow_pos_nonneg; lia). nia. }
    assert (HF0 : (0 <= F)%Z) by (unfold F; apply Z.div_pos; nia).
    assert (HFN : (F + 1 <= N)%Z).
    { assert (F * 2 ^ (- er) < N * 2 ^ (- er))%Z by nia.
      apply Z.mul_lt_mono_pos_r in H; lia. }
    assert (HE : (eN + er <= 0)%Z) by lia.
    assert (Hbounds : below (Zpos (mN * mr)) (eN + er) (F + 1) /\
                      above (Zpos (mN * mr)) (eN + er) F).
    { unfold below, above in *.
      rewrite (Z.max_r (eN + er) 0), (Z.max_l (- (eN + er)) 0), Z.pow_0_r,
        !Z.mul_1_r by lia.
      rewrite Pos2Z.inj_mul.
      destruct (Z.le_gt_cases 0 eN) as [Hpos|Hneg].
      - rewrite (Z.max_l eN 0), (Z.max_r (- eN) 0), Z.pow_0_r, Z.mul_1_r
          in HbN, HaN by lia.
        assert (2 ^ (- er) = 2 ^ eN * 2 ^ (- (eN + er)))%Z as Hsplit
          by (rewrite <- Z.pow_add_r by lia; f_equal; lia).
        assert (0 < 2 ^ eN)%Z by (apply Z.pow_pos_nonneg; lia).
        assert (0 < 2 ^ (- (eN + er)))%Z by (apply Z.pow_pos_nonneg; lia).
        assert (HNm : N = (Zpos mN * 2 ^ eN)%Z) by lia.
        rewrite Hsplit, HNm in HFlo, HFhi.
        set (A := (2 ^ eN)%Z) in *. set (B := (2 ^ (- (eN + er)))%Z) in *.
        split.
        + apply (Z.mul_le_mono_pos_r _ _ A); [lia|]. nia.
        + apply (Z.mul_le_mono_pos_r _ _ A); [lia|]. nia.
      - rewrite (Z.max_r eN 0), (Z.max_l (- eN) 0), Z.pow_0_r, Z.mul_1_r
          in HbN, HaN by lia.
        assert (2 ^ (- (eN + er)) = 2 ^ (- eN) * 2 ^ (- er))%Z as ->
          by (rewrite <- Z.pow_add_r by lia; f_equal; lia).
        assert (0 < 2 ^ (- eN))%Z by (apply Z.pow_pos_nonneg; lia).
        assert (HNm : Zpos mN = (N * 2 ^ (- eN))%Z) by lia.
        rewrite HNm.
        set (A := (2 ^ (- eN))%Z) in *. set (B := (2 ^ (- er))%Z) in *.
        split; nia. }
    destruct Hbounds as [Hb Ha].
    assert (HJ : (0 <= F + 1 <= 2 ^ 53)%Z) by lia.
    destruct (binary_round_aux_between _ _ _ _ HE HF0 HJ Ha Hb)
      as [[-> HFz]|(m & e & -> & He & Hm & Hm')].
    + exists (S754_zero false), 0%Z, F. repeat split; lia.
    + destruct (to_int_between _ _ _ _ Hm Hm') as (k & Hk & Hf & Hk0 & HkF).
      exists (S754_finite false m e), k, F. repeat split; auto; lia.
Qed.

(** ** The cell, statement by statement *)

(** One iteration, by the outcome of its two fallible expressions. *)
Lemma loop_body_spec (argsort : list float -> list nat) (name : string)
    (ls : list Z) (cs : list float) (ns : namespace) :
  loop_body argsort (name, ls, cs) ns =
  let ns0 := set_target (name, ls, cs) ns in
  match count (length cs) (pruning_ratio ns) with
  | Raise e => Raised e ns0
  | Ok k =>
      let ns2 := set_index_for_pruning (slice_stop (argsort cs) k)
                   (set_prune_channels_num k ns0) in
      match take (np_array_of_ints ls) (slice_stop (argsort cs) k) with
      | Raise e => Raised e ns2
      | Ok picked =>
          Normal (set_all_channel_indices_to_prune
                    (all_channel_indices_to_prune ns ++ picked) ns2)
      end
  end.
Proof.
  unfold loop_body, criteria_expr, prune_channels_num_expr, np_array. simpl.
  destruct (count (length cs) (pruning_ratio ns)) as [k|e]; simpl;
    [|reflexivity].
  unfold extended_expr. simpl.
  destruct (take (np_array_of_ints ls) (slice_stop (argsort cs) k));
    reflexivity.
Qed.

(** The loop never rebinds its two inputs. *)
Lemma loop_body_frame (argsort : list float -> list nat) (g : gate)
    (ns : namespace) :
  pruning_info (final (loop_body argsort g ns)) = pruning_info ns /\
  pruning_ratio (final (loop_body argsort g ns)) = pruning_ratio ns.
Proof.
  destruct g as [[name ls] cs]. rewrite loop_body_spec. simpl.
  destruct (count _ _); simpl; auto.
  destruct (take _ _); simpl; auto.
Qed.

Lemma for_loop_frame (argsort : list float -> list nat) (gs : list gate)
    (ns : namespace) :
  pruning_info (final (for_loop argsort gs ns)) = pruning_info ns /\
  pruning_ratio (final (for_loop argsort gs ns)) = pruning_ratio ns.
Proof.
  revert ns. induction gs as [|g gs IH]; intros ns; simpl; [auto|].
  pose proof (loop_body_frame argsort g ns) as [Hi Hr].
  destruct (loop_body argsort g ns) as [ns'|e ns']; simpl in *; [|auto].
  destruct (IH ns') as [Hi' Hr']. split; congruence.
Qed.

Lemma loop_body_selection (argsort : list float -> list nat) (name : string)
    (ls : list Z) (cs : list float) (ns : namespace) :
  selection (loop_body argsort (name, ls, cs) ns) =
  (p <- pick argsort (pruning_ratio ns) ls cs ;;
   Ok (all_channel_indices_to_prune ns ++ p)).
Proof.
  rewrite loop_body_spec. unfold pick. simpl.
  destruct (count _ _); simpl; [|reflexivity].
  destruct (take _ _); reflexivity.
Qed.

(** The loop appends what [gather] collects, or raises what it raises. *)
Lemma for_loop_selection (argsort : list float -> list nat)
    (gs : list gate) (ns : namespace) :
  selection (for_loop argsort gs ns) =
  (ps <- gather argsort (pruning_ratio ns) gs ;;
   Ok (all_channel_indices_to_prune ns ++ ps)).
Proof.
  revert ns. induction gs as [|[[name ls] cs] gs IH]; intros ns; simpl.
  - now rewrite app_nil_r.
  - pose proof (loop_body_selection argsort name ls cs ns) as Hsel.
    pose proof (loop_body_frame argsort (name, ls, cs) ns) as [_ Hr].
    destruct (loop_body argsort (name, ls, cs) ns) as [ns'|e ns'];
      simpl in *.
    + rewrite IH, Hr.
      destruct (pick argsort (pruning_ratio ns) ls cs) as [p|e]; simpl in *;
        [|discriminate].
      injection Hsel as ->.
      destruct (gather argsort (pruning_ratio ns) gs); simpl; [|reflexivity].
      now rewrite app_assoc.
    + destruct (pick argsort (pruning_ratio ns) ls cs) as [p|e']; simpl in *;
        [discriminate|exact Hsel].
Qed.

Lemma run_cell_selection (argsort : list float -> list nat)
    (ns : namespace) :
  selection (run_cell argsort ns) = gather argsort (pruning_ratio ns) (pruning_info ns).
Proof.
  unfold run_cell. rewrite for_loop_selection. simpl.
  now destruct (gather _ _).
Qed.

Lemma get_labels_gather (argsort : list float -> list nat)
    (info : list gate) (ratio : float) :
  get_labels_for_equal_pruning argsort info ratio = gather argsort ratio info.
Proof.
  unfold get_labels_for_equal_pruning. now rewrite run_cell_selection.
Qed.

Lemma gather_app (argsort : list float -> list nat) (r : float)
    (gs1 gs2 : list gate) :
  gather argsort r (gs1 ++ gs2) =
  (ps1 <- gather argsort r gs1 ;; ps2 <- gather argsort r gs2 ;; Ok (ps1 ++ ps2)).
Proof.
  induction gs1 as [|[[name ls] cs] gs1 IH]; simpl.
  - now destruct (gather argsort r gs2).
  - destruct (pick argsort r ls cs) as [p|e]; simpl; [|reflexivity].
    rewrite IH. destruct (gather argsort r gs1); simpl; [|reflexivity].
    destruct (gather argsort r gs2); simpl; [|reflexivity].
    now rewrite app_assoc.
Qed.

Lemma gather_single (argsort : list float -> list nat) (r : float)
    (name : string) (ls : list Z) (cs : list float) :
  gather argsort r [(name, ls, cs)] = pick argsort r ls cs.
Proof.
  simpl. destruct (pick argsort r ls cs); simpl; [|reflexivity].
  now rewrite app_nil_r.
Qed.


(** ** Consequences of the contract of [np.argsort] *)

Lemma argsort_in_range (argsort : list float -> list nat) (c : list float)
    (i : nat) :
  argsort_contract argsort -> In i (argsort c) -> i < length c.
Proof.
  intros Hsort Hi. destruct (Hsort c) as [Hperm _].
  apply (Permutation_in _ Hperm) in Hi. apply in_seq in Hi. lia.
Qed.

Lemma argsort_NoDup (argsort : list float -> list nat) (c : list float) :
  argsort_contract argsort -> NoDup (argsort c).
Proof.
  intros Hsort. destruct (Hsort c) as [Hperm _].
  apply (Permutation_NoDup (Permutation_sym Hperm)), seq_NoDup.
Qed.

Lemma argsort_length (argsort : list float -> list nat) (c : list float) :
  argsort_contract argsort -> length (argsort c) = length c.
Proof.
  intros Hsort. destruct (Hsort c) as [Hperm _].
  now rewrite (Permutation_length Hperm), length_seq.
Qed.

Lemma stable_argsort_contract : argsort_contract stable_argsort.
Proof.
  intros c. split; [apply stable_argsort_perm|apply stable_argsort_ascending].
Qed.

(** ** One tensor under the preconditions of the specification *)

Lemma unit_ratio_true (r : float) :
  unit_ratio r = true ->
  Float64.valid r = true /\ Float64.ltb Float64.zero r = true
  /\ Float64.ltb r Float64.one = true.
Proof.
  unfold unit_ratio. intros H.
  apply andb_true_iff in H as [H H1]. apply andb_true_iff in H as [Hv H0].
  auto.
Qed.

Lemma aligned_true (name : string) (ls : list Z) (cs : list float) :
  aligned (name, ls, cs) = true ->
  length ls = length cs /\ (0 <= Z.of_nat (length cs) <= 2 ^ 53)%Z.
Proof.
  unfold aligned. intros H. apply andb_true_iff in H as [Hl Hb].
  apply Nat.eqb_eq in Hl. apply Z.leb_le in Hb.
  unfold Float64.exact_int_bound in Hb. split; [exact Hl|lia].
Qed.

Lemma unit_ratio_counts (n : nat) (r : float) :
  (Z.of_nat n <= 2 ^ 53)%Z -> unit_ratio r = true ->
  exists k F, count n r = Ok k
              /\ (x <- Float64.int_mul (Z.of_nat n) r ;; Float64.floor x)
                 = Ok k
              /\ (0 <= k <= Z.of_nat n)%Z
              /\ exact_floor_count n r = Ok F /\ (F <= k <= F + 1)%Z.
Proof.
  intros Hn Hr. apply unit_ratio_true in Hr as (Hv & H0 & H1).
  destruct (unit_ratio_count n r Hn Hv H0 H1)
    as (x & k & F & Hx & Hk & Hf & Hb & HF & HkF).
  exists k, F. unfold count. rewrite Hx. simpl. auto.
Qed.

Lemma pick_unit_ratio (argsort : list float -> list nat) (r : float)
    (ls : list Z) (cs : list float) :
  argsort_contract argsort -> unit_ratio r = true ->
  length cs <= length ls -> (Z.of_nat (length cs) <= 2 ^ 53)%Z ->
  exists k picked,
    count (length cs) r = Ok k /\
    (x <- Float64.int_mul (Z.of_nat (length cs)) r ;; Float64.floor x)
    = Ok k /\
    (0 <= k <= Z.of_nat (length cs))%Z /\
    pick argsort r ls cs = Ok picked /\
    take (np_array_of_ints ls) (firstn (Z.to_nat k) (argsort cs))
    = Ok picked /\
    length picked = Z.to_nat k.
Proof.
  intros Hsort Hr Hlen Hn.
  destruct (unit_ratio_counts (length cs) r Hn Hr)
    as (k & _ & Hc & Hf & Hk & _).
  assert (Hidx : Forall (fun i => i < length (np_array_of_ints ls))
                   (firstn (Z.to_nat k) (argsort cs))).
  { apply Forall_forall. intros i Hi. rewrite np_array_of_ints_length.
    assert (In i (argsort cs))
      by (rewrite <- (firstn_skipn (Z.to_nat k)); apply in_or_app; now left).
    pose proof (argsort_in_range argsort cs i Hsort H). lia. }
  destruct (take_ok (np_array_of_ints ls) _ Hidx) as (picked & Ht & Hl & _).
  exists k, picked. unfold pick. rewrite Hc. simpl.
  rewrite slice_stop_nonneg by lia. repeat split; try lia; try assumption.
  rewrite Hl, length_firstn, (argsort_length argsort cs Hsort). lia.
Qed.

Lemma count_zero_ratio (n : nat) (s : bool) :
  (Z.of_nat n <= 2 ^ 53)%Z -> count n (S754_zero s) = Ok 0%Z.
Proof.
  intros Hn. unfold count, Float64.int_mul.
  destruct (of_int_exact (Z.of_nat n) ltac:(lia))
    as [[-> _]|(m & e & -> & _)];
    reflexivity.
Qed.

Lemma count_empty (r : float) :
  Float64.is_finite r = true -> count 0 r = Ok 0%Z.
Proof.
  destruct r as [s|s| |s m e]; try discriminate; reflexivity.
Qed.

Lemma pick_zero (argsort : list float -> list nat) (r : float)
    (ls : list Z) (cs : list float) :
  count (length cs) r = Ok 0%Z -> pick argsort r ls cs = Ok [].
Proof.
  intros H. unfold pick. now rewrite H.
Qed.

Lemma get_labels_single (argsort : list float -> list nat) (r : float)
    (g : gate) :
  get_labels_for_equal_pruning argsort [g] r
  = pick argsort r (snd (fst g)) (snd g).
Proof.
  destruct g as [[name ls] cs]. now rewrite get_labels_gather, gather_single.
Qed.

(** The four scores of the example are pairwise distinct, so every
    conforming [np.argsort] orders them alike. *)
Lemma example_argsort (argsort : list float -> list nat) :
  argsort_contract argsort -> argsort example_criteria = [1; 3; 0; 2].
Proof.
  intros Hsort. destruct (Hsort example_criteria) as [Hperm Hasc].
  pose proof (Permutation_length Hperm) as Hlen.
  pose proof (argsort_NoDup argsort example_criteria Hsort) as Hnd.
  assert (Hin : forall i, In i (argsort example_criteria) ->
                          i = 0 \/ i = 1 \/ i = 2 \/ i = 3).
  { intros i Hi. apply (Permutation_in _ Hperm) in Hi. simpl in Hi.
    intuition auto. }
  destruct (argsort example_criteria) as [|a [|b [|c [|d [|e p]]]]];
    try discriminate Hlen.
  assert (Ha := Hin a ltac:(simpl; auto)).
  assert (Hb := Hin b ltac:(simpl; auto)).
  assert (Hc := Hin c ltac:(simpl; auto)).
  assert (Hd := Hin d ltac:(simpl; auto)).
  clear Hin Hperm Hlen.
  inversion Hnd as [|? ? Hna Hnd1]; subst.
  inversion Hnd1 as [|? ? Hnb Hnd2]; subst.
  inversion Hnd2 as [|? ? Hnc _]; subst.
  simpl in Hna, Hnb, Hnc. clear Hnd Hnd1 Hnd2.
  destruct Ha as [-> | [-> | [-> | -> ]]], Hb as [-> | [-> | [-> | -> ]]],
           Hc as [-> | [-> | [-> | -> ]]], Hd as [-> | [-> | [-> | -> ]]];
    try (exfalso; tauto);
    try (vm_compute in Hasc; discriminate Hasc);
    reflexivity.
Qed.

(** * More about sequences, the count and the loop *)

(** ** Index arrays *)

Lemma take_app {A : Type} (a : list A) (i1 i2 : list nat) (vs : list A) :
  take a (i1 ++ i2) = Ok vs ->
  exists v1 v2, take a i1 = Ok v1 /\ take a i2 = Ok v2 /\ vs = v1 ++ v2.
Proof.
  revert vs. induction i1 as [|i i1 IH]; simpl; intros vs H.
  - exists [], vs. auto.
  - destruct (nth_error a i) as [v|]; [|discriminate].
    destruct (take a (i1 ++ i2)) as [ws|] eqn:Hw; simpl in H; [|discriminate].
    injection H as <-. destruct (IH ws eq_refl) as (v1 & v2 & -> & -> & ->).
    exists (v :: v1), v2. auto.
Qed.

Lemma take_map {A : Type} (d : A) (a : list A) (idx : list nat)
    (vs : list A) :
  take a idx = Ok vs -> vs = map (fun i => nth i a d) idx.
Proof.
  intros H. apply take_inv in H.
  induction H as [|i v idx vs Hi _ IH]; simpl; [reflexivity|].
  rewrite <- IH. f_equal. symmetry. now apply nth_error_nth.
Qed.

Lemma take_In {A : Type} (a : list A) (idx : list nat) (vs : list A)
    (v : A) :
  take a idx = Ok vs -> In v vs -> In v a.
Proof.
  intros H. apply take_inv in H.
  induction H as [|i w idx vs Hi _ IH]; simpl; [tauto|].
  intros [<-|Hv]; [eapply nth_error_In; eauto|auto].
Qed.

Lemma take_NoDup {A : Type} (a : list A) (idx : list nat) (vs : list A) :
  NoDup a -> NoDup idx -> take a idx = Ok vs -> NoDup vs.
Proof.
  intros Ha Hidx H. apply take_inv in H.
  induction H as [|i v idx vs Hi Hall IH]; [constructor|].
  inversion Hidx as [|? ? Hni Hnd]; subst. constructor; [|auto].
  intros Hv. apply Hni. clear IH Hnd Hni Hidx.
  induction Hall as [|j w idx vs Hj _ IH]; simpl in *; [tauto|].
  destruct Hv as [Hv|Hv].
  - left. subst w. apply (proj1 (NoDup_nth_error a) Ha); [|congruence].
    apply nth_error_Some. congruence.
  - right. auto.
Qed.

Lemma NoDup_app_disjoint {A : Type} (l1 l2 : list A) (x : A) :
  NoDup (l1 ++ l2) -> In x l1 -> ~ In x l2.
Proof.
  induction l1 as [|y l1 IH]; simpl; [tauto|].
  intros Hnd [->|Hx] Hx2.
  - apply NoDup_cons_iff in Hnd as [Hn _]. apply Hn, in_or_app. now right.
  - apply NoDup_cons_iff in Hnd as [_ Hnd]. now apply IH.
Qed.

Lemma map_nth_seq {A : Type} (d : A) (a : list A) :
  map (fun i => nth i a d) (seq 0 (length a)) = a.
Proof.
  induction a as [|x a IH]; simpl; [reflexivity|].
  f_equal. rewrite <- seq_shift, map_map. exact IH.
Qed.

Lemma firstn_prefix {A : Type} (a : list A) (n1 n2 : nat) :
  n1 <= n2 -> exists t, firstn n2 a = firstn n1 a ++ t.
Proof.
  intros Hn. exists (skipn n1 (firstn n2 a)).
  rewrite <- (firstn_skipn n1 (firstn n2 a)) at 1.
  f_equal. rewrite firstn_firstn. f_equal. lia.
Qed.

Lemma take_prefix {A : Type} (a : list A) (idx : list nat) (n1 n2 : nat)
    (p1 p2 : list A) :
  n1 <= n2 ->
  take a (firstn n1 idx) = Ok p1 -> take a (firstn n2 idx) = Ok p2 ->
  exists t, p2 = p1 ++ t.
Proof.
  intros Hn H1 H2. destruct (firstn_prefix idx n1 n2 Hn) as [t Ht].
  rewrite Ht in H2. apply take_app in H2 as (v1 & v2 & Hv1 & _ & ->).
  exists v2. congruence.
Qed.

(** ** One tensor, any ratio *)

Lemma pick_inv (argsort : list float -> list nat) (r : float)
    (ls : list Z) (cs : list float) (picked : list pyvalue) :
  pick argsort r ls cs = Ok picked ->
  exists k, count (length cs) r = Ok k /\
            take (np_array_of_ints ls) (slice_stop (argsort cs) k)
            = Ok picked.
Proof.
  unfold pick. destruct (count (length cs) r) as [k|]; simpl;
    [|discriminate].
  intros H. exists k. auto.
Qed.

Lemma gather_In (argsort : list float -> list nat) (r : float)
    (gs : list gate) (out : list pyvalue) (l : pyvalue) :
  gather argsort r gs = Ok out -> In l out ->
  exists name ls cs, In (name, ls, cs) gs /\ In l (np_array_of_ints ls).
Proof.
  revert out. induction gs as [|[[name ls] cs] gs IH]; simpl; intros out H.
  - injection H as <-. simpl. tauto.
  - destruct (pick argsort r ls cs) as [p|] eqn:Hp; simpl in H;
      [|discriminate].
    destruct (gather argsort r gs) as [ps|]; simpl in H; [|discriminate].
    injection H as <-. intros Hl. apply in_app_or in Hl as [Hl|Hl].
    + apply pick_inv in Hp as (k & _ & Ht).
      exists name, ls, cs. split; [now left|]. eapply take_In; eauto.
    + destruct (IH ps eq_refl Hl) as (name' & ls' & cs' & Hin & Hl').
      exists name', ls', cs'. auto.
Qed.

Lemma pick_NoDup (argsort : list float -> list nat) (r : float)
    (ls : list Z) (cs : list float) (picked : list pyvalue) :
  argsort_contract argsort -> NoDup (np_array_of_ints ls) ->
  pick argsort r ls cs = Ok picked -> NoDup picked.
Proof.
  intros Hsort Hls Hp. apply pick_inv in Hp as (k & _ & Ht).
  apply (take_NoDup _ _ _ Hls) in Ht; [exact Ht|].
  apply slice_stop_NoDup, argsort_NoDup, Hsort.
Qed.

Lemma gather_NoDup (argsort : list float -> list nat) (r : float)
    (gs : list gate) (out : list pyvalue) :
  argsort_contract argsort ->
  NoDup (concat (map (fun g : gate => np_array_of_ints (snd (fst g))) gs)) ->
  gather argsort r gs = Ok out -> NoDup out.
Proof.
  intros Hsort. revert out.
  induction gs as [|[[name ls] cs] gs IH]; simpl; intros out Hnd H.
  - injection H as <-. constructor.
  - destruct (pick argsort r ls cs) as [p|] eqn:Hp; simpl in H;
      [|discriminate].
    destruct (gather argsort r gs) as [ps|] eqn:Hps; simpl in H;
      [|discriminate].
    injection H as <-.
    pose proof (NoDup_app_remove_l _ _ Hnd) as Hr.
    pose proof (NoDup_app_remove_r _ _ Hnd) as Hl.
    apply NoDup_app; [eapply pick_NoDup; eauto|auto|].
    intros l Hlp Hlps.
    apply pick_inv in Hp as (k & _ & Ht).
    pose proof (take_In _ _ _ _ Ht Hlp) as Hin1.
    destruct (gather_In _ _ _ _ _ Hps Hlps) as (n' & ls' & cs' & Hg & Hin2).
    apply (NoDup_app_disjoint _ _ l Hnd Hin1). apply in_concat.
    exists (np_array_of_ints ls'). split; [|exact Hin2].
    apply in_map_iff. exists (n', ls', cs'). auto.
Qed.

Lemma gather_perm (argsort : list float -> list nat) (r : float)
    (gs gs' : list gate) :
  Permutation gs gs' ->
  forall out, gather argsort r gs = Ok out ->
  exists out', gather argsort r gs' = Ok out' /\ Permutation out out'.
Proof.
  induction 1 as [|[[name ls] cs] gs gs' Hp IH
                  |[[n1 l1] c1] [[n2 l2] c2] gs|gs1 gs2 gs3 _ IH1 _ IH2];
    simpl; intros out H.
  - exists out. auto.
  - destruct (pick argsort r ls cs) as [p|]; simpl in *; [|discriminate].
    destruct (gather argsort r gs) as [ps|]; simpl in H; [|discriminate].
    injection H as <-. destruct (IH ps eq_refl) as (ps' & -> & Hps).
    simpl. exists (p ++ ps'). split; [reflexivity|].
    now apply Permutation_app_head.
  - destruct (pick argsort r l2 c2) as [p2|]; simpl in *; [|discriminate].
    destruct (pick argsort r l1 c1) as [p1|]; simpl in *; [|discriminate].
    destruct (gather argsort r gs) as [ps|]; simpl in *; [|discriminate].
    injection H as <-. exists (p1 ++ p2 ++ ps). split; [reflexivity|].
    rewrite !app_assoc. apply Permutation_app_tail, Permutation_app_comm.
  - destruct (IH1 out H) as (o2 & H2 & Hp2).
    destruct (IH2 o2 H2) as (o3 & H3 & Hp3).
    exists o3. split; [exact H3|]. now transitivity o2.
Qed.

(** ** The count for other ratios *)

(** A ratio that is an integer [c]: the product is exact. *)
Lemma count_integer_ratio (n : nat) (mr : positive) (er c : Z) :
  (er <= -2)%Z -> (0 <= c)%Z -> Zpos mr = (c * 2 ^ (- er))%Z ->
  (Z.of_nat n * c <= 2 ^ 53)%Z ->
  count n (S754_finite false mr er) = Ok (Z.of_nat n * c)%Z.
Proof.
  intros Her Hc Hmr HN. unfold count, Float64.int_mul.
  set (N := Z.of_nat n) in *.
  assert (HN0 : (0 <= N)%Z) by (unfold N; lia).
  assert (Hpr : (0 < 2 ^ (- er))%Z) by (apply Z.pow_pos_nonneg; lia).
  assert (Hc1 : (1 <= c)%Z) by nia.
  destruct (of_int_exact N ltac:(nia))
    as [[-> HNz]|(mN & eN & -> & HeN & HbN & HaN)]; simpl bind.
  - simpl. rewrite HNz. reflexivity.
  - unfold Float64.mul, SFmul. simpl xorb.
    change Float64.prec with 53%Z. change Float64.emax with 1024%Z.
    assert (HE : (eN + er <= 0)%Z) by lia.
    assert (Hbounds : below (Zpos (mN * mr)) (eN + er) (N * c) /\
                      above (Zpos (mN * mr)) (eN + er) (N * c)).
    { unfold below, above in *.
      rewrite (Z.max_r (eN + er) 0), (Z.max_l (- (eN + er)) 0), Z.pow_0_r,
        !Z.mul_1_r by lia.
      rewrite Pos2Z.inj_mul, Hmr.
      destruct (Z.le_gt_cases 0 eN) as [Hpos|Hneg].
      - rewrite (Z.max_l eN 0), (Z.max_r (- eN) 0), Z.pow_0_r, Z.mul_1_r
          in HbN, HaN by lia.
        assert (2 ^ (- er) = 2 ^ eN * 2 ^ (- (eN + er)))%Z as ->
          by (rewrite <- Z.pow_add_r by lia; f_equal; lia).
        assert (HNm : N = (Zpos mN * 2 ^ eN)%Z) by lia.
        rewrite HNm. split; apply Z.eq_le_incl; ring.
      - rewrite (Z.max_r eN 0), (Z.max_l (- eN) 0), Z.pow_0_r, Z.mul_1_r
          in HbN, HaN by lia.
        assert (2 ^ (- (eN + er)) = 2 ^ (- eN) * 2 ^ (- er))%Z as ->
          by (rewrite <- Z.pow_add_r by lia; f_equal; lia).
        assert (HNm : Zpos mN = (N * 2 ^ (- eN))%Z) by lia.
        rewrite HNm. split; apply Z.eq_le_incl; ring. }
    destruct Hbounds as [Hb Ha].
    assert (HF0 : (0 <= N * c)%Z) by nia.
    destruct (binary_round_aux_between _ _ _ _ HE HF0 (conj HF0 HN) Ha Hb)
      as [[-> HFz]|(m & e & -> & He & Hm & Hm')].
    + simpl. now rewrite HFz.
    + destruct (to_int_between _ _ _ _ Hm Hm') as (k & Hk & _ & _ & HkF).
      rewrite Hk. f_equal. lia.
Qed.

Lemma count_one (n : nat) :
  (Z.of_nat n <= 2 ^ 53)%Z -> count n Float64.one = Ok (Z.of_nat n).
Proof.
  intros HN. rewrite one_eq.
  rewrite (count_integer_ratio n _ _ 1); [f_equal; lia|lia|lia| |lia].
  reflexivity.
Qed.





(** ** The loop, from the inside *)

Lemma for_loop_app (argsort : list float -> list nat) (gs1 gs2 : list gate)
    (ns : namespace) :
  for_loop argsort (gs1 ++ gs2) ns
  = andthen (for_loop argsort gs1 ns) (for_loop argsort gs2).
Proof.
  revert ns. induction gs1 as [|g gs1 IH]; intros ns; simpl; [reflexivity|].
  destruct (loop_body argsort g ns); simpl; auto.
Qed.

Lemma for_loop_ok (argsort : list float -> list nat) (gs : list gate)
    (ns : namespace) (out : list pyvalue) :
  gather argsort (pruning_ratio ns) gs = Ok out ->
  exists ns', for_loop argsort gs ns = Normal ns' /\
              all_channel_indices_to_prune ns'
              = all_channel_indices_to_prune ns ++ out /\
              pruning_ratio ns' = pruning_ratio ns /\
              pruning_info ns' = pruning_info ns.
Proof.
  intros Hg. pose proof (for_loop_selection argsort gs ns) as Hsel.
  pose proof (for_loop_frame argsort gs ns) as [Hi Hr].
  rewrite Hg in Hsel. simpl in Hsel.
  destruct (for_loop argsort gs ns) as [ns'|e ns']; simpl in *;
    [|discriminate].
  exists ns'. repeat split; congruence.
Qed.

(** A successful iteration leaves a namespace that is determined by the
    two inputs, the triple and the list accumulated so far. *)
Lemma loop_body_start (argsort : list float -> list nat) (g : gate)
    (ns1 ns2 ns' : namespace) :
  pruning_info ns1 = pruning_info ns2 ->
  pruning_ratio ns1 = pruning_ratio ns2 ->
  all_channel_indices_to_prune ns1 = all_channel_indices_to_prune ns2 ->
  loop_body argsort g ns1 = Normal ns' ->
  loop_body argsort g ns2 = Normal ns'.
Proof.
  destruct g as [[name ls] cs]. intros Hi Hr Ha.
  rewrite !loop_body_spec, <- Hr. simpl.
  destruct (count _ _) as [k|]; [|discriminate].
  destruct (take _ _) as [picked|]; [|discriminate].
  intros H. injection H as <-. f_equal.
  unfold set_all_channel_indices_to_prune. simpl. congruence.
Qed.

(** * Properties of [eval_model] *)

Lemma of_int_small (N : Z) :
  (0 <= N <= 2 ^ 53)%Z ->
  exists fn, Float64.of_int N = Ok fn /\
             (is_zero fn = true <-> N = 0%Z).
Proof.
  intros HN.
  destruct (of_int_exact N HN) as [[-> ->]|(m & e & -> & _ & Hb & Ha)].
  - exists (S754_zero false). split; [reflexivity|]. simpl. tauto.
  - exists (S754_finite false m e). split; [reflexivity|]. simpl.
    split; [discriminate|]. intros ->. exfalso.
    unfold below in Hb.
    assert (0 < 2 ^ Z.max e 0)%Z by (apply Z.pow_pos_nonneg; lia). nia.
Qed.

Lemma float_mul_int_small (x : float) (N : Z) :
  (0 <= N <= 2 ^ 53)%Z -> exists y, float_mul_int x N = Ok y.
Proof.
  intros HN. unfold float_mul_int.
  destruct (of_int_small N HN) as (fn & -> & _). simpl. eauto.
Qed.

(** The loop counts the samples, and raises nothing while the count
    converts to a double exactly. *)
Lemma eval_loop_total {Inputs Labels Preds : Type}
    (batch_size : Inputs -> nat) (model : Inputs -> Preds)
    (criterion accuracy : Preds -> Labels -> float)
    (dl : list (Inputs * Labels)) (t : totals) :
  (0 <= total t)%Z ->
  (total t + Z.of_nat (samples batch_size dl) <= 2 ^ 53)%Z ->
  exists t', eval_loop batch_size model criterion accuracy dl t = Ok t' /\
             total t' = (total t + Z.of_nat (samples batch_size dl))%Z.
Proof.
  revert t. induction dl as [|[inputs labels] dl IH]; intros t H0 Hb;
    simpl in *.
  - exists t. split; [reflexivity|lia].
  - destruct (float_mul_int_small (criterion (model inputs) labels)
                (Z.of_nat (batch_size inputs)) ltac:(lia)) as [wl ->].
    destruct (float_mul_int_small (accuracy (model inputs) labels)
                (Z.of_nat (batch_size inputs)) ltac:(lia)) as [wc ->].
    simpl.
    match goal with
    | |- context [eval_loop _ _ _ _ dl ?t1] =>
        destruct (IH t1) as (t' & Ht' & Htot); simpl; try lia
    end.
    exists t'. split; [exact Ht'|]. rewrite Htot. simpl. lia.
Qed.

(** A NaN in the running loss stays there. *)
Lemma of_int_float_of_nat (n : nat) :
  (Z.of_nat n <= 2 ^ 53)%Z ->
  Float64.of_int (Z.of_nat n) = Ok (float_of_nat n)
  /\ (is_zero (float_of_nat n) = true <-> n = 0).
Proof.
  intros Hn. destruct (of_int_small (Z.of_nat n) ltac:(lia)) as (fn & Hf & Hz).
  assert (Heq : fn = float_of_nat n).
  { unfold Float64.of_int in Hf. unfold float_of_nat.
    destruct (binary_normalize _ _ _ _ _); try discriminate Hf;
      now injection Hf. }
  subst fn. split; [exact Hf|]. rewrite Hz. lia.
Qed.

(** The loop adds the weighted batch values to the two sums, in the order
    of the batches. *)
Lemma eval_loop_sums {Inputs Labels Preds : Type}
    (batch_size : Inputs -> nat) (model : Inputs -> Preds)
    (criterion accuracy : Preds -> Labels -> float)
    (dl : list (Inputs * Labels)) (t : totals) :
  (0 <= total t)%Z ->
  (total t + Z.of_nat (samples batch_size dl) <= 2 ^ 53)%Z ->
  eval_loop batch_size model criterion accuracy dl t
  = Ok {| total := total t + Z.of_nat (samples batch_size dl);
          total_loss :=
            fold_left (fun sum sample =>
                         float_add sum
                           (weighted batch_size model criterion sample))
              dl (total_loss t);
          total_correct :=
            fold_left (fun sum sample =>
                         float_add sum
                           (weighted batch_size model accuracy sample))
              dl (total_correct t) |}.
Proof.
  revert t. induction dl as [|[inputs labels] dl IH]; intros t H0 Hb.
  - simpl. rewrite Z.add_0_r. destruct t; reflexivity.
  - change (samples batch_size ((inputs, labels) :: dl))
      with (batch_size inputs + samples batch_size dl) in *.
    cbn [eval_loop eval_step]. unfold float_mul_int.
    destruct (of_int_float_of_nat (batch_size inputs) ltac:(lia)) as [-> _].
    cbn [bind]. rewrite IH; cbn [total total_loss total_correct]; try lia.
    cbn [fold_left]. unfold weighted at 3 6.
    cbn [fst snd]. f_equal. f_equal. lia.
Qed.

Lemma eval_loop_nan {Inputs Labels Preds : Type}
    (batch_size : Inputs -> nat) (model : Inputs -> Preds)
    (criterion accuracy : Preds -> Labels -> float)
    (dl : list (Inputs * Labels)) (t t' : totals) :
  total_loss t = S754_nan ->
  eval_loop batch_size model criterion accuracy dl t = Ok t' ->
  total_loss t' = S754_nan.
Proof.
  revert t. induction dl as [|[inputs labels] dl IH]; intros t Hn H;
    simpl in H.
  - now injection H as <-.
  - destruct (float_mul_int _ _) as [wl|]; simpl in H; [|discriminate].
    destruct (float_mul_int _ _) as [wc|]; simpl in H; [|discriminate].
    apply IH in H; [exact H|]. simpl. now rewrite Hn.
Qed.

Lemma eval_loop_nan_batch {Inputs Labels Preds : Type}
    (batch_size : Inputs -> nat) (model : Inputs -> Preds)
    (criterion accuracy : Preds -> Labels -> float)
    (dl : list (Inputs * Labels)) (inputs : Inputs) (labels : Labels)
    (t t' : totals) :
  In (inputs, labels) dl ->
  criterion (model inputs) labels = S754_nan ->
  eval_loop batch_size model criterion accuracy dl t = Ok t' ->
  total_loss t' = S754_nan.
Proof.
  intros Hin Hnan. revert t.
  induction dl as [|[inputs' labels'] dl IH]; intros t H; simpl in *;
    [tauto|].
  destruct (float_mul_int (criterion _ _) _) as [wl|] eqn:Hwl; simpl in H;
    [|discriminate].
  destruct (float_mul_int (accuracy _ _) _) as [wc|]; simpl in H;
    [|discriminate].
  destruct Hin as [Heq|Hin]; [|eauto].
  injection Heq as -> ->.
  apply eval_loop_nan in H; [exact H|]. simpl.
  unfold float_mul_int in Hwl. rewrite Hnan in Hwl.
  destruct (Float64.of_int _); simpl in Hwl; [|discriminate].
  injection Hwl as <-. simpl.
  unfold float_add. now destruct (total_loss t).
Qed.

(** A sum of zeros is the zero it started from. *)
Lemma eval_loop_zero_correct {Inputs Labels Preds : Type}
    (batch_size : Inputs -> nat) (model : Inputs -> Preds)
    (criterion accuracy : Preds -> Labels -> float)
    (dl : list (Inputs * Labels)) (t t' : totals) :
  (0 <= total t)%Z ->
  (total t + Z.of_nat (samples batch_size dl) <= 2 ^ 53)%Z ->
  Forall (fun sample => accuracy (model (fst sample)) (snd sample)
                        = Float64.zero) dl ->
  total_correct t = Float64.zero ->
  eval_loop batch_size model criterion accuracy dl t = Ok t' ->
  total_correct t' = Float64.zero.
Proof.
  intros H0 Hb Hall. revert t H0 Hb.
  induction Hall as [|[inputs labels] dl Hacc _ IH]; intros t H0 Hb Hz H;
    simpl in *.
  - now injection H as <-.
  - destruct (float_mul_int (criterion _ _) _) as [wl|]; simpl in H;
      [|discriminate].
    rewrite Hacc in H. unfold float_mul_int in H.
    destruct (of_int_exact (Z.of_nat (batch_size inputs)) ltac:(lia))
      as [[Hof _]|(m & e & Hof & _)]; rewrite Hof in H; simpl in H;
      (apply IH in H; [exact H|simpl; lia|simpl; lia|]); simpl;
      rewrite Hz; reflexivity.
Qed.

(** * Rounding to nearest, exactly *)

Lemma shr_1_exactly (M P : Z) (mrs : shr_record) :
  (0 < P)%Z -> shr_exactly M P mrs -> shr_exactly M (2 * P) (shr_1 mrs).
Proof.
  intros HP (R & Hm & HM & HR & Hr & Hs). remember (2 * P)%Z as Q eqn:HQ.
  destruct mrs as [m r s]. cbn [shr_m shr_r shr_s] in *.
  destruct m as [|[p|p|]|p]; [| | | |lia];
    try (rewrite (Pos2Z.inj_xI p) in HM);
    try (rewrite (Pos2Z.inj_xO p) in HM);
    unfold shr_exactly; cbn [shr_1 shr_m shr_r shr_s].
  - exists R. subst r s.
    destruct (Z.leb_spec P (2 * R)), (Z.leb_spec Q (2 * R)),
      (Z.eqb_spec R 0), (Z.eqb_spec (2 * R) P), (Z.eqb_spec (2 * R) Q);
      cbn [orb negb]; repeat split; try reflexivity; try lia;
      try (exfalso; lia).
  - exists (P + R)%Z. subst r s.
    destruct (Z.leb_spec P (2 * R)), (Z.leb_spec Q (2 * (P + R))),
      (Z.eqb_spec R 0), (Z.eqb_spec (2 * R) P), (Z.eqb_spec (P + R) 0),
      (Z.eqb_spec (2 * (P + R)) Q);
      cbn [orb negb]; repeat split; try reflexivity; try lia;
      try (exfalso; lia).
  - exists R. subst r s.
    destruct (Z.leb_spec P (2 * R)), (Z.leb_spec Q (2 * R)),
      (Z.eqb_spec R 0), (Z.eqb_spec (2 * R) P), (Z.eqb_spec (2 * R) Q);
      cbn [orb negb]; repeat split; try reflexivity; try lia;
      try (exfalso; lia).
  - exists (P + R)%Z. subst r s.
    destruct (Z.leb_spec P (2 * R)), (Z.leb_spec Q (2 * (P + R))),
      (Z.eqb_spec R 0), (Z.eqb_spec (2 * R) P), (Z.eqb_spec (P + R) 0),
      (Z.eqb_spec (2 * (P + R)) Q);
      cbn [orb negb]; repeat split; try reflexivity; try lia;
      try (exfalso; lia).
Qed.

Lemma iter_shr_1_exactly (M : Z) (n : nat) (mrs : shr_record) :
  shr_exactly M 1 mrs ->
  shr_exactly M (2 ^ Z.of_nat n) (Nat.iter n shr_1 mrs).
Proof.
  intros H. induction n as [|n IH]; [exact H|].
  rewrite Nat2Z.inj_succ, Z.pow_succ_r by lia. simpl Nat.iter.
  apply shr_1_exactly; [|exact IH]. apply Z.pow_pos_nonneg; lia.
Qed.

Lemma shr_exactly_shift (m e n : Z) :
  (0 <= m)%Z ->
  let '(mrs, e') := shr (shr_record_of_loc m loc_Exact) e n in
  e' = (e + Z.max n 0)%Z /\ shr_exactly m (2 ^ Z.max n 0) mrs.
Proof.
  intros Hm. unfold shr, shr_record_of_loc.
  assert (H0 : shr_exactly m 1 (Build_shr_record m false false)).
  { exists 0%Z. simpl. repeat split; lia. }
  destruct n as [|p|p].
  - rewrite Z.add_0_r. now split.
  - rewrite Z.max_l by lia. split; [reflexivity|]. rewrite iter_pos_nat.
    rewrite <- (positive_nat_Z p). now apply iter_shr_1_exactly.
  - rewrite Z.max_r by lia. rewrite Z.add_0_r. now split.
Qed.

(** The rounded mantissa is the nearest integer to the quotient, ties
    to even. *)
Lemma round_nearest_even_exactly (M P : Z) (mrs : shr_record) :
  (0 < P)%Z -> shr_exactly M P mrs ->
  shr_m mrs = (M / P)%Z /\
  round_nearest_even (shr_m mrs) (loc_of_shr_record mrs) = nearest_even M P.
Proof.
  intros HP (R & Hm & HM & HR & Hr & Hs).
  assert (Hq : (M / P)%Z = shr_m mrs)
    by (symmetry; apply (Z.div_unique M P (shr_m mrs) R); lia).
  assert (Hmod : (M mod P)%Z = R)
    by (symmetry; apply (Z.mod_unique M P (shr_m mrs) R); lia).
  split; [now symmetry|].
  unfold nearest_even, round_up. rewrite Hq, Hmod.
  destruct mrs as [m r s]. cbn [shr_m shr_r shr_s] in *. subst r s.
  rewrite <- Z.negb_even.
  destruct (Z.leb_spec P (2 * R)), (Z.ltb_spec P (2 * R)),
    (Z.eqb_spec R 0), (Z.eqb_spec (2 * R) P); simpl; try lia;
    destruct (Z.even m); simpl; lia.
Qed.

(** ** Arithmetic of [nearest_even] *)

Lemma nearest_even_exact (a D : Z) :
  (0 < D)%Z -> nearest_even (a * D) D = a.
Proof.
  intros HD. unfold nearest_even, round_up.
  rewrite Z.div_mul, Z.mod_mul by lia.
  destruct (Z.ltb_spec D (2 * 0)), (Z.eqb_spec (2 * 0) D); cbn [orb andb];
    lia.
Qed.

Lemma nearest_even_scale (a D U : Z) :
  (0 < D)%Z -> (0 < U)%Z ->
  nearest_even (a * U) (D * U) = nearest_even a D.
Proof.
  intros HD HU. unfold nearest_even, round_up.
  rewrite Z.div_mul_cancel_r, Z.mul_mod_distr_r by lia.
  pose proof (Z.mod_pos_bound a D HD) as HR.
  set (R := (a mod D)%Z) in *.
  replace (D * U <? 2 * (R * U))%Z with (D <? 2 * R)%Z.
  2:{ destruct (Z.ltb_spec D (2 * R)), (Z.ltb_spec (D * U) (2 * (R * U)));
      try reflexivity; exfalso; nia. }
  replace (2 * (R * U) =? D * U)%Z with (2 * R =? D)%Z; [reflexivity|].
  destruct (Z.eqb_spec (2 * R) D), (Z.eqb_spec (2 * (R * U)) (D * U));
    try reflexivity; exfalso; nia.
Qed.

Lemma nearest_even_near (a D : Z) :
  (0 < D)%Z ->
  (a / D <= nearest_even a D <= a / D + 1)%Z /\
  (2 * a - D <= 2 * (nearest_even a D * D) <= 2 * a + D)%Z.
Proof.
  intros HD. unfold nearest_even, round_up.
  pose proof (Z.mod_pos_bound a D HD) as HR.
  pose proof (Z.div_mod a D ltac:(lia)) as Ha.
  set (R := (a mod D)%Z) in *. set (q := (a / D)%Z) in *.
  destruct (Z.ltb_spec D (2 * R)), (Z.eqb_spec (2 * R) D), (Z.odd q);
    cbn [orb andb]; split; lia.
Qed.

Lemma nearest_even_mono (a c D : Z) :
  (0 < D)%Z -> (a <= c)%Z -> (nearest_even a D <= nearest_even c D)%Z.
Proof.
  intros HD Hac.
  pose proof (Z.div_le_mono a c D HD Hac) as Hq.
  destruct (Z.eq_dec (a / D) (c / D)) as [Heq|Hne].
  - unfold nearest_even, round_up. rewrite Heq.
    pose proof (Z.div_mod a D ltac:(lia)) as Ha.
    pose proof (Z.div_mod c D ltac:(lia)) as Hc.
    rewrite Heq in Ha.
    assert (a mod D <= c mod D)%Z by lia.
    destruct (Z.ltb_spec D (2 * (a mod D))), (Z.ltb_spec D (2 * (c mod D))),
      (Z.eqb_spec (2 * (a mod D)) D), (Z.eqb_spec (2 * (c mod D)) D),
      (Z.odd (c / D)); cbn [orb andb]; lia.
  - pose proof (nearest_even_near a D HD) as [[_ Hhi] _].
    pose proof (nearest_even_near c D HD) as [[Hlo _] _]. lia.
Qed.

Lemma nearest_even_below (a J D : Z) :
  (0 < D)%Z -> (a <= J * D)%Z -> (nearest_even a D <= J)%Z.
Proof.
  intros HD H. rewrite <- (nearest_even_exact J D HD).
  now apply nearest_even_mono.
Qed.

Lemma nearest_even_above (a F D : Z) :
  (0 < D)%Z -> (F * D <= a)%Z -> (F <= nearest_even a D)%Z.
Proof.
  intros HD H. rewrite <- (nearest_even_exact F D HD).
  now apply nearest_even_mono.
Qed.

(** ** The rounded product *)

(** [binary_round_aux] on an exact mantissa [M] and exponent [E]: with [s]
    the number of bits that do not fit, the result is the double
    [q * 2^(E+s)], where [q] is [M / 2^s] rounded to nearest, ties to
    even. *)
Lemma binary_round_aux_nearest (sx : bool) (M : positive) (E : Z) :
  let s := Z.max (Z.max (Zpos (digits2_pos M) + E - 53) (-1074) - E) 0 in
  let q := nearest_even (Zpos M) (2 ^ s) in
  (E + s <= 970)%Z ->
  (q = 0%Z /\
   binary_round_aux 53 1024 sx (Zpos M) E loc_Exact = S754_zero sx) \/
  exists m e,
    binary_round_aux 53 1024 sx (Zpos M) E loc_Exact = S754_finite sx m e
    /\ (E + s <= e)%Z /\ (Zpos m * 2 ^ (e - (E + s)))%Z = q.
Proof.
  intros s q Hov.
  unfold binary_round_aux, shr_fexp. rewrite !fexp_eq.
  pose proof (digits2_pos_bounds M) as Hd.
  change (Zdigits2 (Zpos M)) with (Zpos (digits2_pos M)).
  set (d := Zpos (digits2_pos M)) in *.
  set (n1 := (Z.max (d + E - 53) (-1074) - E)%Z) in *.
  pose proof (shr_exactly_shift (Zpos M) E n1 ltac:(lia)) as H1.
  destruct (shr (shr_record_of_loc (Zpos M) loc_Exact) E n1) as [mrs1 e1].
  destruct H1 as [He1 Hex1]. rewrite fexp_eq.
  fold s in He1, Hex1.
  assert (Hs0 : (0 <= s)%Z) by (unfold s; lia).
  assert (HP1 : (0 < 2 ^ s)%Z) by (apply Z.pow_pos_nonneg; lia).
  destruct (round_nearest_even_exactly _ _ _ HP1 Hex1) as [Hm1 Hrn].
  fold q in Hrn. rewrite Hrn.
  pose proof (nearest_even_near (Zpos M) (2 ^ s) HP1) as [Hq _].
  fold q in Hq.
  assert (Hm53 : (Zpos M / 2 ^ s < 2 ^ 53)%Z).
  { apply Z.div_lt_upper_bound; [exact HP1|].
    apply Z.lt_le_trans with (2 ^ d)%Z; [lia|].
    rewrite Z.mul_comm, <- Z.pow_add_r by lia.
    apply Z.pow_le_mono_r; lia. }
  assert (Hq0 : (0 <= Zpos M / 2 ^ s)%Z) by (apply Z.div_pos; lia).
  assert (HD1 : (Zdigits2 q <= 54)%Z).
  { apply Zdigits2_le; [|lia]. change (2 ^ 54)%Z with (2 * 2 ^ 53)%Z. lia. }
  set (n2 := (Z.max (Zdigits2 q + e1 - 53) (-1074) - e1)%Z).
  pose proof (shr_exact q e1 n2 ltac:(lia)) as H2.
  destruct (shr (shr_record_of_loc q loc_Exact) e1 n2) as [mrs2 e2].
  destruct H2 as [He2 (Hm2 & Hq2 & _)].
  set (P2 := (2 ^ Z.max n2 0)%Z) in *.
  assert (HP2 : (0 < P2)%Z) by (apply Z.pow_pos_nonneg; lia).
  assert (Hex2 : (shr_m mrs2 * P2)%Z = q).
  { destruct (Z.le_gt_cases n2 0) as [Hn2|Hn2].
    - assert (P2 = 1%Z) as -> by (unfold P2; now rewrite Z.max_r by lia).
      lia.
    - assert (HD54 : Zdigits2 q = 54%Z) by lia.
      assert (Hq' : q = (2 ^ 53)%Z).
      { destruct q as [|p|p]; simpl in HD54; try lia.
        pose proof (digits2_pos_bounds p) as [Hlo _].
        rewrite HD54 in Hlo. change (2 ^ (54 - 1))%Z with (2 ^ 53)%Z in Hlo.
        lia. }
      assert (P2 = 2%Z) as ->.
      { unfold P2. replace (Z.max n2 0) with 1%Z by lia. reflexivity. }
      rewrite Hq' in *. change (2 ^ 53)%Z with (2 * 2 ^ 52)%Z in *. lia. }
  destruct (shr_m mrs2) as [|m|m] eqn:Hm; [left|right|lia].
  - split; [lia|reflexivity].
  - destruct (Z.leb_spec e2 (1024 - 53)) as [_|Hbig]; [|lia].
    exists m, e2. split; [reflexivity|]. split; [lia|].
    replace (e2 - (E + s))%Z with (Z.max n2 0) by lia. exact Hex2.
Qed.

(** The same on a common scale [2^b], fine enough for the mantissa and
    for the subnormal doubles: with [X = M * 2^(E-b)] an integer of [L]
    bits, the doubles around it are spaced by [H = 2^max(L-53, -1074-b)],
    and the result is [X] rounded to the nearest multiple of [H]. *)
Lemma binary_round_aux_grid (sx : bool) (M : positive) (E b : Z) :
  (b <= E)%Z -> (b <= -1074)%Z -> (E <= 0)%Z ->
  (Zpos (digits2_pos M) + E <= 900)%Z ->
  exists L,
    (1 <= L)%Z /\
    (2 ^ (L - 1) <= Zpos M * 2 ^ (E - b) < 2 ^ L)%Z /\
    ((nearest_even (Zpos M * 2 ^ (E - b))
        (2 ^ Z.max (L - 53) (- 1074 - b)) = 0%Z /\
      binary_round_aux 53 1024 sx (Zpos M) E loc_Exact = S754_zero sx) \/
     exists m e,
       binary_round_aux 53 1024 sx (Zpos M) E loc_Exact
       = S754_finite sx m e /\
       (b <= e)%Z /\
       (Zpos m * 2 ^ (e - b))%Z
       = (nearest_even (Zpos M * 2 ^ (E - b))
            (2 ^ Z.max (L - 53) (- 1074 - b))
          * 2 ^ Z.max (L - 53) (- 1074 - b))%Z).
Proof.
  intros HbE Hb HE Hd900.
  pose proof (digits2_pos_bounds M) as Hd.
  pose proof (binary_round_aux_nearest sx M E) as Hn. cbv zeta in Hn.
  set (d := Zpos (digits2_pos M)) in *.
  set (h := Z.max (d + E - 53) (-1074)) in *.
  set (s := Z.max (h - E) 0) in *.
  assert (Hd1 : (1 <= d)%Z) by (unfold d; lia).
  exists (d + E - b)%Z.
  replace (Z.max (d + E - b - 53) (- 1074 - b)) with (h - b)%Z
    by (unfold h; lia).
  assert (Hc : (0 < 2 ^ (E - b))%Z) by (apply Z.pow_pos_nonneg; lia).
  split; [lia|]. split.
  { replace (d + E - b - 1)%Z with ((d - 1) + (E - b))%Z by lia.
    replace (d + E - b)%Z with (d + (E - b))%Z by lia.
    rewrite !Z.pow_add_r by lia. split.
    - apply Z.mul_le_mono_nonneg_r; lia.
    - apply Z.mul_lt_mono_pos_r; lia. }
  specialize (Hn ltac:(unfold s, h; lia)).
  destruct (Z.le_gt_cases E h) as [Hle|Hgt].
  - assert (Hs : s = (h - E)%Z) by (unfold s; lia).
    assert (HH : (2 ^ (h - b) = 2 ^ s * 2 ^ (E - b))%Z)
      by (rewrite <- Z.pow_add_r by lia; f_equal; lia).
    assert (HPs : (0 < 2 ^ s)%Z) by (apply Z.pow_pos_nonneg; lia).
    destruct Hn as [[Hq ->]|(m & e & -> & He & Hm)].
    + left. split; [|reflexivity].
      rewrite HH, nearest_even_scale by assumption. exact Hq.
    + right. exists m, e. split; [reflexivity|]. split; [lia|].
      rewrite HH at 1. rewrite nearest_even_scale by assumption.
      rewrite <- Hm, HH.
      replace (e - b)%Z with ((e - (E + s)) + (h - b))%Z by lia.
      rewrite Z.pow_add_r, HH by lia. ring.
  - assert (Hs : s = 0%Z) by (unfold s; lia).
    rewrite Hs in Hn. change (2 ^ 0)%Z with 1%Z in Hn.
    assert (Hq1 : nearest_even (Zpos M) 1 = Zpos M).
    { rewrite <- (Z.mul_1_r (Zpos M)) at 1. apply nearest_even_exact. lia. }
    assert (HX : (Zpos M * 2 ^ (E - b)
                  = Zpos M * 2 ^ (E - h) * 2 ^ (h - b))%Z).
    { rewrite <- Z.mul_assoc, <- Z.pow_add_r by lia. do 2 f_equal. lia. }
    assert (HPh : (0 < 2 ^ (h - b))%Z)
      by (apply Z.pow_pos_nonneg; unfold h; lia).
    rewrite Hq1 in Hn.
    destruct Hn as [[Hq _]|(m & e & -> & He & Hm)]; [lia|].
    right. exists m, e. split; [reflexivity|]. split; [lia|].
    rewrite HX, nearest_even_exact by assumption.
    rewrite <- HX, <- Hm.
    replace (e - b)%Z with ((e - (E + 0)) + (E - b))%Z by lia.
    rewrite Z.pow_add_r by lia. ring.
Qed.

Lemma to_int_scaled (m : positive) (e b : Z) :
  (b <= e)%Z -> (b <= 0)%Z ->
  Float64.to_int (S754_finite false m e)
  = Ok ((Zpos m * 2 ^ (e - b)) / 2 ^ (- b))%Z.
Proof.
  intros Hbe Hb. unfold Float64.to_int, cond_Zopp. f_equal.
  assert (Hnz : forall x, (0 <= x)%Z -> (2 ^ x <> 0)%Z)
    by (intros x Hx; apply Z.pow_nonzero; lia).
  destruct (Z.le_gt_cases 0 e) as [He|He].
  - rewrite Z.shiftl_mul_pow2 by lia.
    replace (e - b)%Z with (e + - b)%Z by lia.
    rewrite Z.pow_add_r, Z.mul_assoc by lia.
    rewrite Z.div_mul by (apply Hnz; lia). reflexivity.
  - rewrite Z.shiftl_div_pow2 by lia.
    replace (- b)%Z with (- e + (e - b))%Z by lia.
    rewrite Z.pow_add_r by lia.
    rewrite Z.div_mul_cancel_r by (apply Hnz; lia). reflexivity.
Qed.

(** Rounding to the double grid is monotone. *)
Lemma round_grid_mono (X1 X2 L1 L2 beta : Z) :
  (0 <= beta)%Z -> (1 <= L1)%Z ->
  (2 ^ (L1 - 1) <= X1 < 2 ^ L1)%Z -> (2 ^ (L2 - 1) <= X2 < 2 ^ L2)%Z ->
  (X1 <= X2)%Z ->
  (nearest_even X1 (2 ^ Z.max (L1 - 53) beta) * 2 ^ Z.max (L1 - 53) beta
   <= nearest_even X2 (2 ^ Z.max (L2 - 53) beta)
      * 2 ^ Z.max (L2 - 53) beta)%Z.
Proof.
  intros Hbeta HL1 HX1 HX2 HX.
  assert (HX0 : (0 < 2 ^ (L1 - 1))%Z) by (apply Z.pow_pos_nonneg; lia).
  assert (HL2 : (0 <= L2)%Z).
  { destruct (Z.le_gt_cases 0 L2) as [|Hneg]; [assumption|].
    rewrite (Z.pow_neg_r 2 L2) in HX2 by lia. lia. }
  assert (HL : (L1 <= L2)%Z).
  { assert (2 ^ (L1 - 1) < 2 ^ L2)%Z as Hp by lia.
    apply Z.pow_lt_mono_r_iff in Hp; lia. }
  set (t1 := Z.max (L1 - 53) beta). set (t2 := Z.max (L2 - 53) beta).
  assert (Ht1 : (0 < 2 ^ t1)%Z) by (apply Z.pow_pos_nonneg; lia).
  assert (Ht2 : (0 < 2 ^ t2)%Z) by (apply Z.pow_pos_nonneg; lia).
  destruct (Z.eq_dec t1 t2) as [Heq|Hne].
  - rewrite <- Heq. apply Z.mul_le_mono_nonneg_r; [lia|].
    now apply nearest_even_mono.
  - assert (Ht : (t1 < t2)%Z) by lia.
    assert (Ht2' : t2 = (L2 - 53)%Z) by lia.
    apply Z.le_trans with (2 ^ (L2 - 1))%Z.
    + replace (L2 - 1)%Z with ((L2 - 1 - t1) + t1)%Z by lia.
      rewrite Z.pow_add_r by lia.
      apply Z.mul_le_mono_nonneg_r; [lia|].
      apply nearest_even_below; [exact Ht1|].
      rewrite <- Z.pow_add_r by lia.
      replace (L2 - 1 - t1 + t1)%Z with (L2 - 1)%Z by lia.
      apply Z.le_trans with (2 ^ L1)%Z; [lia|].
      apply Z.pow_le_mono_r; lia.
    + replace (L2 - 1)%Z with (52 + t2)%Z at 1 by lia.
      rewrite Z.pow_add_r by lia.
      apply Z.mul_le_mono_nonneg_r; [lia|].
      apply nearest_even_above; [exact Ht2|].
      rewrite <- Z.pow_add_r by lia.
      replace (52 + t2)%Z with (L2 - 1)%Z by lia. lia.
Qed.

(** ** The count, exactly *)

(** A well-formed finite double is canonical: its mantissa has at most 53
    bits, and exactly 53 unless the exponent is the smallest one. *)
Lemma valid_finite_inv (s : bool) (m : positive) (e : Z) :
  Float64.valid (S754_finite s m e) = true ->
  e = Z.max (Zpos (digits2_pos m) + e - 53) (-1074) /\ (Zpos m < 2 ^ 53)%Z.
Proof.
  unfold Float64.valid, valid_binary, bounded, canonical_mantissa.
  intros Hv. apply andb_true_iff in Hv as [Hc _]. apply Z.eqb_eq in Hc.
  change Float64.prec with 53%Z in Hc. change Float64.emax with 1024%Z in Hc.
  rewrite fexp_eq in Hc. split; [lia|].
  pose proof (digits2_pos_bounds m) as [_ Hhi].
  apply Z.lt_le_trans with (2 ^ Zpos (digits2_pos m))%Z; [exact Hhi|].
  apply Z.pow_le_mono_r; lia.
Qed.

Lemma finite_leb_inv (m1 m2 : positive) (e1 e2 : Z) :
  SFleb (S754_finite false m1 e1) (S754_finite false m2 e2) = true ->
  (e1 < e2)%Z \/ (e1 = e2 /\ (Zpos m1 <= Zpos m2)%Z).
Proof.
  unfold SFleb, SFcompare.
  change (PosDef.Pos.compare_cont Eq m1 m2) with (Pos.compare m1 m2).
  destruct (Z.compare_spec e1 e2) as [->|Hlt|Hgt]; [|now left|discriminate].
  destruct (Pos.compare_spec m1 m2) as [->|Hm|]; try discriminate.
  - right. split; [reflexivity|]. lia.
  - right. split; [reflexivity|]. apply Z.lt_le_incl. exact Hm.
Qed.

(** The order of two positive doubles is the order of the numbers they
    stand for. *)
Lemma leb_scaled (m1 m2 : positive) (e1 e2 b : Z) :
  Float64.valid (S754_finite false m1 e1) = true ->
  Float64.valid (S754_finite false m2 e2) = true ->
  Float64.leb (S754_finite false m1 e1) (S754_finite false m2 e2) = true ->
  (b <= e1)%Z -> (b <= e2)%Z ->
  (Zpos m1 * 2 ^ (e1 - b) <= Zpos m2 * 2 ^ (e2 - b))%Z.
Proof.
  intros Hv1 Hv2 Hle Hb1 Hb2.
  apply valid_finite_inv in Hv1 as [Hc1 Hm1].
  apply valid_finite_inv in Hv2 as [Hc2 Hm2].
  apply finite_leb_inv in Hle as [Hlt|[-> Hm]].
  - pose proof (digits2_pos_bounds m2) as [Hlo _].
    assert (Hd2 : Zpos (digits2_pos m2) = 53%Z) by lia.
    rewrite Hd2 in Hlo. change (2 ^ (53 - 1))%Z with (2 ^ 52)%Z in Hlo.
    assert (Hp : (0 < 2 ^ (e1 - b))%Z) by (apply Z.pow_pos_nonneg; lia).
    replace (e2 - b)%Z with ((e2 - e1 - 1) + 1 + (e1 - b))%Z by lia.
    rewrite !Z.pow_add_r by lia. change (2 ^ 1)%Z with 2%Z.
    assert (Hq : (0 < 2 ^ (e2 - e1 - 1))%Z) by (apply Z.pow_pos_nonneg; lia).
    rewrite !Z.mul_assoc. apply Z.mul_le_mono_nonneg_r; [lia|].
    change (2 ^ 53)%Z with (2 ^ 52 * 2)%Z in Hm1. nia.
  - apply Z.mul_le_mono_nonneg_r; [|exact Hm].
    apply Z.pow_nonneg. lia.
Qed.

(** [int(n * r)] for a ratio below 1 and a length [n >= 1], on a scale
    [2^b]: with [X] the exact product, an integer of [L] bits on that
    scale, the count is the floor of [X] rounded to the nearest multiple of
    the spacing of the doubles around it. *)
Lemma count_grid (n : nat) (mr : positive) (er b : Z) :
  (1 <= Z.of_nat n <= 2 ^ 53)%Z ->
  (er <= -52)%Z -> (Zpos mr < 2 ^ (- er))%Z ->
  (b <= er)%Z -> (b <= -1074)%Z ->
  exists L,
    (1 <= L)%Z /\
    (2 ^ (L - 1) <= Z.of_nat n * Zpos mr * 2 ^ (er - b) < 2 ^ L)%Z /\
    count n (S754_finite false mr er)
    = Ok ((nearest_even (Z.of_nat n * Zpos mr * 2 ^ (er - b))
             (2 ^ Z.max (L - 53) (-1074 - b))
           * 2 ^ Z.max (L - 53) (-1074 - b)) / 2 ^ (- b))%Z.
Proof.
  intros HN Her Hmr Hber Hb. unfold count, Float64.int_mul.
  set (N := Z.of_nat n) in *.
  destruct (of_int_exact N ltac:(lia))
    as [[_ HNz]|(mN & eN & -> & HeN & HbN & HaN)]; [lia|]. simpl bind.
  unfold Float64.mul, SFmul. simpl xorb.
  change Float64.prec with 53%Z. change Float64.emax with 1024%Z.
  set (B := Z.min eN 0).
  apply (below_scaled _ _ _ B) in HbN; [|lia|lia].
  apply (above_scaled _ _ _ B) in HaN; [|lia|lia].
  assert (HNm : (Zpos mN * 2 ^ (eN - B) = N * 2 ^ (- B))%Z) by lia.
  clear HbN HaN.
  set (E := (eN + er)%Z). set (b0 := Z.min b E).
  assert (Hpe : (0 < 2 ^ (- er))%Z) by (apply Z.pow_pos_nonneg; lia).
  assert (HpB : (0 < 2 ^ (eN - B))%Z) by (apply Z.pow_pos_nonneg; lia).
  (* the product is below [2^53] *)
  assert (Hdig : (Zpos (digits2_pos (mN * mr)) + E <= 900)%Z).
  { pose proof (digits2_pos_bounds (mN * mr)) as [Hlo _].
    rewrite Pos2Z.inj_mul in Hlo.
    assert (HmN : (Zpos mN * 2 ^ (eN - B) <= 2 ^ (53 - B))%Z).
    { rewrite HNm. replace (53 - B)%Z with (53 + - B)%Z by lia.
      rewrite Z.pow_add_r by lia.
      apply Z.mul_le_mono_nonneg_r; [apply Z.pow_nonneg|]; lia. }
    assert (Hprod : (Zpos mN * Zpos mr * 2 ^ (eN - B)
                     < 2 ^ (53 - B) * 2 ^ (- er))%Z) by nia.
    rewrite <- Z.pow_add_r in Hprod by lia.
    assert (Hchain : (2 ^ (Zpos (digits2_pos (mN * mr)) - 1) * 1
                      < 2 ^ (53 - B + - er))%Z) by nia.
    rewrite Z.mul_1_r in Hchain.
    apply Z.pow_lt_mono_r_iff in Hchain; unfold E; lia. }
  destruct (binary_round_aux_grid false (mN * mr) E b0
              ltac:(lia) ltac:(lia) ltac:(unfold E; lia) Hdig)
    as (L0 & HL0 & HX0 & Hres).
  set (c := (2 ^ (b - b0))%Z).
  assert (Hc : (0 < c)%Z) by (apply Z.pow_pos_nonneg; lia).
  set (Xb := (N * Zpos mr * 2 ^ (er - b))%Z).
  assert (HXb1 : (1 <= Xb)%Z).
  { assert (0 < 2 ^ (er - b))%Z by (apply Z.pow_pos_nonneg; lia).
    unfold Xb. nia. }
  assert (HX : (Zpos (mN * mr) * 2 ^ (E - b0) = Xb * c)%Z).
  { rewrite Pos2Z.inj_mul. unfold Xb, c.
    replace (E - b0)%Z with ((eN - B) + (er + B - b0))%Z by (unfold E; lia).
    rewrite Z.pow_add_r by lia.
    transitivity (Zpos mN * 2 ^ (eN - B) * Zpos mr * 2 ^ (er + B - b0))%Z;
      [ring|].
    rewrite HNm.
    assert (Hpw : (2 ^ (- B) * 2 ^ (er + B - b0)
                   = 2 ^ (er - b) * 2 ^ (b - b0))%Z)
      by (rewrite <- !Z.pow_add_r by lia; f_equal; lia).
    transitivity (N * Zpos mr * (2 ^ (- B) * 2 ^ (er + B - b0)))%Z; [ring|].
    rewrite Hpw. ring. }
  rewrite HX in HX0, Hres.
  set (L := (L0 - (b - b0))%Z).
  assert (HL : (1 <= L)%Z).
  { destruct (Z.le_gt_cases 1 L) as [|Hlt]; [assumption|exfalso].
    assert (2 ^ L0 <= c)%Z by (apply Z.pow_le_mono_r; unfold L in Hlt; lia).
    nia. }
  exists L. split; [exact HL|].
  assert (HpL : (2 ^ L0 = 2 ^ L * c)%Z)
    by (unfold c; rewrite <- Z.pow_add_r by lia; f_equal; unfold L; lia).
  assert (HpL1 : (2 ^ (L0 - 1) = 2 ^ (L - 1) * c)%Z)
    by (unfold c; rewrite <- Z.pow_add_r by lia; f_equal; unfold L; lia).
  rewrite HpL, HpL1 in HX0. destruct HX0 as [Hlo Hhi].
  apply Z.mul_le_mono_pos_r in Hlo; [|exact Hc].
  apply Z.mul_lt_mono_pos_r in Hhi; [|exact Hc].
  split; [split; assumption|].
  set (t := Z.max (L - 53) (-1074 - b)).
  assert (Ht : (0 <= t)%Z) by (unfold t; lia).
  assert (HH : (2 ^ Z.max (L0 - 53) (-1074 - b0) = 2 ^ t * c)%Z).
  { unfold c. rewrite <- Z.pow_add_r by lia. f_equal. unfold t, L. lia. }
  assert (HpH : (0 < 2 ^ t)%Z) by (apply Z.pow_pos_nonneg; lia).
  rewrite HH in Hres. rewrite nearest_even_scale in Hres by assumption.
  destruct Hres as [[Hz ->]|(m & e & -> & He & Hm)].
  - rewrite Hz. reflexivity.
  - rewrite (to_int_scaled m e b0) by lia. f_equal. rewrite Hm.
    assert (Hpb : (2 ^ (- b0) = 2 ^ (- b) * c)%Z)
      by (unfold c; rewrite <- Z.pow_add_r by lia; f_equal; lia).
    rewrite Hpb, Z.mul_assoc.
    apply Z.div_mul_cancel_r; [apply Z.pow_nonzero|]; lia.
Qed.

Lemma Ok_inj {A : Type} (a b : A) : Ok a = Ok b -> a = b.
Proof. intros H. now injection H. Qed.

(** The count never decreases when the ratio grows. *)
Lemma count_mono (n : nat) (r1 r2 : float) :
  (Z.of_nat n <= 2 ^ 53)%Z ->
  unit_ratio r1 = true -> unit_ratio r2 = true ->
  Float64.leb r1 r2 = true ->
  exists k1 k2,
    count n r1 = Ok k1 /\ count n r2 = Ok k2 /\
    (0 <= k1 <= k2)%Z /\ (k2 <= Z.of_nat n)%Z.
Proof.
  intros HN Hr1 Hr2 Hle.
  destruct (unit_ratio_counts n r1 HN Hr1) as (k1 & _ & Hc1 & _ & Hk1 & _).
  destruct (unit_ratio_counts n r2 HN Hr2) as (k2 & _ & Hc2 & _ & Hk2 & _).
  exists k1, k2. split; [exact Hc1|]. split; [exact Hc2|].
  split; [split; [lia|]|lia].
  destruct (Z.eq_dec (Z.of_nat n) 0) as [Hz|Hnz]; [lia|].
  apply unit_ratio_true in Hr1 as (Hv1 & H01 & H11).
  apply unit_ratio_true in Hr2 as (Hv2 & H02 & H12).
  destruct (unit_ratio_inv r1 Hv1 H01 H11) as (m1 & e1 & -> & He1 & Hm1).
  destruct (unit_ratio_inv r2 Hv2 H02 H12) as (m2 & e2 & -> & He2 & Hm2).
  set (b := Z.min (Z.min e1 e2) (-1074)).
  assert (Hb : (b <= e1 /\ b <= e2 /\ b <= -1074)%Z) by (unfold b; lia).
  destruct Hb as (Hb1 & Hb2 & Hb3).
  assert (HN1 : (1 <= Z.of_nat n <= 2 ^ 53)%Z) by lia.
  destruct (count_grid n m1 e1 b HN1 He1 Hm1 Hb1 Hb3)
    as (L1 & HL1 & HX1 & Hg1).
  destruct (count_grid n m2 e2 b HN1 He2 Hm2 Hb2 Hb3)
    as (L2 & HL2 & HX2 & Hg2).
  rewrite <- (Ok_inj _ _ (eq_trans (eq_sym Hg1) Hc1)).
  rewrite <- (Ok_inj _ _ (eq_trans (eq_sym Hg2) Hc2)).
  apply Z.div_le_mono; [apply Z.pow_pos_nonneg; lia|].
  apply round_grid_mono; try assumption; [lia|].
  rewrite <- !Z.mul_assoc. apply Z.mul_le_mono_nonneg_l; [lia|].
  apply leb_scaled; try assumption; lia.
Qed.

(** For a ratio below 1 the count stays below the length. *)
Lemma count_below_length (n : nat) (r : float) :
  (1 <= Z.of_nat n <= 2 ^ 53)%Z -> unit_ratio r = true ->
  exists k, count n r = Ok k /\ (0 <= k < Z.of_nat n)%Z.
Proof.
  intros HN Hr.
  destruct (unit_ratio_counts n r ltac:(lia) Hr) as (k & _ & Hc & _ & Hk & _).
  exists k. split; [exact Hc|]. split; [lia|].
  apply unit_ratio_true in Hr as (Hv & H0 & H1).
  destruct (unit_ratio_inv r Hv H0 H1) as (mr & er & -> & Her & Hmr).
  apply valid_finite_inv in Hv as [Hcan Hm53].
  set (b := Z.min er (-1074)) in *.
  assert (Hbb : (b <= er /\ b <= -1074)%Z) by (unfold b; lia).
  destruct Hbb as (Hb1 & Hb2).
  destruct (count_grid n mr er b HN Her Hmr Hb1 Hb2)
    as (L & HL & [HXlo HXhi] & Hg).
  rewrite <- (Ok_inj _ _ (eq_trans (eq_sym Hg) Hc)). clear Hg Hc Hk.
  set (N := Z.of_nat n) in *.
  set (t := Z.max (L - 53) (-1074 - b)) in *.
  set (P := (2 ^ (er - b))%Z) in *. set (Q := (2 ^ (- er))%Z) in *.
  assert (HP : (0 < P)%Z) by (apply Z.pow_pos_nonneg; lia).
  assert (HH : (0 < 2 ^ t)%Z) by (apply Z.pow_pos_nonneg; lia).
  assert (Hb : (2 ^ (- b) = Q * P)%Z)
    by (unfold P, Q; rewrite <- Z.pow_add_r by lia; f_equal; lia).
  pose proof (nearest_even_near (N * Zpos mr * P) (2 ^ t) HH) as [_ [_ Hnear]].
  set (V := (nearest_even (N * Zpos mr * P) (2 ^ t) * 2 ^ t)%Z) in *.
  set (X := (N * Zpos mr * P)%Z) in *.
  (* the gap between the product and the length *)
  assert (Hgap : (N * P <= N * Q * P - X)%Z).
  { unfold X. replace (N * Q * P - N * Zpos mr * P)%Z
      with (N * P * (Q - Zpos mr))%Z by ring.
    rewrite <- (Z.mul_1_r (N * P)) at 1.
    apply Z.mul_le_mono_nonneg_l; [|lia].
    apply Z.mul_nonneg_nonneg; lia. }
  assert (HNP : (P <= N * P)%Z).
  { rewrite <- (Z.mul_1_l P) at 1. apply Z.mul_le_mono_nonneg_r; lia. }
  assert (Hhalf : (2 ^ t < 2 * (N * Q * P - X))%Z).
  { destruct (Z.le_gt_cases (L - 53) (-1074 - b)) as [Hsub|Hnor].
    - assert (2 ^ t <= P)%Z
        by (apply Z.pow_le_mono_r; unfold t; lia).
      lia.
    - assert (Ht : t = (L - 53)%Z) by (unfold t; lia).
      assert (HpL : (2 ^ (L - 1) = 2 ^ 52 * 2 ^ t)%Z)
        by (rewrite <- Z.pow_add_r by lia; f_equal; lia).
      assert (HX53 : (X <= 2 ^ 53 * (N * P))%Z).
      { unfold X. replace (N * Zpos mr * P)%Z with (Zpos mr * (N * P))%Z
          by ring.
        apply Z.mul_le_mono_nonneg_r; lia. }
      rewrite HpL in HXlo.
      assert (Hlt : (2 ^ 52 * 2 ^ t < 2 ^ 52 * (2 * (N * Q * P - X)))%Z).
      { change (2 ^ 53)%Z with (2 ^ 52 * 2)%Z in HX53.
        assert (0 < N * P)%Z by lia.
        destruct (Z.eq_dec X (2 ^ 52 * 2 * (N * P))) as [Heq|Hne].
        - exfalso. unfold X in Heq.
          replace (N * Zpos mr * P)%Z with (Zpos mr * (N * P))%Z in Heq
            by ring.
          apply Z.mul_cancel_r in Heq; [|lia].
          change (2 ^ 53)%Z with (2 ^ 52 * 2)%Z in Hm53. lia.
        - lia. }
      apply Z.mul_lt_mono_pos_l in Hlt; lia. }
  apply Z.div_lt_upper_bound; [apply Z.pow_pos_nonneg; lia|].
  rewrite Hb. fold X. lia.
Qed.

(** When the mantissa of the ratio is [c * 2^z] with [n * c] below
    [2^53], the product [n * r] is a double: nothing is rounded. *)
Lemma count_dyadic (n : nat) (mr : positive) (er c z : Z) :
  (Z.of_nat n <= 2 ^ 53)%Z ->
  unit_ratio (S754_finite false mr er) = true ->
  (0 <= z)%Z -> Zpos mr = (c * 2 ^ z)%Z -> (Z.of_nat n * c < 2 ^ 53)%Z ->
  count n (S754_finite false mr er)
  = exact_floor_count n (S754_finite false mr er).
Proof.
  intros HN Hr Hz Hc Hfit.
  destruct (Z.eq_dec (Z.of_nat n) 0) as [Hn0|Hn0].
  { destruct (unit_ratio_counts n _ HN Hr) as (k & _ & -> & _ & Hk & _).
    unfold exact_floor_count. simpl cond_Zopp. rewrite Hn0, Z.mul_0_l.
    rewrite Z.shiftl_0_l. f_equal. lia. }
  apply unit_ratio_true in Hr as (Hv & H0 & H1).
  destruct (unit_ratio_inv _ Hv H0 H1) as (mr' & er' & Heq & Her & Hmr).
  injection Heq as <- <-.
  apply valid_finite_inv in Hv as [Hcan _].
  set (b := Z.min er (-1074)).
  assert (Hbb : (b <= er /\ b <= -1074)%Z) by (unfold b; lia).
  destruct Hbb as (Hb1 & Hb2).
  destruct (count_grid n mr er b ltac:(lia) Her Hmr Hb1 Hb2)
    as (L & HL & [HXlo HXhi] & ->).
  unfold exact_floor_count. simpl cond_Zopp. f_equal.
  rewrite Z.shiftl_div_pow2 by lia.
  set (N := Z.of_nat n) in *.
  set (t := Z.max (L - 53) (-1074 - b)) in *.
  assert (Hzt : (z + er - b = (z + er - b - t) + t)%Z) by lia.
  assert (Hpz : (0 < 2 ^ z)%Z) by (apply Z.pow_pos_nonneg; lia).
  assert (Hc0 : (0 < c)%Z) by nia.
  assert (HX : (N * Zpos mr * 2 ^ (er - b) = N * c * 2 ^ (z + er - b))%Z).
  { rewrite Hc. replace (z + er - b)%Z with (z + (er - b))%Z by lia.
    rewrite Z.pow_add_r by lia. ring. }
  assert (Ht : (t <= z + er - b)%Z).
  { assert (2 ^ (L - 1) < 2 ^ 53 * 2 ^ (z + er - b))%Z as Hp.
    { apply Z.le_lt_trans with (N * c * 2 ^ (z + er - b))%Z; [lia|].
      apply Z.mul_lt_mono_pos_r; [apply Z.pow_pos_nonneg|]; lia. }
    rewrite <- Z.pow_add_r in Hp by lia.
    apply Z.pow_lt_mono_r_iff in Hp; unfold t; lia. }
  assert (HXt : (N * Zpos mr * 2 ^ (er - b)
                 = N * c * 2 ^ (z + er - b - t) * 2 ^ t)%Z).
  { assert (Hpw : (2 ^ (z + er - b) = 2 ^ (z + er - b - t) * 2 ^ t)%Z)
      by (rewrite <- Z.pow_add_r by (unfold t; lia); f_equal; lia).
    rewrite HX, Hpw. ring. }
  rewrite HXt at 1.
  rewrite nearest_even_exact by (apply Z.pow_pos_nonneg; unfold t; lia).
  rewrite <- HXt.
  replace (- b)%Z with (- er + (er - b))%Z by lia.
  rewrite Z.pow_add_r by lia.
  apply Z.div_mul_cancel_r; apply Z.pow_nonzero; lia.
Qed.

(** * Signs in [eval_model] *)

Lemma shr_1_nonneg (mrs : shr_record) :
  (0 <= shr_m mrs)%Z -> (0 <= shr_m (shr_1 mrs))%Z.
Proof.
  destruct mrs as [m r s]. cbn [shr_m].
  destruct m as [|[p|p|]|p]; cbn [shr_1 shr_m]; lia.
Qed.

Lemma shr_nonneg (mrs : shr_record) (e n : Z) :
  (0 <= shr_m mrs)%Z -> (0 <= shr_m (fst (shr mrs e n)))%Z.
Proof.
  intros H. unfold shr. destruct n as [|p|p]; cbn [fst]; try exact H.
  rewrite iter_pos_nat. induction (Pos.to_nat p) as [|k IH]; [exact H|].
  simpl Nat.iter. now apply shr_1_nonneg.
Qed.

Lemma round_nearest_even_nonneg (m : Z) (l : location) :
  (0 <= m)%Z -> (0 <= round_nearest_even m l)%Z.
Proof.
  unfold round_nearest_even. destruct l as [|[| |]]; try destruct (Z.even m);
    lia.
Qed.

(** Rounding a non-negative mantissa with a clear sign never gives NaN
    or a set sign. *)
Lemma binary_round_aux_nonnegative (M E : Z) (l : location) :
  (0 <= M)%Z ->
  nonnegative (binary_round_aux 53 1024 false M E l) = true.
Proof.
  intros HM. unfold binary_round_aux, shr_fexp.
  pose proof (shr_nonneg (shr_record_of_loc M l) E
                (fexp 53 1024 (Zdigits2 M + E) - E)) as H1.
  destruct (shr (shr_record_of_loc M l) E _) as [mrs1 e1].
  cbn [fst] in H1.
  assert (Hm1 : (0 <= shr_m mrs1)%Z)
    by (apply H1; destruct l as [|[| |]]; exact HM).
  pose proof (round_nearest_even_nonneg _ (loc_of_shr_record mrs1) Hm1) as Hq.
  set (q := round_nearest_even (shr_m mrs1) (loc_of_shr_record mrs1)) in *.
  pose proof (shr_nonneg (shr_record_of_loc q loc_Exact) e1
                (fexp 53 1024 (Zdigits2 q + e1) - e1) Hq) as H2.
  destruct (shr (shr_record_of_loc q loc_Exact) e1 _) as [mrs2 e2].
  cbn [fst] in H2.
  destruct (shr_m mrs2) as [|m|m]; [reflexivity| |lia].
  destruct (e2 <=? 1024 - 53)%Z; reflexivity.
Qed.

Lemma mul_nonnegative (x y : float) :
  nonnegative x = true -> nonnegative y = true ->
  Float64.is_finite x = true -> Float64.is_finite y = true ->
  nonnegative (Float64.mul x y) = true.
Proof.
  unfold Float64.mul, SFmul.
  destruct x as [[|]|[|]| |[|] mx ex], y as [[|]|[|]| |[|] my ey];
    try discriminate; intros _ _ _ _; try reflexivity.
  cbn [xorb]. now apply binary_round_aux_nonnegative.
Qed.

Lemma add_nonnegative (x y : float) :
  nonnegative x = true -> nonnegative y = true ->
  nonnegative (float_add x y) = true.
Proof.
  unfold float_add, SFadd.
  destruct x as [[|]|[|]| |[|] mx ex], y as [[|]|[|]| |[|] my ey];
    try discriminate; intros _ _; try reflexivity.
  cbn [cond_Zopp]. unfold binary_normalize.
  destruct (shl_align mx ex (Z.min ex ey)) as [ax ?].
  destruct (shl_align my ey (Z.min ex ey)) as [ay ?]. cbn [fst Z.add].
  unfold binary_round.
  destruct (shl_align (ax + ay) _ _) as [mz ez].
  now apply binary_round_aux_nonnegative.
Qed.

Lemma div_nonnegative (x : float) (m : positive) (e : Z) :
  nonnegative x = true ->
  nonnegative (float_div x (S754_finite false m e)) = true.
Proof.
  unfold float_div, SFdiv.
  destruct x as [[|]|[|]| |[|] mx ex]; try discriminate; intros _;
    try reflexivity.
  unfold SFdiv_core_binary.
  set (s := (ex - e - _)%Z).
  set (m' := match s with
             | Zpos _ => Z.shiftl (Zpos mx) s
             | Z0 => Zpos mx
             | Zneg _ => Z0
             end).
  assert (Hm' : (0 <= m')%Z).
  { unfold m'. destruct s; try lia. apply Z.shiftl_nonneg. lia. }
  pose proof (Z.div_pos m' (Zpos m) Hm' ltac:(lia)) as Hq.
  unfold Z.div in Hq.
  destruct (Z.div_eucl m' (Zpos m)) as [q r]. cbn [xorb].
  now apply binary_round_aux_nonnegative.
Qed.

Lemma float_mul_int_nonnegative (x : float) (N : Z) :
  (0 <= N <= 2 ^ 53)%Z ->
  nonnegative x = true -> Float64.is_finite x = true ->
  exists y, float_mul_int x N = Ok y /\ nonnegative y = true.
Proof.
  intros HN Hx Hf. unfold float_mul_int.
  destruct (of_int_exact N HN) as [[-> _]|(m & e & -> & _)]; simpl bind;
    eexists; (split; [reflexivity|]); now apply mul_nonnegative.
Qed.

Lemma eval_loop_nonnegative {Inputs Labels Preds : Type}
    (batch_size : Inputs -> nat) (model : Inputs -> Preds)
    (criterion accuracy : Preds -> Labels -> float)
    (dl : list (Inputs * Labels)) (t t' : totals) :
  (0 <= total t)%Z ->
  (total t + Z.of_nat (samples batch_size dl) <= 2 ^ 53)%Z ->
  Forall (fun sample =>
            nonnegative (criterion (model (fst sample)) (snd sample))
            && Float64.is_finite (criterion (model (fst sample)) (snd sample))
            && nonnegative (accuracy (model (fst sample)) (snd sample))
            && Float64.is_finite (accuracy (model (fst sample)) (snd sample))
            = true) dl ->
  nonnegative (total_loss t) = true ->
  nonnegative (total_correct t) = true ->
  eval_loop batch_size model criterion accuracy dl t = Ok t' ->
  nonnegative (total_loss t') = true /\ nonnegative (total_correct t') = true.
Proof.
  intros H0 Hb Hall. revert t H0 Hb.
  induction Hall as [|[inputs labels] dl Hs _ IH]; intros t H0 Hb Hl Hc H;
    simpl in *.
  - injection H as <-. auto.
  - apply andb_true_iff in Hs as [Hs Haf]. apply andb_true_iff in Hs as [Hs Han].
    apply andb_true_iff in Hs as [Hln Hlf].
    destruct (float_mul_int_nonnegative (criterion (model inputs) labels)
                (Z.of_nat (batch_size inputs)) ltac:(lia) Hln Hlf)
      as (wl & Hwl & Hwln).
    destruct (float_mul_int_nonnegative (accuracy (model inputs) labels)
                (Z.of_nat (batch_size inputs)) ltac:(lia) Han Haf)
      as (wc & Hwc & Hwcn).
    rewrite Hwl, Hwc in H. simpl in H.
    apply IH in H; [exact H|simpl; lia|simpl; lia| |]; simpl;
      now apply add_nonnegative.
Qed.

(** * Upper bounds through [eval_model] *)

Lemma at_most_finite (m : positive) (e J : Z) :
  at_most (S754_finite false m e) J = true <-> below (Zpos m) e J.
Proof. unfold at_most, below. apply Z.leb_le. Qed.

Lemma below_le (m e J J' : Z) :
  (J <= J')%Z -> below m e J -> below m e J'.
Proof.
  unfold below. intros HJ H.
  apply Z.le_trans with (J * 2 ^ Z.max (- e) 0)%Z; [exact H|].
  apply Z.mul_le_mono_nonneg_r; [apply Z.pow_nonneg|]; lia.
Qed.

Lemma at_most_le (x : float) (J J' : Z) :
  (J <= J')%Z -> at_most x J = true -> at_most x J' = true.
Proof.
  intros HJ. destruct x as [[|]|s| |[|] m e]; try discriminate; auto.
  rewrite !at_most_finite. now apply below_le.
Qed.

(** Aligning a mantissa to a smaller exponent keeps the number. *)
Lemma shl_align_spec (m : positive) (e t : Z) :
  (snd (shl_align m e t) <= e)%Z /\ (snd (shl_align m e t) <= Z.max e t)%Z /\
  (snd (shl_align m e t) = Z.min e t) /\
  Zpos (fst (shl_align m e t))
  = (Zpos m * 2 ^ (e - snd (shl_align m e t)))%Z.
Proof.
  unfold shl_align. destruct (t - e)%Z as [|d|d] eqn:Hd; cbn [fst snd].
  - rewrite Z.sub_diag, Z.mul_1_r. repeat split; lia.
  - rewrite Z.sub_diag, Z.mul_1_r. repeat split; lia.
  - repeat split; try lia.
    fold (shift_pos d m). rewrite shift_pos_correct, Z.pow_pos_fold.
    replace (e - t)%Z with (Zpos d) by lia. lia.
Qed.

(** The quotient and remainder of a division, as the start of a shift. *)
Lemma shr_inv_of_loc (q D r : Z) :
  (0 <= q)%Z -> (0 < D)%Z -> (0 <= r < D)%Z ->
  shr_inv (q * D + r) D (shr_record_of_loc q (new_location D r)).
Proof.
  intros Hq HD Hr. unfold new_location, new_location_even, new_location_odd.
  destruct (Z.even D); destruct (Z.eqb_spec r 0) as [->|Hne];
    unfold shr_inv, shr_record_of_loc;
    repeat match goal with
           | |- context [match ?c with Eq => _ | Lt => _ | Gt => _ end] =>
               destruct c
           end;
    cbn [shr_m shr_r shr_s orb]; repeat split; try lia; discriminate.
Qed.

Lemma iter_shr_1_inv_from (M P : Z) (n : nat) (mrs : shr_record) :
  (0 < P)%Z -> shr_inv M P mrs ->
  shr_inv M (P * 2 ^ Z.of_nat n) (Nat.iter n shr_1 mrs).
Proof.
  intros HP H. induction n as [|n IH].
  - simpl. now rewrite Z.mul_1_r.
  - rewrite Nat2Z.inj_succ, Z.pow_succ_r by lia. simpl Nat.iter.
    replace (P * (2 * 2 ^ Z.of_nat n))%Z with (2 * (P * 2 ^ Z.of_nat n))%Z
      by ring.
    apply shr_1_inv; [|exact IH].
    apply Z.mul_pos_pos; [exact HP|apply Z.pow_pos_nonneg; lia].
Qed.

Lemma shr_inv_shift (M P : Z) (mrs : shr_record) (e n : Z) :
  (0 < P)%Z -> shr_inv M P mrs ->
  snd (shr mrs e n) = (e + Z.max n 0)%Z /\
  shr_inv M (P * 2 ^ Z.max n 0) (fst (shr mrs e n)).
Proof.
  intros HP H. unfold shr. destruct n as [|p|p]; cbn [fst snd].
  - rewrite Z.add_0_r, Z.mul_1_r. now split.
  - rewrite Z.max_l by lia. split; [reflexivity|]. rewrite iter_pos_nat.
    rewrite <- (positive_nat_Z p). now apply iter_shr_1_inv_from.
  - rewrite Z.max_r by lia. rewrite Z.add_0_r, Z.pow_0_r, Z.mul_1_r.
    now split.
Qed.

(** Rounding a quotient [(q + r / D) * 2^E] that is at most the integer
    [J] gives a double that is at most [J]. *)
Lemma binary_round_aux_below (q D r E J : Z) :
  (0 <= q)%Z -> (0 < D)%Z -> (0 <= r < D)%Z ->
  (E <= 0)%Z -> (0 <= J <= 2 ^ 52)%Z ->
  (q * D + r <= J * D * 2 ^ (- E))%Z ->
  binary_round_aux 53 1024 false q E (new_location D r) = S754_zero false \/
  exists m e,
    binary_round_aux 53 1024 false q E (new_location D r)
    = S754_finite false m e /\ below (Zpos m) e J.
Proof.
  intros Hq HD Hr HE HJ HM.
  unfold binary_round_aux, shr_fexp. rewrite !fexp_eq.
  set (W := (2 ^ (- E))%Z) in *.
  assert (HW : (0 < W)%Z) by (apply Z.pow_pos_nonneg; lia).
  set (d := Zdigits2 q).
  assert (Hd0 : (0 <= d)%Z).
  { unfold d. destruct q as [|p|p]; simpl; lia. }
  assert (Hqd : (q < 2 ^ d)%Z).
  { unfold d. destruct q as [|p|p]; simpl; try lia.
    apply digits2_pos_bounds. }
  assert (HqJ : (q <= J * W)%Z).
  { apply (Z.mul_le_mono_pos_r _ _ D); [exact HD|].
    replace (J * W * D)%Z with (J * D * W)%Z by ring. lia. }
  assert (HdE : (d + E <= 53)%Z).
  { destruct q as [|p|p]; [unfold d; simpl; lia| |lia].
    pose proof (digits2_pos_bounds p) as [Hlo _]. fold (Zdigits2 (Zpos p)) in Hlo.
    fold d in Hlo.
    assert (2 ^ (d - 1) <= 2 ^ (52 - E))%Z as Hp.
    { replace (52 - E)%Z with (52 + - E)%Z by lia.
      rewrite (Z.pow_add_r 2 52) by lia. fold W.
      apply Z.le_trans with (J * W)%Z; [lia|].
      apply Z.mul_le_mono_nonneg_r; lia. }
    apply Z.pow_le_mono_r_iff in Hp; lia. }
  set (n1 := (Z.max (d + E - 53) (-1074) - E)%Z).
  pose proof (shr_inv_shift (q * D + r) D
                (shr_record_of_loc q (new_location D r)) E n1 HD
                (shr_inv_of_loc q D r Hq HD Hr)) as [He1 Hinv].
  destruct (shr (shr_record_of_loc q (new_location D r)) E n1) as [mrs1 e1].
  cbn [fst snd] in He1, Hinv. destruct Hinv as (Hm1 & Hq1 & Hs1).
  rewrite fexp_eq.
  pose proof (round_nearest_even_bounds mrs1) as [Hrn Hrn'].
  set (m1 := round_nearest_even (shr_m mrs1) (loc_of_shr_record mrs1)) in *.
  set (P1 := (2 ^ Z.max n1 0)%Z) in *.
  assert (HP1 : (0 < P1)%Z) by (apply Z.pow_pos_nonneg; lia).
  assert (He10 : (e1 <= 0)%Z) by lia.
  assert (HmP : (shr_m mrs1 * P1 <= q)%Z).
  { assert (shr_m mrs1 * P1 * D < (q + 1) * D)%Z as Hlt.
    { replace (shr_m mrs1 * P1 * D)%Z with (shr_m mrs1 * (D * P1))%Z by ring.
      replace ((q + 1) * D)%Z with (q * D + D)%Z by ring. lia. }
    apply Z.mul_lt_mono_pos_r in Hlt; lia. }
  assert (Hm53 : (shr_m mrs1 < 2 ^ 53)%Z).
  { assert (2 ^ d <= 2 ^ 53 * P1)%Z as Hp.
    { unfold P1. rewrite <- Z.pow_add_r by lia.
      apply Z.pow_le_mono_r; lia. }
    apply (Z.mul_lt_mono_pos_r P1); [exact HP1|]. lia. }
  assert (HD1 : (Zdigits2 m1 <= 54)%Z).
  { apply Zdigits2_le; [|lia]. change (2 ^ 54)%Z with (2 * 2 ^ 53)%Z. lia. }
  set (n2 := (Z.max (Zdigits2 m1 + e1 - 53) (-1074) - e1)%Z).
  pose proof (shr_exact m1 e1 n2 ltac:(lia)) as H2.
  destruct (shr (shr_record_of_loc m1 loc_Exact) e1 n2) as [mrs2 e2].
  destruct H2 as [He2 (Hm2 & Hq2 & _)].
  set (P2 := (2 ^ Z.max n2 0)%Z) in *.
  assert (HP2 : (0 < P2)%Z) by (apply Z.pow_pos_nonneg; lia).
  set (Q := (2 ^ (- e1))%Z).
  assert (HQ : (0 < Q)%Z) by (apply Z.pow_pos_nonneg; lia).
  assert (HWQ : W = (P1 * Q)%Z).
  { unfold W, P1, Q. rewrite <- Z.pow_add_r by lia. f_equal. lia. }
  assert (Hkey : (m1 <= J * Q)%Z).
  { assert (Hbound : (q * D + r <= J * Q * (D * P1))%Z).
    { replace (J * Q * (D * P1))%Z with (J * D * (P1 * Q))%Z by ring.
      now rewrite <- HWQ. }
    destruct (Z.eq_dec m1 (shr_m mrs1)) as [Heq|Hne].
    - rewrite Heq.
      apply (Z.mul_le_mono_pos_r _ _ (D * P1));
        [apply Z.mul_pos_pos; assumption|]. lia.
    - specialize (Hs1 (Hrn' Hne)).
      assert (shr_m mrs1 * (D * P1) < J * Q * (D * P1))%Z as Hlt by lia.
      apply Z.mul_lt_mono_pos_r in Hlt;
        [lia|apply Z.mul_pos_pos; assumption]. }
  assert (Hex2 : (shr_m mrs2 * P2)%Z = m1).
  { destruct (Z.le_gt_cases n2 0) as [Hn2|Hn2].
    - assert (P2 = 1%Z) as -> by (unfold P2; now rewrite Z.max_r by lia).
      lia.
    - assert (HD54 : Zdigits2 m1 = 54%Z) by lia.
      assert (Hm1' : m1 = (2 ^ 53)%Z).
      { destruct m1 as [|p|p]; simpl in HD54; try lia.
        pose proof (digits2_pos_bounds p) as [Hlo _].
        rewrite HD54 in Hlo. change (2 ^ (54 - 1))%Z with (2 ^ 53)%Z in Hlo.
        lia. }
      assert (P2 = 2%Z) as ->.
      { unfold P2. replace (Z.max n2 0) with 1%Z by lia. reflexivity. }
      rewrite Hm1' in *. change (2 ^ 53)%Z with (2 * 2 ^ 52)%Z in *. lia. }
  destruct (shr_m mrs2) as [|m|m] eqn:Hm; [now left|right|lia].
  destruct (Z.leb_spec e2 (1024 - 53)) as [_|Hbig]; [|lia].
  exists m, e2. split; [reflexivity|].
  apply (below_scaled _ _ _ e1); [lia|lia|]. fold Q.
  replace (e2 - e1)%Z with (Z.max n2 0) by lia. fold P2.
  rewrite Hex2. exact Hkey.
Qed.

Lemma below_shl_align (m : positive) (e t J : Z) :
  below (Zpos m) e J ->
  below (Zpos (fst (shl_align m e t))) (snd (shl_align m e t)) J.
Proof.
  intros H. destruct (shl_align_spec m e t) as (He & _ & _ & Hm).
  set (e' := snd (shl_align m e t)) in *.
  set (B := Z.min e' 0).
  apply (below_scaled _ _ _ B) in H; [|unfold B; lia|unfold B; lia].
  apply (below_scaled _ _ _ B); [unfold B; lia|unfold B; lia|].
  rewrite Hm, <- Z.mul_assoc, <- Z.pow_add_r by (unfold B; lia).
  replace (e - e' + (e' - B))%Z with (e - B)%Z by lia. exact H.
Qed.

(** A product [a * n] with [a <= 1] is at most [n]. *)
Lemma float_mul_int_at_most (a : float) (n : Z) :
  Float64.valid a = true -> at_most a 1 = true -> (0 <= n <= 2 ^ 53)%Z ->
  exists w, float_mul_int a n = Ok w /\ at_most w n = true.
Proof.
  intros Hv Ha Hn. unfold float_mul_int.
  destruct (of_int_exact n Hn) as [[-> ->]|(mN & eN & -> & HeN & HbN & HaN)];
    simpl bind.
  - eexists. split; [reflexivity|].
    destruct a as [[|]|s| |[|] m e]; try discriminate; reflexivity.
  - eexists. split; [reflexivity|].
    destruct a as [[|]|s| |[|] ma ea]; try discriminate; [reflexivity|].
    apply at_most_finite in Ha. apply valid_finite_inv in Hv as [Hcan _].
    pose proof (digits2_pos_bounds ma) as [Hlo _].
    assert (Hea : (ea <= -52)%Z).
    { unfold below in Ha.
      destruct (Z.le_gt_cases ea (-52)) as [|Hgt]; [assumption|exfalso].
      assert (Hd : Zpos (digits2_pos ma) = 53%Z) by lia.
      rewrite Hd in Hlo. change (2 ^ (53 - 1))%Z with (2 ^ 52)%Z in Hlo.
      destruct (Z.le_gt_cases 0 ea) as [Hpos|Hneg].
      - rewrite (Z.max_l ea 0), (Z.max_r (- ea) 0), Z.pow_0_r in Ha by lia.
        assert (0 < 2 ^ ea)%Z by (apply Z.pow_pos_nonneg; lia).
        assert (1 < 2 ^ 52)%Z by reflexivity. nia.
      - rewrite (Z.max_r ea 0), (Z.max_l (- ea) 0), Z.pow_0_r in Ha by lia.
        assert (2 ^ (- ea) < 2 ^ 52)%Z
          by (apply Z.pow_lt_mono_r; lia).
        lia. }
    unfold below in Ha.
    rewrite (Z.max_r ea 0), (Z.max_l (- ea) 0), Z.pow_0_r, Z.mul_1_r,
      Z.mul_1_l in Ha by lia.
    unfold Float64.mul, SFmul. cbn [xorb].
    change Float64.prec with 53%Z. change Float64.emax with 1024%Z.
    assert (HE : (ea + eN <= 0)%Z) by lia.
    assert (Hb : below (Zpos (ma * mN)) (ea + eN) n).
    { unfold below, above in *.
      rewrite (Z.max_r (ea + eN) 0), (Z.max_l (- (ea + eN)) 0), Z.pow_0_r,
        Z.mul_1_r by lia.
      rewrite Pos2Z.inj_mul.
      destruct (Z.le_gt_cases 0 eN) as [Hpos|Hneg].
      - rewrite (Z.max_l eN 0), (Z.max_r (- eN) 0), Z.pow_0_r, Z.mul_1_r
          in HbN, HaN by lia.
        assert (HNm : n = (Zpos mN * 2 ^ eN)%Z) by lia.
        assert (2 ^ (- ea) = 2 ^ eN * 2 ^ (- (ea + eN)))%Z as Hsplit
          by (rewrite <- Z.pow_add_r by lia; f_equal; lia).
        rewrite HNm, Hsplit in *.
        replace (Zpos mN * 2 ^ eN * 2 ^ (- (ea + eN)))%Z
          with (2 ^ eN * 2 ^ (- (ea + eN)) * Zpos mN)%Z by ring.
        apply Z.mul_le_mono_nonneg_r; lia.
      - rewrite (Z.max_r eN 0), (Z.max_l (- eN) 0), Z.pow_0_r, Z.mul_1_r
          in HbN, HaN by lia.
        assert (HNm : Zpos mN = (n * 2 ^ (- eN))%Z) by lia.
        assert (2 ^ (- (ea + eN)) = 2 ^ (- ea) * 2 ^ (- eN))%Z as ->
          by (rewrite <- Z.pow_add_r by lia; f_equal; lia).
        rewrite HNm.
        replace (n * (2 ^ (- ea) * 2 ^ (- eN)))%Z
          with (2 ^ (- ea) * (n * 2 ^ (- eN)))%Z by ring.
        apply Z.mul_le_mono_nonneg_r; [|lia].
        apply Z.mul_nonneg_nonneg; [lia|apply Z.pow_nonneg; lia]. }
    assert (Ha0 : above (Zpos (ma * mN)) (ea + eN) 0).
    { unfold above. rewrite Z.mul_0_l.
      apply Z.mul_nonneg_nonneg; [lia|apply Z.pow_nonneg; lia]. }
    destruct (binary_round_aux_between _ _ 0 n HE ltac:(lia) Hn Ha0 Hb)
      as [[-> _]|(m & e & -> & _ & Hm & _)]; [reflexivity|].
    now apply at_most_finite.
Qed.

(** A sum of two bounded doubles is bounded by the sum of the bounds. *)
Lemma add_at_most (x y : float) (J1 J2 : Z) :
  at_most x J1 = true -> at_most y J2 = true ->
  (0 <= J1)%Z -> (0 <= J2)%Z -> (J1 + J2 < 2 ^ 53)%Z ->
  at_most (float_add x y) (J1 + J2) = true.
Proof.
  intros Hx Hy H1 H2 HJ. unfold float_add, SFadd.
  destruct x as [[|]|sx| |[|] mx ex]; try discriminate;
    destruct y as [[|]|sy| |[|] my ey]; try discriminate.
  - reflexivity.
  - apply (at_most_le _ J2); [lia|exact Hy].
  - apply (at_most_le _ J1); [lia|exact Hx].
  - apply at_most_finite in Hx. apply at_most_finite in Hy.
    cbn [cond_Zopp]. set (ez := Z.min ex ey).
    destruct (shl_align_spec mx ex ez) as (_ & _ & Hex & Hax).
    destruct (shl_align_spec my ey ez) as (_ & _ & Hey & Hay).
    set (ax := fst (shl_align mx ex ez)) in *.
    set (ay := fst (shl_align my ey ez)) in *.
    rewrite Hex in Hax. rewrite Hey in Hay.
    replace (Z.min ex ez) with ez in Hax by (unfold ez; lia).
    replace (Z.min ey ez) with ez in Hay by (unfold ez; lia).
    change (Zpos ax + Zpos ay)%Z with (Zpos (ax + ay)).
    unfold binary_normalize, binary_round.
    change Float64.prec with 53%Z. change Float64.emax with 1024%Z.
    rewrite fexp_eq.
    (* the exact sum is at most the sum of the bounds *)
    assert (Hsum : below (Zpos (ax + ay)) ez (J1 + J2)).
    { set (B := Z.min ez 0).
      apply (below_scaled _ _ _ B) in Hx; [|unfold B, ez; lia|unfold B; lia].
      apply (below_scaled _ _ _ B) in Hy; [|unfold B, ez; lia|unfold B; lia].
      apply (below_scaled _ _ _ B); [unfold B; lia|unfold B; lia|].
      rewrite Pos2Z.inj_add, Hax, Hay.
      rewrite Z.mul_add_distr_r, Z.mul_add_distr_r.
      rewrite <- !Z.mul_assoc, <- !Z.pow_add_r by (unfold B, ez; lia).
      replace (ex - ez + (ez - B))%Z with (ex - B)%Z by lia.
      replace (ey - ez + (ez - B))%Z with (ey - B)%Z by lia.
      lia. }
    pose proof (digits2_pos_bounds (ax + ay)) as [Hlo _].
    set (d := Zpos (digits2_pos (ax + ay))) in *.
    assert (HdE : (d + ez <= 53)%Z).
    { set (B := Z.min ez 0).
      pose proof Hsum as Hs.
      apply (below_scaled _ _ _ B) in Hs; [|unfold B; lia|unfold B; lia].
      assert (Hp : (2 ^ (d - 1) * 2 ^ (ez - B) < 2 ^ 53 * 2 ^ (- B))%Z).
      { apply Z.le_lt_trans with (Zpos (ax + ay) * 2 ^ (ez - B))%Z.
        - apply Z.mul_le_mono_nonneg_r;
            [apply Z.pow_nonneg; lia|exact Hlo].
        - apply Z.le_lt_trans with ((J1 + J2) * 2 ^ (- B))%Z; [exact Hs|].
          apply Z.mul_lt_mono_pos_r;
            [apply Z.pow_pos_nonneg; unfold B; lia|exact HJ]. }
      assert (Hd1 : (1 <= d)%Z) by (unfold d; lia).
      rewrite <- !Z.pow_add_r in Hp by (unfold B; lia).
      apply Z.pow_lt_mono_r_iff in Hp; unfold B in *; lia. }
    pose proof (below_shl_align (ax + ay) ez (Z.max (d + ez - 53) (-1074))
                  (J1 + J2) Hsum) as Hal.
    destruct (shl_align_spec (ax + ay) ez (Z.max (d + ez - 53) (-1074)))
      as (_ & _ & Hez' & _).
    destruct (shl_align (ax + ay) ez (Z.max (d + ez - 53) (-1074)))
      as [mz ez'].
    cbn [fst snd] in Hal, Hez'.
    assert (HE : (ez' <= 0)%Z) by lia.
    assert (Ha0 : above (Zpos mz) ez' 0).
    { unfold above. rewrite Z.mul_0_l.
      apply Z.mul_nonneg_nonneg; [lia|apply Z.pow_nonneg; lia]. }
    destruct (binary_round_aux_between mz ez' 0 (J1 + J2) HE ltac:(lia)
                ltac:(lia) Ha0 Hal)
      as [[-> _]|(m & e & -> & _ & Hm & _)]; [reflexivity|].
    now apply at_most_finite.
Qed.

(** A bounded sum divided by its bound is at most one. *)
Lemma div_at_most (x : float) (N : Z) (mN : positive) (eN : Z) :
  at_most x N = true ->
  below (Zpos mN) eN N -> above (Zpos mN) eN N ->
  at_most (float_div x (S754_finite false mN eN)) 1 = true.
Proof.
  intros Hx HbN HaN. unfold float_div, SFdiv.
  destruct x as [[|]|sx| |[|] mx ex]; try discriminate; [reflexivity|].
  apply at_most_finite in Hx. cbn [xorb].
  unfold SFdiv_core_binary.
  change Float64.prec with 53%Z. change Float64.emax with 1024%Z.
  rewrite fexp_eq.
  change (Zdigits2 (Zpos mx)) with (Zpos (digits2_pos mx)).
  change (Zdigits2 (Zpos mN)) with (Zpos (digits2_pos mN)).
  pose proof (digits2_pos_bounds mx) as [Hlox _].
  pose proof (digits2_pos_bounds mN) as [_ HhiN].
  set (d1 := Zpos (digits2_pos mx)) in *.
  set (d2 := Zpos (digits2_pos mN)) in *.
  (* the numerator is at most the denominator, on a common scale *)
  set (B := Z.min (Z.min ex eN) 0).
  apply (below_scaled _ _ _ B) in Hx; [|unfold B; lia|unfold B; lia].
  apply (below_scaled _ _ _ B) in HbN; [|unfold B; lia|unfold B; lia].
  apply (above_scaled _ _ _ B) in HaN; [|unfold B; lia|unfold B; lia].
  assert (Hle : (Zpos mx * 2 ^ (ex - B) <= Zpos mN * 2 ^ (eN - B))%Z) by lia.
  clear Hx HbN HaN.
  assert (Hd : (d1 + ex - (d2 + eN) <= 0)%Z).
  { assert (Hp : (2 ^ (d1 - 1) * 2 ^ (ex - B) < 2 ^ d2 * 2 ^ (eN - B))%Z).
    { apply Z.le_lt_trans with (Zpos mx * 2 ^ (ex - B))%Z.
      - apply Z.mul_le_mono_nonneg_r;
          [apply Z.pow_nonneg; lia|exact Hlox].
      - apply Z.le_lt_trans with (Zpos mN * 2 ^ (eN - B))%Z; [exact Hle|].
        apply Z.mul_lt_mono_pos_r;
          [apply Z.pow_pos_nonneg; unfold B; lia|exact HhiN]. }
    assert (Hd1 : (1 <= d1)%Z) by (unfold d1; lia).
    assert (Hd2 : (1 <= d2)%Z) by (unfold d2; lia).
    rewrite <- !Z.pow_add_r in Hp by (unfold B; lia).
    apply Z.pow_lt_mono_r_iff in Hp; unfold B in *; lia. }
  set (e' := Z.min (Z.max (d1 + ex - (d2 + eN) - 53) (-1074)) (ex - eN)).
  assert (He' : (e' <= -53)%Z) by (unfold e'; lia).
  assert (Hs : (0 <= ex - eN - e')%Z) by (unfold e'; lia).
  set (m' := match (ex - eN - e')%Z with
             | Zpos _ => Z.shiftl (Zpos mx) (ex - eN - e')
             | Z0 => Zpos mx
             | Zneg _ => 0%Z
             end).
  assert (Hm' : m' = (Zpos mx * 2 ^ (ex - eN - e'))%Z).
  { unfold m'. destruct (ex - eN - e')%Z as [|p|p] eqn:Hs'; [|.. |lia].
    - now rewrite Z.mul_1_r.
    - now rewrite Z.shiftl_mul_pow2 by lia. }
  clearbody m'.
  pose proof (Z.div_mod m' (Zpos mN) ltac:(lia)) as Hdm.
  pose proof (Z.mod_pos_bound m' (Zpos mN) ltac:(lia)) as Hr.
  unfold Z.div, Z.modulo in Hdm, Hr.
  destruct (Z.div_eucl m' (Zpos mN)) as [q r].
  assert (Hq : (0 <= q)%Z).
  { assert (0 <= m')%Z by (rewrite Hm'; apply Z.mul_nonneg_nonneg;
                           [lia|apply Z.pow_nonneg; lia]).
    destruct (Z.le_gt_cases 0 q) as [|Hneg]; [assumption|exfalso]. nia. }
  assert (HM : (q * Zpos mN + r <= 1 * Zpos mN * 2 ^ (- e'))%Z).
  { rewrite Z.mul_comm, <- Hdm, Hm', Z.mul_1_l.
    apply (Z.mul_le_mono_pos_r _ _ (2 ^ (eN - B)));
      [apply Z.pow_pos_nonneg; unfold B; lia|].
    rewrite <- Z.mul_assoc, <- Z.pow_add_r by (unfold B; lia).
    replace (ex - eN - e' + (eN - B))%Z with ((ex - B) + - e')%Z by lia.
    rewrite Z.pow_add_r, Z.mul_assoc by (unfold B; lia).
    replace (Zpos mN * 2 ^ (- e') * 2 ^ (eN - B))%Z
      with (Zpos mN * 2 ^ (eN - B) * 2 ^ (- e'))%Z by ring.
    apply Z.mul_le_mono_nonneg_r; [apply Z.pow_nonneg; lia|exact Hle]. }
  destruct (binary_round_aux_below q (Zpos mN) r e' 1 Hq ltac:(lia) Hr
              ltac:(lia) ltac:(split; [lia|reflexivity || (vm_compute; discriminate)]) HM)
    as [->|(m & e & -> & Hm)]; [reflexivity|].
  now apply at_most_finite.
Qed.

Lemma eval_loop_at_most {Inputs Labels Preds : Type}
    (batch_size : Inputs -> nat) (model : Inputs -> Preds)
    (criterion accuracy : Preds -> Labels -> float)
    (dl : list (Inputs * Labels)) (t t' : totals) :
  (0 <= total t)%Z ->
  (total t + Z.of_nat (samples batch_size dl) < 2 ^ 53)%Z ->
  Forall (fun sample =>
            Float64.valid (accuracy (model (fst sample)) (snd sample))
            && at_most (accuracy (model (fst sample)) (snd sample)) 1
            = true) dl ->
  at_most (total_correct t) (total t) = true ->
  eval_loop batch_size model criterion accuracy dl t = Ok t' ->
  at_most (total_correct t') (total t') = true /\
  total t' = (total t + Z.of_nat (samples batch_size dl))%Z.
Proof.
  intros H0 Hb Hall. revert t H0 Hb.
  induction Hall as [|[inputs labels] dl Hs _ IH]; intros t H0 Hb Hc H;
    simpl in *.
  - injection H as <-. split; [exact Hc|lia].
  - apply andb_true_iff in Hs as [Hv Ha].
    destruct (float_mul_int (criterion _ _) _) as [wl|]; simpl in H;
      [|discriminate].
    destruct (float_mul_int_at_most (accuracy (model inputs) labels)
                (Z.of_nat (batch_size inputs)) Hv Ha ltac:(lia))
      as (wc & Hwc & Hwn).
    rewrite Hwc in H. simpl in H.
    apply IH in H; simpl.
    + destruct H as [H Ht]. split; [exact H|]. rewrite Ht. simpl. lia.
    + lia.
    + lia.
    + apply add_at_most; try assumption; lia.
Qed.

(** ** The count, in the vocabulary of the specification *)

Lemma nearest_even_zero (D : Z) : (0 < D)%Z -> nearest_even 0 D = 0%Z.
Proof.
  intros HD. rewrite <- (Z.mul_0_l D) at 1. now apply nearest_even_exact.
Qed.

(** [int(n * r)] is the floor of the double nearest to the exact
    product. *)
Lemma count_rounded (n : nat) (r : float) :
  (Z.of_nat n <= 2 ^ 53)%Z -> unit_ratio r = true ->
  count n r = rounded_floor_count n r.
Proof.
  intros HN Hr.
  destruct (unit_ratio_counts n r HN Hr) as (k & _ & Hc & _ & Hk & _).
  apply unit_ratio_true in Hr as (Hv & H0 & H1).
  destruct (unit_ratio_inv r Hv H0 H1) as (m & e & -> & He & Hm).
  unfold rounded_floor_count. cbv zeta. cbn [cond_Zopp].
  set (b := Z.min e (-1074)).
  assert (Hbb : (b <= e /\ b <= -1074)%Z) by (unfold b; lia).
  destruct Hbb as [Hb1 Hb2].
  destruct (Z.eq_dec (Z.of_nat n) 0) as [Hz|Hnz].
  - rewrite Hc, Hz, !Z.mul_0_l. f_equal.
    rewrite nearest_even_zero by (apply Z.pow_pos_nonneg; lia).
    rewrite Z.mul_0_l, Z.div_0_l by (apply Z.pow_nonzero; lia). lia.
  - destruct (count_grid n m e b ltac:(lia) He Hm Hb1 Hb2)
      as (L & HL & HX & ->).
    assert (Hlog : Z.log2 (Z.of_nat n * Zpos m * 2 ^ (e - b)) = (L - 1)%Z).
    { apply Z.log2_unique; [lia|].
      replace (Z.succ (L - 1)) with L by lia. exact HX. }
    rewrite Hlog. replace (L - 1 + 1)%Z with L by lia. reflexivity.
Qed.

(** The count is 0 exactly when the exact product is below
    [1 - 2^-54]. *)
Lemma count_zero_iff (n : nat) (r : float) :
  (Z.of_nat n <= 2 ^ 53)%Z -> unit_ratio r = true ->
  count n r = Ok 0%Z <-> below_last_double n r = true.
Proof.
  intros HN Hr.
  destruct (unit_ratio_counts n r HN Hr) as (k & _ & Hc & _ & Hk & _).
  apply unit_ratio_true in Hr as (Hv & H0 & H1).
  destruct (unit_ratio_inv r Hv H0 H1) as (m & e & -> & He & Hm).
  apply valid_finite_inv in Hv as [Hcan Hm53].
  unfold below_last_double.
  rewrite (Z.max_r e 0), (Z.max_l (- e) 0), Z.pow_0_r, Z.mul_1_r by lia.
  rewrite Z.ltb_lt.
  set (N := Z.of_nat n) in *.
  set (Q := (2 ^ (- e))%Z) in *.
  assert (HQ : (0 < Q)%Z) by (apply Z.pow_pos_nonneg; lia).
  destruct (Z.eq_dec N 0) as [Hz|Hnz].
  { rewrite Hc. split; intros _; [rewrite Hz; lia|f_equal; lia]. }
  set (b := Z.min e (-1074)).
  assert (Hbb : (b <= e /\ b <= -1074 /\ -1074 <= b)%Z) by (unfold b; lia).
  destruct Hbb as (Hb1 & Hb2 & Hb3).
  destruct (count_grid n m e b ltac:(fold N; lia) He Hm Hb1 Hb2)
    as (L & HL & [HXlo HXhi] & Hg).
  fold N in HXlo, HXhi, Hg. rewrite Hg. clear Hg Hc Hk k.
  set (P := (2 ^ (e - b))%Z) in *.
  assert (HP : (0 < P)%Z) by (apply Z.pow_pos_nonneg; lia).
  set (X := (N * Zpos m * P)%Z) in *.
  set (t := Z.max (L - 53) (-1074 - b)) in *.
  assert (Ht0 : (0 <= t)%Z) by (unfold t; lia).
  assert (HH : (0 < 2 ^ t)%Z) by (apply Z.pow_pos_nonneg; lia).
  set (U := (2 ^ (- b - 53))%Z).
  assert (HU : (0 < U)%Z) by (apply Z.pow_pos_nonneg; lia).
  assert (HT : (2 ^ (- b) = 2 ^ 53 * U)%Z)
    by (unfold U; rewrite <- Z.pow_add_r by lia; f_equal; lia).
  assert (HTQ : (2 ^ (- b) = Q * P)%Z)
    by (unfold Q, P; rewrite <- Z.pow_add_r by lia; f_equal; lia).
  assert (HX0 : (0 <= X)%Z) by (unfold X; nia).
  pose proof (nearest_even_near X (2 ^ t) HH) as [[Hq0 _] [_ Hnear]].
  assert (HV0 : (0 <= nearest_even X (2 ^ t) * 2 ^ t)%Z).
  { apply Z.mul_nonneg_nonneg; [|lia].
    assert (0 <= X / 2 ^ t)%Z by (apply Z.div_pos; lia). lia. }
  (* the threshold, on the scale of [X] *)
  assert (Hthr : (2 ^ 54 * (N * Zpos m) < (2 ^ 54 - 1) * Q
                  <-> 2 ^ 54 * X < (2 ^ 54 - 1) * (2 ^ 53 * U))%Z).
  { rewrite <- HT, HTQ. unfold X.
    replace (2 ^ 54 * (N * Zpos m * P))%Z
      with (2 ^ 54 * (N * Zpos m) * P)%Z by ring.
    replace ((2 ^ 54 - 1) * (Q * P))%Z
      with ((2 ^ 54 - 1) * Q * P)%Z by ring.
    apply Z.mul_lt_mono_pos_r. exact HP. }
  rewrite Hthr. rewrite HT.
  set (V := (nearest_even X (2 ^ t) * 2 ^ t)%Z) in *.
  split.
  - (* a count of 0 puts the product below the threshold *)
    intros Hk. apply Ok_inj in Hk.
    apply Z.div_small_iff in Hk; [|lia].
    destruct Hk as [[_ HVlt]|Hneg]; [|lia].
    destruct (Z.lt_ge_cases (2 ^ 54 * X) ((2 ^ 54 - 1) * (2 ^ 53 * U)))
      as [|Hge]; [assumption|exfalso].
    destruct (Z.lt_ge_cases X (2 ^ 53 * U)) as [Hlt|Hbig].
    + (* just below 1: the product rounds up to 1 *)
      assert (HL' : L = (- b)%Z).
      { assert (2 ^ (L - 1) < 2 ^ (- b))%Z as Hp1 by lia.
        apply Z.pow_lt_mono_r_iff in Hp1; [|lia|lia].
        assert (2 ^ (- b - 1) < 2 ^ L)%Z as Hp2.
        { apply Z.le_lt_trans with X; [|exact HXhi].
          replace (- b)%Z with (1 + (- b - 1))%Z in HT by lia.
          rewrite Z.pow_add_r in HT by lia. change (2 ^ 1)%Z with 2%Z in HT.
          lia. }
        apply Z.pow_lt_mono_r_iff in Hp2; lia. }
      assert (Ht : t = (- b - 53)%Z) by (unfold t; lia).
      unfold V in HVlt. rewrite Ht in HVlt. fold U in HVlt.
      assert (Hdiv : (X / U = 2 ^ 53 - 1)%Z).
      { symmetry. apply (Z.div_unique X U _ (X - (2 ^ 53 - 1) * U)); lia. }
      assert (Hmod : (X mod U = X - (2 ^ 53 - 1) * U)%Z).
      { symmetry. apply (Z.mod_unique X U (2 ^ 53 - 1)); lia. }
      unfold nearest_even, round_up in HVlt. rewrite Hdiv, Hmod in HVlt.
      change (Z.odd (2 ^ 53 - 1)) with true in HVlt.
      rewrite andb_true_r in HVlt.
      destruct (Z.ltb_spec U (2 * (X - (2 ^ 53 - 1) * U))),
        (Z.eqb_spec (2 * (X - (2 ^ 53 - 1) * U)) U);
        cbn [orb] in HVlt; lia.
    + (* at least 1 *)
      assert (HLb : (- b < L)%Z).
      { assert (2 ^ (- b) < 2 ^ L)%Z as Hp by lia.
        apply Z.pow_lt_mono_r_iff in Hp; lia. }
      assert (Ht : t = (L - 53)%Z) by (unfold t; lia).
      assert (HpL : (2 ^ (L - 1) = 2 ^ 52 * 2 ^ t)%Z)
        by (rewrite <- Z.pow_add_r by lia; f_equal; lia).
      assert (Hab : (2 ^ 52 <= nearest_even X (2 ^ t))%Z)
        by (apply nearest_even_above; lia).
      assert (2 ^ (- b) <= 2 ^ (L - 1))%Z by (apply Z.pow_le_mono_r; lia).
      assert (2 ^ 52 * 2 ^ t <= V)%Z
        by (unfold V; apply Z.mul_le_mono_nonneg_r; lia).
      lia.
  - (* below the threshold the product rounds below 1 *)
    intros Hlt. f_equal. apply Z.div_small. split; [exact HV0|].
    assert (HXT : (X < 2 ^ 53 * U)%Z) by lia.
    assert (HLb : (L <= - b)%Z).
    { assert (2 ^ (L - 1) < 2 ^ (- b))%Z as Hp by lia.
      apply Z.pow_lt_mono_r_iff in Hp; lia. }
    assert (HHU : (2 ^ t <= U)%Z)
      by (apply Z.pow_le_mono_r; unfold t; lia).
    fold V in Hnear. lia.
Qed.

(** ** The cell and the reference algorithm *)

Lemma take_exact (ls : list Z) (idx : list nat) (picked : list pyvalue) :
  exact_labels ls = true ->
  take (np_array_of_ints ls) idx = Ok picked ->
  picked = map PyInt (map (fun i => nth i ls 0%Z) idx).
Proof.
  intros He Ht. apply np_array_of_exact in He. rewrite He in Ht.
  rewrite (take_map (PyInt 0) _ _ _ Ht), map_map.
  apply map_ext. intros i. apply (map_nth PyInt).
Qed.

Lemma pick_rounded (argsort : list float -> list nat) (r : float)
    (name : string) (ls : list Z) (cs : list float) :
  argsort_contract argsort -> unit_ratio r = true ->
  aligned (name, ls, cs) = true ->
  exists k F picked,
    rounded_floor_count (length cs) r = Ok k /\
    exact_floor_count (length cs) r = Ok F /\
    (F <= k <= F + 1)%Z /\
    (0 <= k <= Z.of_nat (length cs))%Z /\
    pick argsort r ls cs = Ok picked /\
    take (np_array_of_ints ls) (firstn (Z.to_nat k) (argsort cs))
    = Ok picked /\
    Z.of_nat (length picked) = k.
Proof.
  intros Hsort Hr Hal. apply aligned_true in Hal as [Hlen Hn].
  destruct (unit_ratio_counts (length cs) r ltac:(lia) Hr)
    as (k & F & Hc & _ & Hk & HF & HkF).
  destruct (pick_unit_ratio argsort r ls cs Hsort Hr ltac:(lia) ltac:(lia))
    as (k' & picked & Hc' & _ & _ & Hp & Ht & Hl).
  assert (k' = k) as -> by congruence.
  exists k, F, picked.
  rewrite <- (count_rounded (length cs) r ltac:(lia) Hr).
  repeat split; try assumption; lia.
Qed.

Lemma pick_reference (argsort : list float -> list nat) (r : float)
    (name : string) (ls : list Z) (cs : list float) :
  argsort_contract argsort -> unit_ratio r = true ->
  aligned (name, ls, cs) = true -> exact_labels ls = true ->
  exists k F picked,
    rounded_floor_count (length cs) r = Ok k /\
    exact_floor_count (length cs) r = Ok F /\
    (F <= k <= F + 1)%Z /\
    pick argsort r ls cs = Ok (map PyInt picked) /\
    reference_pick rounded_floor_count argsort r (name, ls, cs)
    = Ok picked /\
    Z.of_nat (length picked) = k.
Proof.
  intros Hsort Hr Hal Hex.
  destruct (pick_rounded argsort r name ls cs Hsort Hr Hal)
    as (k & F & picked & Hk & HF & HkF & _ & Hp & Ht & Hl).
  pose proof (take_exact ls _ picked Hex Ht) as Heq.
  exists k, F, (map (fun i => nth i ls 0%Z) (firstn (Z.to_nat k) (argsort cs))).
  rewrite <- Heq. unfold reference_pick. rewrite Hk.
  repeat split; try assumption; try lia.
  rewrite Heq, length_map in Hl. exact Hl.
Qed.

Lemma gather_total_count (argsort : list float -> list nat) (r : float)
    (gs : list gate) :
  argsort_contract argsort -> unit_ratio r = true ->
  forallb aligned gs = true ->
  exists out total exact_total,
    gather argsort r gs = Ok out /\
    total_count rounded_floor_count r gs = Ok total /\
    Z.of_nat (length out) = total /\
    total_count exact_floor_count r gs = Ok exact_total /\
    (exact_total <= total <= exact_total + Z.of_nat (length gs))%Z.
Proof.
  intros Hsort Hr Hal. induction gs as [|[[name ls] cs] gs IH].
  - exists [], 0%Z, 0%Z. simpl. repeat split; lia.
  - simpl in Hal. apply andb_true_iff in Hal as [Hg Hgs].
    destruct (IH Hgs) as (out & total & etotal & Hout & Ht & Hl & Het & Hb).
    destruct (pick_rounded argsort r name ls cs Hsort Hr Hg)
      as (k & F & picked & Hk & HF & HkF & _ & Hp & _ & Hlp).
    exists (picked ++ out), (k + total)%Z, (F + etotal)%Z.
    change (gather argsort r ((name, ls, cs) :: gs))
      with (p <- pick argsort r ls cs ;; ps <- gather argsort r gs ;;
            Ok (p ++ ps)).
    cbn [total_count]. rewrite Hp, Hout, Hk, Ht, HF, Het. cbn [bind].
    rewrite length_app. cbn [length]. repeat split; lia.
Qed.

(** ** Lists related element by element *)

Lemma Forall2_In_l {A B : Type} (R : A -> B -> Prop) (l : list A)
    (l' : list B) (a : A) :
  Forall2 R l l' -> In a l -> exists b, In b l' /\ R a b.
Proof.
  induction 1 as [|x y l l' Hxy _ IH]; simpl; [tauto|].
  intros [<-|Ha]; [eauto|].
  destruct (IH Ha) as (b & Hb & Hab). eauto.
Qed.

Lemma Forall2_In_r {A B : Type} (R : A -> B -> Prop) (l : list A)
    (l' : list B) (b : B) :
  Forall2 R l l' -> In b l' -> exists a, In a l /\ R a b.
Proof.
  induction 1 as [|x y l l' Hxy _ IH]; simpl; [tauto|].
  intros [<-|Hb]; [eauto|].
  destruct (IH Hb) as (a & Ha & Hab). eauto.
Qed.

Lemma Forall2_and_left {A B : Type} (P : A -> Prop) (R : A -> B -> Prop)
    (l : list A) (l' : list B) :
  Forall P l -> Forall2 R l l' -> Forall2 (fun a b => P a /\ R a b) l l'.
Proof.
  intros HP HR. induction HR as [|x y l l' Hxy _ IH]; constructor.
  - split; [now inversion HP|exact Hxy].
  - apply IH. now inversion HP.
Qed.

Lemma NoDup_map_PyInt (ls : list Z) : NoDup ls -> NoDup (map PyInt ls).
Proof.
  induction 1 as [|z ls Hz _ IH]; simpl; constructor; [|exact IH].
  intros Hin. apply in_map_iff in Hin as (z' & Heq & Hz').
  injection Heq as ->. contradiction.
Qed.

(** * The claims *)

(** C1, as amended.  For equal-length label and criteria sequences, labels
    that [np.array] holds as they are, and a ratio in (0,1), the cell
    returns a result, and it is the result of the reference algorithm
    with the product taken as a double: per triple, [k] is the floor of
    the double nearest to [len(criteria) * r], which is
    [floor(len(criteria) * r)] or that number plus one; the criteria are
    sorted ascending, the positions of the [k] smallest scores are taken,
    and the labels at those positions are the tensor's selection, [k] of
    them. *)
Theorem selector_follows_rounded_reference
    (argsort : list float -> list nat) (r : float) (gs : list gate) :
  argsort_contract argsort ->
  unit_ratio r = true ->
  forallb aligned gs = true ->
  forallb keeps_labels gs = true ->
  exists out,
    reference_selection rounded_floor_count argsort r gs = Ok out /\
    get_labels_for_equal_pruning argsort gs r = Ok (map PyInt out) /\
    Forall (fun g =>
       exists k F picked,
         rounded_floor_count (length (snd g)) r = Ok k /\
         exact_floor_count (length (snd g)) r = Ok F /\
         (F <= k <= F + 1)%Z /\
         reference_pick rounded_floor_count argsort r g = Ok picked /\
         get_labels_for_equal_pruning argsort [g] r = Ok (map PyInt picked) /\
         Z.of_nat (length picked) = k) gs.
Proof.
  intros Hsort Hr Hal Hex. rewrite get_labels_gather.
  unfold reference_selection.
  induction gs as [|[[name ls] cs] gs IH].
  - exists []. simpl. repeat split. constructor.
  - simpl in Hal, Hex. apply andb_true_iff in Hal as [Hg Hgs].
    apply andb_true_iff in Hex as [He Hes].
    destruct (IH Hgs Hes) as (out & Href & Hout & Hall).
    destruct (pick_reference argsort r name ls cs Hsort Hr Hg He)
      as (k & F & picked & Hk & HF & HkF & Hp & Hrp & Hl).
    exists (picked ++ out).
    change (gather argsort r ((name, ls, cs) :: gs))
      with (p <- pick argsort r ls cs ;; ps <- gather argsort r gs ;;
            Ok (p ++ ps)).
    change (collect (map (reference_pick rounded_floor_count argsort r)
                       ((name, ls, cs) :: gs)))
      with (x <- reference_pick rounded_floor_count argsort r (name, ls, cs) ;;
            xs <- collect (map (reference_pick rounded_floor_count argsort r)
                             gs) ;;
            Ok (x ++ xs)).
    rewrite Hp, Hrp, Href, Hout. cbn [bind]. rewrite map_app.
    split; [reflexivity|]. split; [reflexivity|].
    constructor; [|exact Hall]. exists k, F, picked.
    rewrite get_labels_gather, gather_single. cbn [snd]. auto 10.
Qed.

Lemma selector_follows_rounded_reference_witness :
  unit_ratio example_ratio = true /\
  forallb aligned [example_gate; empty_gate] = true /\
  forallb keeps_labels [example_gate; empty_gate] = true /\
  exists out,
    reference_selection rounded_floor_count stable_argsort example_ratio
      [example_gate; empty_gate] = Ok out /\
    get_labels_for_equal_pruning stable_argsort [example_gate; empty_gate]
      example_ratio = Ok (map PyInt out).
Proof.
  split; [vm_compute; reflexivity|]. split; [vm_compute; reflexivity|].
  split; [vm_compute; reflexivity|].
  destruct (selector_follows_rounded_reference stable_argsort example_ratio
              [example_gate; empty_gate] stable_argsort_contract)
    as (out & Href & Hout & _); try (vm_compute; reflexivity).
  exists out. split; assumption.
Defined.

(** C1, as stated, fails.  With three scores and the ratio [1/3] (the
    double [0.3333333333333333]) the reference algorithm with
    [k = floor(3 * r) = 0] selects nothing, and the cell selects the label
    11: the product is rounded to [1.0] before the floor is taken.  And
    with the labels [-1, 2^63 + 1, 5] the array holds doubles: the cell
    returns the double [9223372036854775808.0] where the reference
    algorithm returns the label [2^63 + 1]. *)
Lemma selector_reference_counterexample :
  let r := Float64.ratio 1 3 in
  let cs := [Float64.ratio 5 10; Float64.ratio 1 10; Float64.ratio 9 10] in
  let g : gate := ("features.0"%string, [10; 11; 12]%Z, cs) in
  let g' : gate := ("features.0"%string, [-1; 2 ^ 63 + 1; 5]%Z, cs) in
  (unit_ratio r = true /\ aligned g = true /\ keeps_labels g = true /\
   reference_selection exact_floor_count stable_argsort r [g] = Ok [] /\
   get_labels_for_equal_pruning stable_argsort [g] r = Ok [PyInt 11]) /\
  (aligned g' = true /\ keeps_labels g' = false /\
   reference_selection rounded_floor_count stable_argsort r [g']
   = Ok [2 ^ 63 + 1]%Z /\
   get_labels_for_equal_pruning stable_argsort [g'] r
   = Ok [PyFloat (S754_finite false 4503599627370496 11)] /\
   S754_finite false 4503599627370496 11
   = binary_normalize Float64.prec Float64.emax (2 ^ 63) 0 false).
Proof.
  vm_compute. repeat split; reflexivity.
Qed.

(** C2, as amended.  For a ratio in (0,1) the number of labels picked from
    a tensor with [n] scores is the floor of the double [n * r], the
    exact product rounded to the nearest double.  It is the floor of the
    exact product or that floor plus one, and at most [n]. *)
Theorem count_is_floor_of_rounded_product (argsort : list float -> list nat)
    (r : float) (name : string) (ls : list Z) (cs : list float) :
  argsort_contract argsort ->
  unit_ratio r = true ->
  aligned (name, ls, cs) = true ->
  exists x picked F,
    Float64.int_mul (Z.of_nat (length cs)) r = Ok x /\
    get_labels_for_equal_pruning argsort [(name, ls, cs)] r = Ok picked /\
    Float64.floor x = Ok (Z.of_nat (length picked)) /\
    exact_floor_count (length cs) r = Ok F /\
    (F <= Z.of_nat (length picked) <= F + 1)%Z /\
    length picked <= length cs.
Proof.
  intros Hsort Hr Hal.
  destruct (pick_rounded argsort r name ls cs Hsort Hr Hal)
    as (k & F & picked & Hk & HF & HkF & Hkn & Hp & _ & Hl).
  apply aligned_true in Hal as [Hlen Hn].
  destruct (unit_ratio_counts (length cs) r ltac:(lia) Hr)
    as (k' & _ & Hc & Hf & _).
  assert (k' = k) as ->
    by (rewrite (count_rounded (length cs) r ltac:(lia) Hr) in Hc; congruence).
  destruct (Float64.int_mul (Z.of_nat (length cs)) r) as [x|e] eqn:Hx;
    [|discriminate].
  cbn [bind] in Hf.
  exists x, picked, F. rewrite get_labels_gather, gather_single, Hl.
  repeat split; try assumption; lia.
Qed.

Lemma count_is_floor_of_rounded_product_witness :
  unit_ratio example_ratio = true /\
  aligned example_gate = true /\
  exists x picked F,
    Float64.int_mul 4 example_ratio = Ok x /\
    get_labels_for_equal_pruning stable_argsort [example_gate] example_ratio
    = Ok picked /\
    Float64.floor x = Ok (Z.of_nat (length picked)) /\
    exact_floor_count 4 example_ratio = Ok F /\
    (F <= Z.of_nat (length picked) <= F + 1)%Z /\
    length picked <= 4.
Proof.
  split; [vm_compute; reflexivity|]. split; [vm_compute; reflexivity|].
  apply (count_is_floor_of_rounded_product stable_argsort example_ratio
           "features.0"%string [10; 11; 12; 13]%Z example_criteria
           stable_argsort_contract);
    vm_compute; reflexivity.
Defined.

(** C2, as stated, fails.  With three scores and the ratio [1/3] (the
    double [0.3333333333333333], which is below one third) the exact
    product is below 1 and its floor is 0, but the double product rounds
    to [1.0] and one label is picked. *)
Lemma count_exact_floor_counterexample :
  let r := Float64.ratio 1 3 in
  let cs := [Float64.ratio 5 10; Float64.ratio 1 10; Float64.ratio 9 10] in
  let g : gate := ("features.0"%string, [10; 11; 12]%Z, cs) in
  unit_ratio r = true /\ aligned g = true /\
  r = S754_finite false 6004799503160661 (-54) /\
  get_labels_for_equal_pruning stable_argsort [g] r = Ok [PyInt 11] /\
  exact_floor_count (length cs) r = Ok 0%Z /\
  exact_floor_count (length cs) r <> Ok (Z.of_nat (length [PyInt 11])).
Proof.
  vm_compute. repeat split; try reflexivity. discriminate.
Qed.

(** C3, as amended.  Within a tensor, the selected labels are the labels
    at the selected positions, and the score at a selected position is
    less than or equal to the score at any position that is not selected,
    unless the latter score is NaN: the sort puts NaN after every number.
    When the labels of the tensor are pairwise distinct in the array,
    this reads on labels: the score of a selected label is less than or
    equal to the score of a label that is not selected, unless the latter
    score is NaN. *)
Theorem selected_labels_have_lowest_scores
    (argsort : list float -> list nat) (r : float) (name : string)
    (ls : list Z) (cs : list float) (picked : list pyvalue) :
  argsort_contract argsort ->
  get_labels_for_equal_pruning argsort [(name, ls, cs)] r = Ok picked ->
  exists idx,
    NoDup idx /\
    Forall2 (fun i l => i < length cs /\
                        nth_error (np_array_of_ints ls) i = Some l)
      idx picked /\
    (forall i j,
        In i idx -> j < length cs -> ~ In j idx ->
        Float64.leb (item cs i) (item cs j) = true \/
        Float64.is_nan (item cs j) = true) /\
    (NoDup (np_array_of_ints ls) ->
     forall i j li lj,
       nth_error (np_array_of_ints ls) i = Some li ->
       nth_error (np_array_of_ints ls) j = Some lj ->
       j < length cs ->
       In li picked -> ~ In lj picked ->
       Float64.leb (item cs i) (item cs j) = true \/
       Float64.is_nan (item cs j) = true).
Proof.
  intros Hsort Hout.
  rewrite get_labels_gather, gather_single in Hout.
  apply pick_inv in Hout as (k & _ & Ht).
  set (idx := slice_stop (argsort cs) k) in *.
  assert (Hnd : NoDup idx)
    by (apply slice_stop_NoDup, argsort_NoDup, Hsort).
  assert (Hrange : Forall (fun i => i < length cs) idx).
  { apply Forall_forall. intros i Hi. apply slice_stop_incl in Hi.
    exact (argsort_in_range argsort cs i Hsort Hi). }
  pose proof (take_inv _ _ _ Ht) as Hall.
  assert (Hpos : forall i j,
             In i idx -> j < length cs -> ~ In j idx ->
             Float64.leb (item cs i) (item cs j) = true \/
             Float64.is_nan (item cs j) = true).
  { intros i j Hi Hj Hnj. unfold idx in Hi, Hnj.
    destruct (slice_stop_firstn (argsort cs) k) as [n Hn].
    rewrite Hn in Hi, Hnj.
    destruct (Hsort cs) as [Hperm Hasc].
    assert (Hjin : In j (skipn n (argsort cs))).
    { assert (In j (argsort cs)) as Hin.
      { apply (Permutation_in _ (Permutation_sym Hperm)), in_seq. lia. }
      rewrite <- (firstn_skipn n) in Hin.
      apply in_app_or in Hin as [Hin|Hin]; [contradiction|exact Hin]. }
    rewrite <- (firstn_skipn n (argsort cs)) in Hasc.
    pose proof (ascending_app _ _ _ Hasc i j Hi Hjin) as Hle.
    rewrite np_le_spec in Hle. now apply orb_true_iff in Hle. }
  exists idx. split; [exact Hnd|]. split; [|split; [exact Hpos|]].
  - now apply Forall2_and_left.
  - intros Harr i j li lj Hi Hj Hjc Hli Hlj.
    apply Hpos; [|exact Hjc|].
    + destruct (Forall2_In_r _ _ _ _ Hall Hli) as (i' & Hi' & Hnth).
      assert (i' = i) as <-; [|exact Hi'].
      apply (proj1 (NoDup_nth_error _) Harr); [|congruence].
      apply nth_error_Some. congruence.
    + intros Hjin.
      destruct (Forall2_In_l _ _ _ _ Hall Hjin) as (l & Hl & Hnth).
      apply Hlj. congruence.
Qed.

Lemma selected_labels_have_lowest_scores_witness :
  exists idx,
    NoDup idx /\
    Forall2 (fun i l => i < length example_criteria /\
                        nth_error (np_array_of_ints [10; 11; 12; 13]%Z) i
                        = Some l)
      idx [PyInt 11; PyInt 13] /\
    (forall i j,
        In i idx -> j < length example_criteria -> ~ In j idx ->
        Float64.leb (item example_criteria i) (item example_criteria j) = true
        \/ Float64.is_nan (item example_criteria j) = true) /\
    (NoDup (np_array_of_ints [10; 11; 12; 13]%Z) ->
     forall i j li lj,
       nth_error (np_array_of_ints [10; 11; 12; 13]%Z) i = Some li ->
       nth_error (np_array_of_ints [10; 11; 12; 13]%Z) j = Some lj ->
       j < length example_criteria ->
       In li [PyInt 11; PyInt 13] -> ~ In lj [PyInt 11; PyInt 13] ->
       Float64.leb (item example_criteria i) (item example_criteria j) = true
       \/ Float64.is_nan (item example_criteria j) = true).
Proof.
  apply (selected_labels_have_lowest_scores stable_argsort example_ratio
           "features.0"%string [10; 11; 12; 13]%Z example_criteria
           [PyInt 11; PyInt 13] stable_argsort_contract).
  vm_compute. reflexivity.
Defined.

(** C3, as stated, fails on a NaN score: with [criteria = [nan, 1.0]],
    [labels = [10, 11]] and ratio 0.5 the label 11 is selected, the label
    10 is not, and for their scores [1.0 <= nan] is false.  It also fails
    when a label occurs twice: with [criteria = [0.1, 0.9, 0.5]],
    [labels = [7, 7, 8]] and ratio 0.5 the label 7 is selected, the label
    8 is not, and the score 0.9 of the label 7 is above the score 0.5 of
    the label 8. *)
Lemma selected_labels_score_counterexample :
  (let cs := [S754_nan; Float64.one] in
   let ls := [10; 11]%Z in
   let picked := [PyInt 11] in
   get_labels_for_equal_pruning stable_argsort
     [("features.0"%string, ls, cs)] example_ratio = Ok picked /\
   nth_error (np_array_of_ints ls) 1 = Some (PyInt 11) /\
   nth_error (np_array_of_ints ls) 0 = Some (PyInt 10) /\
   In (PyInt 11) picked /\ ~ In (PyInt 10) picked /\
   Float64.leb (item cs 1) (item cs 0) = false) /\
  (let cs := [Float64.ratio 1 10; Float64.ratio 9 10; Float64.ratio 5 10] in
   let ls := [7; 7; 8]%Z in
   let picked := [PyInt 7] in
   get_labels_for_equal_pruning stable_argsort
     [("features.0"%string, ls, cs)] example_ratio = Ok picked /\
   nth_error (np_array_of_ints ls) 1 = Some (PyInt 7) /\
   nth_error (np_array_of_ints ls) 2 = Some (PyInt 8) /\
   In (PyInt 7) picked /\ ~ In (PyInt 8) picked /\
   Float64.leb (item cs 1) (item cs 2) = false /\
   Float64.is_nan (item cs 2) = false).
Proof.
  split; cbv zeta.
  - split; [vm_compute; reflexivity|]. split; [reflexivity|].
    split; [reflexivity|]. split; [simpl; auto|].
    split; [|vm_compute; reflexivity].
    simpl. intros [H|[]]. discriminate H.
  - split; [vm_compute; reflexivity|]. split; [reflexivity|].
    split; [reflexivity|]. split; [simpl; auto|].
    split; [|split; vm_compute; reflexivity].
    simpl. intros [H|[]]. discriminate H.
Qed.

(** C4, as amended.  The cell validates nothing by itself.  It raises
    exactly when, for some tensor, [int(len(criteria) * pruning_ratio)]
    raises (the product is NaN or infinite) or one of the chosen sort
    positions lies beyond the end of the label sequence; any other ratio
    and any longer label sequence is accepted. *)
Theorem rejection_only_from_conversion_or_lookup
    (argsort : list float -> list nat) (gs : list gate) (r : float) :
  (exists e, get_labels_for_equal_pruning argsort gs r = Raise e) <->
  Exists (fun g : gate =>
            let '(_, ls, cs) := g in
            (exists e, count (length cs) r = Raise e) \/
            (exists k i, count (length cs) r = Ok k /\
                         In i (slice_stop (argsort cs) k) /\
                         length ls <= i)) gs.
Proof.
  rewrite get_labels_gather.
  induction gs as [|[[name ls] cs] gs IH]; simpl.
  - split; [intros [e He]; discriminate He|intros H; inversion H].
  - unfold pick. rewrite Exists_cons.
    destruct (count (length cs) r) as [k|e] eqn:Hc; simpl.
    + destruct (take (np_array_of_ints ls) (slice_stop (argsort cs) k))
        as [p|e] eqn:Ht; simpl.
      * destruct (gather argsort r gs) as [ps|e] eqn:Hg; simpl.
        -- split; [intros [e He]; discriminate He|].
           intros [[[e He]|(k' & i & Hk & Hi & Hlen)]|Hex].
           ++ discriminate He.
           ++ injection Hk as <-.
              assert (Forall (fun i => i < length ls)
                        (slice_stop (argsort cs) k)) as Hall.
              { apply take_inv in Ht. clear -Ht.
                induction Ht as [|j v idx vs Hj _ IHt]; constructor; auto.
                rewrite <- (np_array_of_ints_length ls).
                apply nth_error_Some. congruence. }
              rewrite Forall_forall in Hall. specialize (Hall i Hi). lia.
           ++ apply IH in Hex as [e He]. discriminate He.
        -- split; [intros _|intros _; eauto].
           right. apply IH. eauto.
      * split; [intros _|intros _; eauto].
        left. right. destruct (take_raise _ _ _ Ht) as (_ & i & Hi & Hlen).
        rewrite np_array_of_ints_length in Hlen.
        exists k, i. auto.
    + split; [intros _|intros _; eauto]. left. left. eauto.
Qed.

(** C4, as stated, fails: a ratio of 1.5 is accepted (and selects every
    channel), and so is a label sequence longer than the criteria. *)
Lemma no_validation_counterexample :
  let r := Float64.ratio 3 2 in
  let g : gate :=
    ("features.0"%string, [10; 11]%Z, [Float64.ratio 5 10; Float64.ratio 1 10]) in
  let g' : gate :=
    ("features.0"%string, [10; 11; 12]%Z,
     [Float64.ratio 5 10; Float64.ratio 1 10]) in
  unit_ratio r = false /\ Float64.ltb r Float64.one = false /\
  get_labels_for_equal_pruning stable_argsort [g] r
  = Ok [PyInt 11; PyInt 10] /\
  aligned g' = false /\
  get_labels_for_equal_pruning stable_argsort [g'] example_ratio
  = Ok [PyInt 11].
Proof.
  vm_compute. repeat split; reflexivity.
Qed.

(** C5.  The cell is a function of its two inputs: whatever else the
    namespace holds, equal [pruning_info] and [pruning_ratio] give equal
    outcomes (the same list, hence the same set of labels, or the same
    exception), and the cell leaves both inputs as they were. *)
Theorem cell_is_function_of_inputs (argsort : list float -> list nat)
    (ns1 ns2 : namespace) :
  pruning_info ns1 = pruning_info ns2 ->
  pruning_ratio ns1 = pruning_ratio ns2 ->
  selection (run_cell argsort ns1) = selection (run_cell argsort ns2) /\
  (forall out1 out2,
     selection (run_cell argsort ns1) = Ok out1 ->
     selection (run_cell argsort ns2) = Ok out2 ->
     forall l, In l out1 <-> In l out2) /\
  pruning_info (final (run_cell argsort ns1)) = pruning_info ns1 /\
  pruning_ratio (final (run_cell argsort ns1)) = pruning_ratio ns1.
Proof.
  intros Hi Hr.
  assert (Heq : selection (run_cell argsort ns1)
                = selection (run_cell argsort ns2))
    by (rewrite !run_cell_selection; congruence).
  split; [exact Heq|]. split.
  - intros out1 out2 H1 H2 l. rewrite Heq, H2 in H1. injection H1 as <-.
    reflexivity.
  - unfold run_cell.
    exact (for_loop_frame argsort (pruning_info ns1)
             (set_all_channel_indices_to_prune [] ns1)).
Qed.

Lemma cell_is_function_of_inputs_witness :
  let ns1 := namespace_of [example_gate] example_ratio in
  let ns2 := set_all_channel_indices_to_prune [PyInt 7; PyInt 8; PyInt 9]
               (set_prune_channels_num 5
                  (set_target empty_gate ns1)) in
  pruning_info ns1 = pruning_info ns2 /\
  pruning_ratio ns1 = pruning_ratio ns2 /\
  selection (run_cell stable_argsort ns1)
  = selection (run_cell stable_argsort ns2).
Proof.
  split; [reflexivity|]. split; [reflexivity|].
  apply (cell_is_function_of_inputs stable_argsort
           (namespace_of [example_gate] example_ratio)
           (set_all_channel_indices_to_prune [PyInt 7; PyInt 8; PyInt 9]
              (set_prune_channels_num 5
                 (set_target empty_gate
                    (namespace_of [example_gate] example_ratio)))));
    reflexivity.
Defined.

(** C6, as amended.  A tensor for which the floor of the double product
    [n * r] is 0 contributes no label.  For a ratio in (0,1) this is the
    case exactly when the exact product is below [1 - 2^-54]; when
    [floor(n * r)] is 0 the tensor contributes at most one label.  A zero
    ratio and an empty criteria sequence select nothing.  Whatever the
    ratio (so for every ratio below 1), one iteration appends at most [n]
    labels. *)
Theorem nothing_selected_when_count_is_zero
    (argsort : list float -> list nat) :
  argsort_contract argsort ->
  (forall r name ls cs,
      unit_ratio r = true ->
      (Z.of_nat (length cs) <= Float64.exact_int_bound)%Z ->
      (rounded_floor_count (length cs) r = Ok 0%Z ->
       get_labels_for_equal_pruning argsort [(name, ls, cs)] r = Ok []) /\
      (get_labels_for_equal_pruning argsort [(name, ls, cs)] r = Ok [] <->
       below_last_double (length cs) r = true) /\
      (length cs <= length ls ->
       exact_floor_count (length cs) r = Ok 0%Z ->
       exists picked,
         get_labels_for_equal_pruning argsort [(name, ls, cs)] r = Ok picked
         /\ length picked <= 1)) /\
  (forall s name ls cs,
      (Z.of_nat (length cs) <= Float64.exact_int_bound)%Z ->
      exact_floor_count (length cs) (S754_zero s) = Ok 0%Z /\
      rounded_floor_count (length cs) (S754_zero s) = Ok 0%Z /\
      get_labels_for_equal_pruning argsort [(name, ls, cs)] (S754_zero s)
      = Ok []) /\
  (forall r name ls,
      Float64.is_finite r = true ->
      exact_floor_count 0 r = Ok 0%Z /\
      get_labels_for_equal_pruning argsort [(name, ls, [])] r = Ok []) /\
  (forall g ns,
      exists picked,
        all_channel_indices_to_prune (final (loop_body argsort g ns))
        = all_channel_indices_to_prune ns ++ picked /\
        length picked <= length (snd g)).
Proof.
  intros Hsort. split; [|split; [|split]].
  - intros r name ls cs Hr Hn. unfold Float64.exact_int_bound in Hn.
    rewrite get_labels_gather, gather_single.
    destruct (unit_ratio_counts (length cs) r Hn Hr)
      as (k & F & Hc & _ & Hk & HF & HkF).
    split; [|split].
    + intros H0. apply pick_zero.
      now rewrite (count_rounded (length cs) r Hn Hr).
    + rewrite <- (count_zero_iff (length cs) r Hn Hr). split.
      * intros Hp. apply pick_inv in Hp as (k' & Hc' & Ht).
        assert (k' = k) as -> by congruence.
        apply take_length in Ht. simpl in Ht.
        rewrite slice_stop_nonneg, length_firstn,
          (argsort_length argsort cs Hsort) in Ht by lia.
        rewrite Hc. f_equal. lia.
      * apply pick_zero.
    + intros Hlen H0.
      destruct (pick_unit_ratio argsort r ls cs Hsort Hr Hlen Hn)
        as (k' & picked & Hc' & _ & _ & Hp & _ & Hl).
      assert (k' = k) as -> by congruence.
      assert (F = 0%Z) as -> by congruence.
      exists picked. split; [exact Hp|lia].
  - intros s name ls cs Hn. unfold Float64.exact_int_bound in Hn.
    split; [reflexivity|]. split; [reflexivity|].
    rewrite get_labels_gather, gather_single. apply pick_zero.
    now apply count_zero_ratio.
  - intros r name ls Hfin. split.
    + destruct r as [s|s| |s m e]; try discriminate Hfin; [reflexivity|].
      unfold exact_floor_count. cbn [length Z.of_nat].
      now rewrite Z.mul_0_l, Z.shiftl_0_l.
    + rewrite get_labels_gather, gather_single.
      apply (pick_zero argsort r ls []). now apply count_empty.
  - intros [[name ls] cs] ns. rewrite loop_body_spec. simpl.
    destruct (count (length cs) (pruning_ratio ns)) as [k|e]; simpl;
      [|exists []; rewrite app_nil_r; simpl; split; [reflexivity|lia]].
    destruct (take (np_array_of_ints ls) (slice_stop (argsort cs) k))
      as [picked|e] eqn:Ht; simpl;
      [|exists []; rewrite app_nil_r; simpl; split; [reflexivity|lia]].
    exists picked. split; [reflexivity|].
    rewrite (take_length _ _ _ Ht).
    rewrite <- (argsort_length argsort cs Hsort). apply slice_stop_length_le.
Qed.

Lemma nothing_selected_when_count_is_zero_witness :
  unit_ratio (Float64.ratio 1 5) = true /\
  rounded_floor_count (length (snd example_gate)) (Float64.ratio 1 5)
  = Ok 0%Z /\
  get_labels_for_equal_pruning stable_argsort [example_gate]
    (Float64.ratio 1 5) = Ok [] /\
  get_labels_for_equal_pruning stable_argsort [example_gate] (S754_zero false)
  = Ok [] /\
  Float64.is_finite example_ratio = true /\
  get_labels_for_equal_pruning stable_argsort [empty_gate] example_ratio
  = Ok [].
Proof.
  pose proof (nothing_selected_when_count_is_zero stable_argsort
                stable_argsort_contract) as (Hunit & Hzero & Hempty & _).
  split; [vm_compute; reflexivity|].
  split; [vm_compute; reflexivity|].
  split.
  { destruct (Hunit (Float64.ratio 1 5) "features.0"%string
                [10; 11; 12; 13]%Z example_criteria) as (H0 & _);
      [vm_compute; reflexivity|vm_compute; discriminate|].
    apply H0. vm_compute. reflexivity. }
  split; [apply Hzero; vm_compute; discriminate|].
  split; [reflexivity|].
  apply Hempty. reflexivity.
Defined.

(** C6, as stated, fails.  With three scores and the ratio [1/3] (the
    double [0.3333333333333333]) [k = floor(3 * r)] is 0, the exact
    product being [1 - 2^-54], and the cell picks the label 11. *)
Lemma zero_floor_counterexample :
  let r := Float64.ratio 1 3 in
  let cs := [Float64.ratio 5 10; Float64.ratio 1 10; Float64.ratio 9 10] in
  let g : gate := ("features.0"%string, [10; 11; 12]%Z, cs) in
  unit_ratio r = true /\ aligned g = true /\
  exact_floor_count (length cs) r = Ok 0%Z /\
  below_last_double (length cs) r = false /\
  rounded_floor_count (length cs) r = Ok 1%Z /\
  get_labels_for_equal_pruning stable_argsort [g] r = Ok [PyInt 11].
Proof.
  vm_compute. repeat split; reflexivity.
Qed.

(** C7.  Selection is independent per tensor: the selector maps a
    concatenation of inputs to the concatenation of the outputs, the
    output is the concatenation of what each triple yields when it is the
    only input, and a triple's yield depends on its labels, its criteria
    and the ratio, not on its name.  An exception of any triple is the
    outcome of the whole. *)
Theorem selection_is_per_tensor (argsort : list float -> list nat)
    (r : float) :
  (forall gs1 gs2,
      get_labels_for_equal_pruning argsort (gs1 ++ gs2) r
      = (o1 <- get_labels_for_equal_pruning argsort gs1 r ;;
         o2 <- get_labels_for_equal_pruning argsort gs2 r ;;
         Ok (o1 ++ o2))) /\
  (forall gs,
      get_labels_for_equal_pruning argsort gs r
      = collect (map (fun g => get_labels_for_equal_pruning argsort [g] r) gs))
  /\
  (forall name name' ls cs,
      get_labels_for_equal_pruning argsort [(name, ls, cs)] r
      = get_labels_for_equal_pruning argsort [(name', ls, cs)] r).
Proof.
  repeat split.
  - intros gs1 gs2. rewrite !get_labels_gather. apply gather_app.
  - intros gs. rewrite get_labels_gather.
    induction gs as [|[[name ls] cs] gs IH]; [reflexivity|].
    simpl. rewrite <- IH, get_labels_single. reflexivity.
  - intros name name' ls cs. now rewrite !get_labels_single.
Qed.

(** C8.  On [criteria = [0.5, 0.1, 0.9, 0.3]], [labels = [10, 11, 12, 13]],
    [ratio = 0.5] the selector returns the labels 11 and 13, and nothing
    else; on [criteria = []], [labels = []], [ratio = 0.5] it returns no
    label. *)
Theorem specification_examples (argsort : list float -> list nat) :
  argsort_contract argsort ->
  get_labels_for_equal_pruning argsort [example_gate] example_ratio
  = Ok [PyInt 11; PyInt 13] /\
  get_labels_for_equal_pruning argsort [empty_gate] example_ratio = Ok [].
Proof.
  intros Hsort. split.
  - rewrite get_labels_single. unfold pick. simpl snd.
    rewrite (example_argsort argsort Hsort). vm_compute. reflexivity.
  - rewrite get_labels_single. apply pick_zero. vm_compute. reflexivity.
Qed.

Lemma specification_examples_witness :
  get_labels_for_equal_pruning stable_argsort [example_gate] example_ratio
  = Ok [PyInt 11; PyInt 13] /\
  get_labels_for_equal_pruning stable_argsort [empty_gate] example_ratio
  = Ok [].
Proof.
  apply (specification_examples stable_argsort stable_argsort_contract).
Defined.

(** C9.  When the label sequence is at least as long as the criteria
    sequence, every position the cell reads the labels at comes from the
    argsort of the criteria, is below the length of the criteria, and holds
    a label: the lookup succeeds, and the iteration never raises
    [IndexError]. *)
Theorem label_lookup_in_range (argsort : list float -> list nat)
    (ns : namespace) (idx : list nat) :
  argsort_contract argsort ->
  length (criteria ns) <= length (labels ns) ->
  index_for_pruning_expr argsort ns = Ok idx ->
  Forall (fun i => In i (argsort (criteria ns)) /\
                   i < length (criteria ns) /\
                   nth_error (labels ns) i <> None /\
                   nth_error (np_array_of_ints (labels ns)) i <> None) idx /\
  (exists picked, take (np_array_of_ints (labels ns)) idx = Ok picked) /\
  (forall name ns0 ns',
      loop_body argsort (name, labels ns, criteria ns) ns0
      <> Raised IndexError ns').
Proof.
  intros Hsort Hlen Hidx. unfold index_for_pruning_expr in Hidx.
  injection Hidx as <-.
  assert (Hall : forall k i,
             In i (slice_stop (argsort (criteria ns)) k) ->
             In i (argsort (criteria ns)) /\ i < length (criteria ns) /\
             i < length (labels ns)).
  { intros k i Hi. apply slice_stop_incl in Hi.
    pose proof (argsort_in_range argsort _ i Hsort Hi). repeat split; [auto|lia|lia]. }
  split; [|split].
  - apply Forall_forall. intros i Hi.
    destruct (Hall _ _ Hi) as (Hin & Hc & Hl).
    repeat split; auto; apply nth_error_Some;
      [|rewrite np_array_of_ints_length]; exact Hl.
  - destruct (take_ok (np_array_of_ints (labels ns))
                (slice_stop (argsort (criteria ns)) (prune_channels_num ns)))
      as (picked & Ht & _); [|eauto].
    apply Forall_forall. intros i Hi. rewrite np_array_of_ints_length.
    now destruct (Hall _ _ Hi) as (_ & _ & Hl).
  - intros name ns0 ns'. rewrite loop_body_spec. simpl.
    destruct (count (length (criteria ns)) (pruning_ratio ns0)) as [k|e] eqn:Hc.
    + destruct (take_ok (np_array_of_ints (labels ns))
                  (slice_stop (argsort (criteria ns)) k))
        as (picked & Ht & _).
      { apply Forall_forall. intros i Hi. rewrite np_array_of_ints_length.
        now destruct (Hall _ _ Hi) as (_ & _ & Hl). }
      rewrite Ht. discriminate.
    + intros H. injection H as -> _. unfold count in Hc.
      destruct (Float64.int_mul _ _) as [x|e] eqn:Hx; simpl in Hc.
      * destruct x as [s|s| |s m e]; simpl in Hc; discriminate Hc.
      * injection Hc as ->.
        unfold Float64.int_mul, Float64.of_int in Hx.
        destruct (binary_normalize _ _ _ _ _); simpl in Hx; discriminate Hx.
Qed.

Lemma label_lookup_in_range_witness :
  let ns := set_prune_channels_num 2
              (set_target example_gate
                 (namespace_of [example_gate] example_ratio)) in
  length (criteria ns) <= length (labels ns) /\
  index_for_pruning_expr stable_argsort ns = Ok [1; 3] /\
  exists picked, take (np_array_of_ints (labels ns)) [1; 3] = Ok picked.
Proof.
  split; [simpl; lia|]. split; [vm_compute; reflexivity|].
  apply (label_lookup_in_range stable_argsort
           (set_prune_channels_num 2
              (set_target example_gate
                 (namespace_of [example_gate] example_ratio)))
           [1; 3] stable_argsort_contract);
    [simpl; lia|vm_compute; reflexivity].
Defined.

(** C10, as amended.  The positions chosen within a tensor are pairwise
    distinct positions of the tensor.  For a ratio in (0,1) and
    equal-length sequences each tensor therefore contributes exactly [k]
    labels, [k] the floor of the double product [n * r], which is
    [floor(n * r)] or that number plus one; the length of the output is
    the sum of these [k] over the tensors, which lies between the sum of
    the [floor(n_t * r)] and that sum plus the number of tensors. *)
Theorem chosen_positions_distinct (argsort : list float -> list nat)
    (r : float) (gs : list gate) :
  argsort_contract argsort ->
  unit_ratio r = true ->
  forallb aligned gs = true ->
  (forall ns idx,
      index_for_pruning_expr argsort ns = Ok idx ->
      NoDup idx /\ Forall (fun i => i < length (criteria ns)) idx) /\
  Forall (fun g =>
            exists k F picked,
              rounded_floor_count (length (snd g)) r = Ok k /\
              exact_floor_count (length (snd g)) r = Ok F /\
              (F <= k <= F + 1)%Z /\
              get_labels_for_equal_pruning argsort [g] r = Ok picked /\
              Z.of_nat (length picked) = k) gs /\
  exists out total exact_total,
    get_labels_for_equal_pruning argsort gs r = Ok out /\
    total_count rounded_floor_count r gs = Ok total /\
    Z.of_nat (length out) = total /\
    total_count exact_floor_count r gs = Ok exact_total /\
    (exact_total <= total <= exact_total + Z.of_nat (length gs))%Z.
Proof.
  intros Hsort Hr Hal. split; [|split].
  - intros ns idx Hidx. unfold index_for_pruning_expr in Hidx.
    injection Hidx as <-. split.
    + apply slice_stop_NoDup. now apply argsort_NoDup.
    + apply Forall_forall. intros i Hi. apply slice_stop_incl in Hi.
      exact (argsort_in_range argsort _ i Hsort Hi).
  - apply Forall_forall. intros [[name ls] cs] Hg.
    rewrite forallb_forall in Hal. specialize (Hal _ Hg).
    destruct (pick_rounded argsort r name ls cs Hsort Hr Hal)
      as (k & F & picked & Hk & HF & HkF & _ & Hp & _ & Hl).
    exists k, F, picked. rewrite get_labels_single. cbn [snd fst]. auto 10.
  - rewrite get_labels_gather. now apply gather_total_count.
Qed.

Lemma chosen_positions_distinct_witness :
  unit_ratio example_ratio = true /\
  forallb aligned [example_gate; empty_gate] = true /\
  exists out total exact_total,
    get_labels_for_equal_pruning stable_argsort [example_gate; empty_gate]
      example_ratio = Ok out /\
    total_count rounded_floor_count example_ratio [example_gate; empty_gate]
    = Ok total /\
    Z.of_nat (length out) = total /\
    total_count exact_floor_count example_ratio [example_gate; empty_gate]
    = Ok exact_total /\
    (exact_total <= total <= exact_total + 2)%Z.
Proof.
  split; [vm_compute; reflexivity|]. split; [vm_compute; reflexivity|].
  apply (chosen_positions_distinct stable_argsort example_ratio
           [example_gate; empty_gate] stable_argsort_contract);
    vm_compute; reflexivity.
Defined.

(** C10, as stated, fails.  With one tensor of three scores and the ratio
    [1/3] (the double [0.3333333333333333]) the sum of the
    [floor(n_t * r)] is 0, and the output has one label. *)
Lemma output_length_counterexample :
  let r := Float64.ratio 1 3 in
  let cs := [Float64.ratio 5 10; Float64.ratio 1 10; Float64.ratio 9 10] in
  let g : gate := ("features.0"%string, [10; 11; 12]%Z, cs) in
  unit_ratio r = true /\ forallb aligned [g] = true /\
  total_count exact_floor_count r [g] = Ok 0%Z /\
  get_labels_for_equal_pruning stable_argsort [g] r = Ok [PyInt 11] /\
  Z.of_nat (length [PyInt 11]) = 1%Z.
Proof.
  vm_compute. repeat split; reflexivity.
Qed.

(** * Further properties of the cell *)

(** X1.  Selections are nested.  From one tensor, the labels selected
    with one ratio and the labels selected with another ratio are a
    prefix of one another, whatever the two ratios and whatever
    [np.argsort] returns; the smaller non-negative count gives the
    prefix. *)
Theorem selections_are_nested (argsort : list float -> list nat)
    (r1 r2 : float) (name : string) (ls : list Z) (cs : list float)
    (p1 p2 : list pyvalue) :
  get_labels_for_equal_pruning argsort [(name, ls, cs)] r1 = Ok p1 ->
  get_labels_for_equal_pruning argsort [(name, ls, cs)] r2 = Ok p2 ->
  ((exists t, p2 = p1 ++ t) \/ (exists t, p1 = p2 ++ t)) /\
  (forall k1 k2,
      count (length cs) r1 = Ok k1 -> count (length cs) r2 = Ok k2 ->
      (0 <= k1 <= k2)%Z -> exists t, p2 = p1 ++ t).
Proof.
  rewrite !get_labels_gather, !gather_single. intros H1 H2.
  apply pick_inv in H1 as (k1 & Hk1 & Ht1).
  apply pick_inv in H2 as (k2 & Hk2 & Ht2).
  split.
  - destruct (slice_stop_firstn (argsort cs) k1) as [n1 Hn1].
    destruct (slice_stop_firstn (argsort cs) k2) as [n2 Hn2].
    rewrite Hn1 in Ht1. rewrite Hn2 in Ht2.
    destruct (Nat.le_ge_cases n1 n2) as [Hn|Hn].
    + left. exact (take_prefix _ _ _ _ _ _ Hn Ht1 Ht2).
    + right. exact (take_prefix _ _ _ _ _ _ Hn Ht2 Ht1).
  - intros k1' k2' Hk1' Hk2' Hk.
    assert (k1' = k1) as -> by congruence.
    assert (k2' = k2) as -> by congruence.
    rewrite slice_stop_nonneg in Ht1, Ht2 by lia.
    apply (take_prefix _ _ (Z.to_nat k1) (Z.to_nat k2) _ _ ltac:(lia) Ht1 Ht2).
Qed.

Lemma selections_are_nested_witness :
  (exists t, [PyInt 11; PyInt 13] = [PyInt 11] ++ t) \/
  (exists t, [PyInt 11] = [PyInt 11; PyInt 13] ++ t).
Proof.
  apply (selections_are_nested stable_argsort (Float64.ratio 1 4)
           example_ratio "features.0"%string [10; 11; 12; 13]%Z
           example_criteria [PyInt 11] [PyInt 11; PyInt 13]);
    vm_compute; reflexivity.
Defined.

(** X2.  When the count reaches the length of the tensor, every channel
    of the tensor is selected: the labels picked are a rearrangement of
    the elements of [np.array(labels)], which are the labels themselves
    when the array holds them as they are.  This is what the ratio [1.0]
    does, for which the count is the length itself. *)
Theorem whole_tensor_selected_at_ratio_one
    (argsort : list float -> list nat) (name : string) (ls : list Z)
    (cs : list float) :
  argsort_contract argsort ->
  length ls = length cs ->
  (Z.of_nat (length cs) <= Float64.exact_int_bound)%Z ->
  (forall r k,
      count (length cs) r = Ok k -> (Z.of_nat (length cs) <= k)%Z ->
      exists picked,
        get_labels_for_equal_pruning argsort [(name, ls, cs)] r = Ok picked
        /\ Permutation picked (np_array_of_ints ls)
        /\ (exact_labels ls = true -> Permutation picked (map PyInt ls))) /\
  count (length cs) Float64.one = Ok (Z.of_nat (length cs)) /\
  exists picked,
    get_labels_for_equal_pruning argsort [(name, ls, cs)] Float64.one
    = Ok picked
    /\ Permutation picked (np_array_of_ints ls)
    /\ (exact_labels ls = true -> Permutation picked (map PyInt ls)).
Proof.
  intros Hsort Hlen HN. unfold Float64.exact_int_bound in HN.
  assert (Hall : forall r k,
    count (length cs) r = Ok k -> (Z.of_nat (length cs) <= k)%Z ->
    exists picked,
      get_labels_for_equal_pruning argsort [(name, ls, cs)] r = Ok picked
      /\ Permutation picked (np_array_of_ints ls)
      /\ (exact_labels ls = true -> Permutation picked (map PyInt ls))).
  { intros r k Hk Hnk. rewrite get_labels_gather, gather_single.
    unfold pick. rewrite Hk. simpl.
    rewrite slice_stop_nonneg by lia.
    rewrite firstn_all2
      by (rewrite (argsort_length argsort cs Hsort); lia).
    pose proof (np_array_of_ints_length ls) as Harr.
    assert (Hidx : Forall (fun i => i < length (np_array_of_ints ls))
                     (argsort cs)).
    { apply Forall_forall. intros i Hi.
      pose proof (argsort_in_range argsort cs i Hsort Hi). lia. }
    destruct (take_ok _ _ Hidx) as (picked & Ht & _ & _).
    exists picked. split; [exact Ht|].
    assert (Hperm' : Permutation picked (np_array_of_ints ls)).
    { rewrite (take_map (PyInt 0) _ _ _ Ht).
      destruct (Hsort cs) as [Hperm _]. rewrite <- Hlen, <- Harr in Hperm.
      apply (Permutation_map (fun i => nth i (np_array_of_ints ls) (PyInt 0)))
        in Hperm.
      now rewrite map_nth_seq in Hperm. }
    split; [exact Hperm'|].
    intros Hex. apply np_array_of_exact in Hex. now rewrite <- Hex. }
  split; [exact Hall|]. split; [now apply count_one|].
  apply (Hall Float64.one (Z.of_nat (length cs))); [now apply count_one|lia].
Qed.

Lemma whole_tensor_selected_at_ratio_one_witness :
  count (length example_criteria) Float64.one = Ok 4%Z /\
  exists picked,
    get_labels_for_equal_pruning stable_argsort [example_gate] Float64.one
    = Ok picked
    /\ Permutation picked (np_array_of_ints [10; 11; 12; 13]%Z)
    /\ (exact_labels [10; 11; 12; 13]%Z = true ->
        Permutation picked (map PyInt [10; 11; 12; 13]%Z)).
Proof.
  apply (whole_tensor_selected_at_ratio_one stable_argsort
           "features.0"%string [10; 11; 12; 13]%Z example_criteria
           stable_argsort_contract);
    [reflexivity|vm_compute; discriminate].
Defined.



(** X4.  Every element of the output is an element of [np.array(labels)]
    for one of the tensors, and thus one of that tensor's labels when the
    array holds them as they are: the cell selects among the labels it is
    given and never makes one up.  This holds for any ratio and any
    [np.argsort]. *)
Theorem selected_labels_are_input_labels
    (argsort : list float -> list nat) (r : float) (gs : list gate)
    (out : list pyvalue) (v : pyvalue) :
  get_labels_for_equal_pruning argsort gs r = Ok out ->
  In v out ->
  exists name ls cs,
    In (name, ls, cs) gs /\ In v (np_array_of_ints ls) /\
    (exact_labels ls = true -> exists l, v = PyInt l /\ In l ls).
Proof.
  rewrite get_labels_gather. intros Hout Hv.
  destruct (gather_In argsort r gs out v Hout Hv)
    as (name & ls & cs & Hg & Hin).
  exists name, ls, cs. split; [exact Hg|]. split; [exact Hin|].
  intros Hex. apply np_array_of_exact in Hex. rewrite Hex in Hin.
  apply in_map_iff in Hin as (l & <- & Hl). eauto.
Qed.

Lemma selected_labels_are_input_labels_witness :
  exists name ls cs,
    In (name, ls, cs) [example_gate] /\
    In (PyInt 13) (np_array_of_ints ls) /\
    (exact_labels ls = true -> exists l, PyInt 13 = PyInt l /\ In l ls).
Proof.
  apply (selected_labels_are_input_labels stable_argsort example_ratio
           [example_gate] [PyInt 11; PyInt 13] (PyInt 13));
    [vm_compute; reflexivity|simpl; auto].
Defined.

(** X5.  When the elements of the label arrays of all tensors are
    pairwise distinct, no element occurs twice in the output, for any
    ratio: a channel is never scheduled for pruning twice.  Pairwise
    distinct labels qualify when every array holds its labels as they
    are. *)
Theorem distinct_labels_selected_once
    (argsort : list float -> list nat) (r : float) (gs : list gate)
    (out : list pyvalue) :
  argsort_contract argsort ->
  get_labels_for_equal_pruning argsort gs r = Ok out ->
  (NoDup (concat (map (fun g : gate => np_array_of_ints (snd (fst g))) gs)) ->
   NoDup out) /\
  (forallb keeps_labels gs = true ->
   NoDup (concat (map (fun g : gate => snd (fst g)) gs)) ->
   NoDup out).
Proof.
  intros Hsort Hout. rewrite get_labels_gather in Hout.
  assert (Harr : NoDup (concat (map (fun g : gate =>
                                       np_array_of_ints (snd (fst g))) gs)) ->
                 NoDup out)
    by (intros Hnd; exact (gather_NoDup argsort r gs out Hsort Hnd Hout)).
  split; [exact Harr|]. intros Hex Hnd. apply Harr.
  assert (Heq : concat (map (fun g : gate => np_array_of_ints (snd (fst g)))
                          gs)
                = map PyInt (concat (map (fun g : gate => snd (fst g)) gs))).
  { clear -Hex. induction gs as [|[[name ls] cs] gs IH]; [reflexivity|].
    simpl in Hex. apply andb_true_iff in Hex as [He Hes].
    cbn [map concat fst snd]. rewrite map_app, (IH Hes).
    apply np_array_of_exact in He. now rewrite He. }
  rewrite Heq. now apply NoDup_map_PyInt.
Qed.

Lemma distinct_labels_selected_once_witness :
  (NoDup (concat (map (fun g : gate => np_array_of_ints (snd (fst g)))
                    [example_gate])) ->
   NoDup [PyInt 11; PyInt 13]) /\
  (forallb keeps_labels [example_gate] = true ->
   NoDup (concat (map (fun g : gate => snd (fst g)) [example_gate])) ->
   NoDup [PyInt 11; PyInt 13]).
Proof.
  apply (distinct_labels_selected_once stable_argsort example_ratio
           [example_gate] [PyInt 11; PyInt 13] stable_argsort_contract).
  vm_compute. reflexivity.
Defined.

(** X6.  The order in which the tensors are iterated only rearranges the
    output: the same tensors in another order give the same labels in
    another order. *)
Theorem tensor_order_only_permutes_output
    (argsort : list float -> list nat) (r : float) (gs gs' : list gate)
    (out : list pyvalue) :
  Permutation gs gs' ->
  get_labels_for_equal_pruning argsort gs r = Ok out ->
  exists out',
    get_labels_for_equal_pruning argsort gs' r = Ok out' /\
    Permutation out out'.
Proof.
  rewrite !get_labels_gather. intros Hp. now apply gather_perm.
Qed.

Lemma tensor_order_only_permutes_output_witness :
  exists out',
    get_labels_for_equal_pruning stable_argsort
      [("features.2"%string, [20; 21]%Z,
        [Float64.ratio 3 10; Float64.ratio 2 10]); example_gate]
      example_ratio = Ok out' /\
    Permutation [PyInt 11; PyInt 13; PyInt 21] out'.
Proof.
  apply (tensor_order_only_permutes_output stable_argsort example_ratio
           [example_gate;
            ("features.2"%string, [20; 21]%Z,
             [Float64.ratio 3 10; Float64.ratio 2 10])]);
    [apply perm_swap|vm_compute; reflexivity].
Defined.

(** X7.  An exception leaves the selections of the earlier tensors in
    place.  When the iteration of one tensor raises, the cell stops there:
    [all_channel_indices_to_prune] holds exactly what the tensors before
    it contributed, and the loop targets are bound to the failing
    triple. *)
Theorem failure_keeps_earlier_selections
    (argsort : list float -> list nat) (ns : namespace)
    (gs1 gs2 : list gate) (name : string) (ls : list Z) (cs : list float)
    (out1 : list pyvalue) (e : exn) :
  pruning_info ns = gs1 ++ (name, ls, cs) :: gs2 ->
  get_labels_for_equal_pruning argsort gs1 (pruning_ratio ns) = Ok out1 ->
  get_labels_for_equal_pruning argsort [(name, ls, cs)] (pruning_ratio ns)
  = Raise e ->
  exists ns',
    run_cell argsort ns = Raised e ns' /\
    all_channel_indices_to_prune ns' = out1 /\
    underscore ns' = name /\ labels ns' = ls /\ criteria ns' = cs.
Proof.
  rewrite !get_labels_gather, gather_single. intros Hinfo H1 Hp.
  unfold run_cell. rewrite Hinfo, for_loop_app.
  destruct (for_loop_ok argsort gs1 (set_all_channel_indices_to_prune [] ns)
              out1 H1) as (ns1 & -> & Hall & Hr & _).
  simpl in Hall, Hr. simpl andthen. rewrite loop_body_spec. simpl.
  unfold pick in Hp. rewrite Hr.
  destruct (count (length cs) (pruning_ratio ns)) as [k|e']; simpl in Hp.
  - rewrite Hp. simpl. eexists. split; [reflexivity|]. simpl. auto.
  - injection Hp as ->. eexists. split; [reflexivity|]. simpl. auto.
Qed.

Lemma failure_keeps_earlier_selections_witness :
  exists ns',
    run_cell stable_argsort
      (namespace_of
         [example_gate; ("features.3"%string, [30]%Z, example_criteria);
          empty_gate] example_ratio)
    = Raised IndexError ns' /\
    all_channel_indices_to_prune ns' = [PyInt 11; PyInt 13] /\
    underscore ns' = "features.3"%string /\ labels ns' = [30]%Z /\
    criteria ns' = example_criteria.
Proof.
  apply (failure_keeps_earlier_selections stable_argsort
           (namespace_of
              [example_gate; ("features.3"%string, [30]%Z, example_criteria);
               empty_gate] example_ratio)
           [example_gate] [empty_gate]);
    [reflexivity|vm_compute; reflexivity|vm_compute; reflexivity].
Defined.

(** X8.  Running the cell again in the namespace it left changes nothing:
    the first statement resets the accumulated list, so a second run does
    not append to the result of the first. *)
Theorem rerun_leaves_namespace_unchanged
    (argsort : list float -> list nat) (ns ns' : namespace) :
  run_cell argsort ns = Normal ns' ->
  run_cell argsort ns' = Normal ns'.
Proof.
  unfold run_cell. intros H.
  pose proof (for_loop_frame argsort (pruning_info ns)
                (set_all_channel_indices_to_prune [] ns)) as [Hi Hr].
  rewrite H in Hi, Hr. simpl in Hi, Hr. rewrite Hi.
  destruct (pruning_info ns) as [|g gs].
  - simpl in *. injection H as <-. reflexivity.
  - simpl in *.
    destruct (loop_body argsort g (set_all_channel_indices_to_prune [] ns))
      as [ns1|] eqn:Hb; simpl in H; [|discriminate].
    assert (Hb' : loop_body argsort g
                    (set_all_channel_indices_to_prune [] ns') = Normal ns1).
    { apply (loop_body_start argsort g
               (set_all_channel_indices_to_prune [] ns)); simpl; auto.
      pose proof (loop_body_frame argsort g
                    (set_all_channel_indices_to_prune [] ns)) as [Hi1 _].
      pose proof (for_loop_frame argsort gs ns1) as [Hi2 _].
      rewrite Hb in Hi1. rewrite H in Hi2. simpl in Hi1, Hi2. congruence. }
    rewrite Hb'. exact H.
Qed.

Lemma rerun_leaves_namespace_unchanged_witness :
  run_cell stable_argsort
    (final (run_cell stable_argsort
              (namespace_of [example_gate] example_ratio)))
  = Normal (final (run_cell stable_argsort
                     (namespace_of [example_gate] example_ratio))).
Proof.
  apply (rerun_leaves_namespace_unchanged stable_argsort
           (namespace_of [example_gate] example_ratio)).
  vm_compute. reflexivity.
Defined.

(** X11.  A larger ratio never selects less.  For two ratios in (0,1)
    with [r1 <= r2] the count for [r1] is at most the count for [r2],
    the rounding of the product notwithstanding, and the labels selected
    from a tensor with [r1] are the first of those selected with [r2]. *)
Theorem larger_ratio_selects_more (argsort : list float -> list nat)
    (r1 r2 : float) (name : string) (ls : list Z) (cs : list float) :
  argsort_contract argsort ->
  unit_ratio r1 = true -> unit_ratio r2 = true ->
  Float64.leb r1 r2 = true ->
  aligned (name, ls, cs) = true ->
  exists k1 k2 p1 t,
    count (length cs) r1 = Ok k1 /\ count (length cs) r2 = Ok k2 /\
    (k1 <= k2)%Z /\
    get_labels_for_equal_pruning argsort [(name, ls, cs)] r1 = Ok p1 /\
    get_labels_for_equal_pruning argsort [(name, ls, cs)] r2 = Ok (p1 ++ t).
Proof.
  intros Hsort Hr1 Hr2 Hle Hal. apply aligned_true in Hal as [Hlen Hn].
  destruct (count_mono (length cs) r1 r2 ltac:(lia) Hr1 Hr2 Hle)
    as (k1 & k2 & Hc1 & Hc2 & Hk & _).
  destruct (pick_unit_ratio argsort r1 ls cs Hsort Hr1 ltac:(lia) ltac:(lia))
    as (k1' & p1 & Hc1' & _ & _ & Hp1 & Ht1 & _).
  destruct (pick_unit_ratio argsort r2 ls cs Hsort Hr2 ltac:(lia) ltac:(lia))
    as (k2' & p2 & Hc2' & _ & _ & Hp2 & Ht2 & _).
  assert (k1' = k1) as -> by congruence.
  assert (k2' = k2) as -> by congruence.
  destruct (take_prefix _ (argsort cs) (Z.to_nat k1) (Z.to_nat k2) p1 p2
              ltac:(lia) Ht1 Ht2) as [t ->].
  exists k1, k2, p1, t. rewrite !get_labels_gather, !gather_single.
  repeat split; try assumption. lia.
Qed.

Lemma larger_ratio_selects_more_witness :
  exists k1 k2 p1 t,
    count (length example_criteria) (Float64.ratio 433 1000) = Ok k1 /\
    count (length example_criteria) (Float64.ratio 45 100) = Ok k2 /\
    (k1 <= k2)%Z /\
    get_labels_for_equal_pruning stable_argsort [example_gate]
      (Float64.ratio 433 1000) = Ok p1 /\
    get_labels_for_equal_pruning stable_argsort [example_gate]
      (Float64.ratio 45 100) = Ok (p1 ++ t).
Proof.
  apply (larger_ratio_selects_more stable_argsort (Float64.ratio 433 1000)
           (Float64.ratio 45 100) "features.0"%string [10; 11; 12; 13]%Z
           example_criteria stable_argsort_contract);
    vm_compute; reflexivity.
Defined.

(** X12.  A ratio below 1 never prunes a whole tensor.  For a ratio in
    (0,1) and a tensor with at least one channel, the count is strictly
    below the number of channels, although the product is rounded: at
    least one channel of every tensor stays. *)
Theorem ratio_below_one_spares_a_channel (argsort : list float -> list nat)
    (r : float) (name : string) (ls : list Z) (cs : list float) :
  argsort_contract argsort ->
  unit_ratio r = true ->
  aligned (name, ls, cs) = true ->
  cs <> [] ->
  exists k picked,
    count (length cs) r = Ok k /\ (k < Z.of_nat (length cs))%Z /\
    get_labels_for_equal_pruning argsort [(name, ls, cs)] r = Ok picked /\
    length picked < length cs.
Proof.
  intros Hsort Hr Hal Hne. apply aligned_true in Hal as [Hlen Hn].
  assert (Hpos : (1 <= Z.of_nat (length cs))%Z)
    by (destruct cs; [congruence|simpl length; lia]).
  destruct (count_below_length (length cs) r ltac:(lia) Hr) as (k & Hc & Hk).
  destruct (pick_unit_ratio argsort r ls cs Hsort Hr ltac:(lia) ltac:(lia))
    as (k' & picked & Hc' & _ & _ & Hp & _ & Hl).
  assert (k' = k) as -> by congruence.
  exists k, picked. rewrite get_labels_gather, gather_single.
  repeat split; try assumption; lia.
Qed.

Lemma ratio_below_one_spares_a_channel_witness :
  exists k picked,
    count (length example_criteria) (Float64.ratio 999 1000) = Ok k /\
    (k < Z.of_nat (length example_criteria))%Z /\
    get_labels_for_equal_pruning stable_argsort [example_gate]
      (Float64.ratio 999 1000) = Ok picked /\
    length picked < length example_criteria.
Proof.
  apply (ratio_below_one_spares_a_channel stable_argsort
           (Float64.ratio 999 1000) "features.0"%string [10; 11; 12; 13]%Z
           example_criteria stable_argsort_contract);
    [vm_compute; reflexivity|vm_compute; reflexivity|discriminate].
Defined.

(** X13.  For a dyadic ratio nothing is rounded.  When the ratio in (0,1)
    is [c / 2^j] with a numerator [c] so short that [n * c] is below
    [2^53] (0.5, 0.25, 0.75 and the like, for every length in practice),
    the count is the mathematical floor of the exact product. *)
Theorem dyadic_ratio_count_is_exact (argsort : list float -> list nat)
    (mr : positive) (er c z : Z) (name : string) (ls : list Z)
    (cs : list float) :
  argsort_contract argsort ->
  unit_ratio (S754_finite false mr er) = true ->
  aligned (name, ls, cs) = true ->
  (0 <= z)%Z -> Zpos mr = (c * 2 ^ z)%Z ->
  (Z.of_nat (length cs) * c < 2 ^ 53)%Z ->
  count (length cs) (S754_finite false mr er)
  = exact_floor_count (length cs) (S754_finite false mr er) /\
  exists picked,
    get_labels_for_equal_pruning argsort [(name, ls, cs)]
      (S754_finite false mr er) = Ok picked /\
    exact_floor_count (length cs) (S754_finite false mr er)
    = Ok (Z.of_nat (length picked)).
Proof.
  intros Hsort Hr Hal Hz Hc Hfit.
  pose proof Hal as Hal'. apply aligned_true in Hal' as [Hlen Hn].
  pose proof (count_dyadic (length cs) mr er c z ltac:(lia) Hr Hz Hc Hfit)
    as Hex.
  split; [exact Hex|].
  destruct (pick_unit_ratio argsort _ ls cs Hsort Hr ltac:(lia) ltac:(lia))
    as (k & picked & Hk & _ & Hk0 & Hp & _ & Hl).
  exists picked. rewrite get_labels_gather, gather_single.
  split; [exact Hp|]. rewrite <- Hex, Hk. f_equal. lia.
Qed.

Lemma dyadic_ratio_count_is_exact_witness :
  count (length example_criteria) (S754_finite false 6755399441055744 (-53))
  = exact_floor_count (length example_criteria)
      (S754_finite false 6755399441055744 (-53)) /\
  exists picked,
    get_labels_for_equal_pruning stable_argsort [example_gate]
      (S754_finite false 6755399441055744 (-53)) = Ok picked /\
    exact_floor_count (length example_criteria)
      (S754_finite false 6755399441055744 (-53))
    = Ok (Z.of_nat (length picked)).
Proof.
  apply (dyadic_ratio_count_is_exact stable_argsort 6755399441055744 (-53)
           3 51 "features.0"%string [10; 11; 12; 13]%Z example_criteria
           stable_argsort_contract);
    vm_compute; first [reflexivity|discriminate].
Defined.

(** * Further properties of [eval_model] *)

(** X9.  [eval_model] divides by the number of samples it has seen.  With
    no sample at all (an empty data loader, or only empty batches) the
    final division raises [ZeroDivisionError]; with at least one sample
    it returns the two averages, of the loss and of the accuracy: the
    batch values weighted by the batch sizes, added up in doubles and
    divided by the number of samples.  This is while the number of
    samples converts to a double exactly. *)
Theorem eval_model_needs_a_sample {Inputs Labels Preds : Type}
    (batch_size : Inputs -> nat) (model : Inputs -> Preds)
    (criterion accuracy : Preds -> Labels -> float)
    (dl : list (Inputs * Labels)) :
  (Z.of_nat (samples batch_size dl) <= Float64.exact_int_bound)%Z ->
  (samples batch_size dl = 0 ->
   eval_model batch_size model criterion accuracy dl
   = Failed ZeroDivisionError) /\
  (0 < samples batch_size dl ->
   eval_model batch_size model criterion accuracy dl
   = Evaluated (average batch_size model criterion dl)
       (average batch_size model accuracy dl)) /\
  eval_model batch_size model criterion accuracy [] = Failed ZeroDivisionError.
Proof.
  intros HN. unfold Float64.exact_int_bound in HN. unfold eval_model.
  rewrite (eval_loop_sums batch_size model criterion accuracy dl)
    by (cbn [total]; lia).
  cbn [total total_loss total_correct]. rewrite Z.add_0_l.
  unfold float_div_int.
  destruct (of_int_float_of_nat (samples batch_size dl) HN) as [-> Hz].
  split; [|split; [|reflexivity]].
  - intros H0. apply Hz in H0. rewrite H0. reflexivity.
  - intros Hpos.
    destruct (is_zero (float_of_nat (samples batch_size dl)));
      [destruct Hz as [Hz _]; specialize (Hz eq_refl); lia|].
    reflexivity.
Qed.

Lemma eval_model_needs_a_sample_witness :
  eval_model (fun n : nat => n) (fun n : nat => n)
    (fun (_ : nat) (_ : unit) => example_ratio)
    (fun (_ : nat) (_ : unit) => Float64.one) [(0, tt); (0, tt)]
  = Failed ZeroDivisionError.
Proof.
  destruct (eval_model_needs_a_sample (fun n : nat => n) (fun n : nat => n)
              (fun (_ : nat) (_ : unit) => example_ratio)
              (fun (_ : nat) (_ : unit) => Float64.one) [(0, tt); (0, tt)])
    as [Hzero _]; [vm_compute; discriminate|].
  apply Hzero. reflexivity.
Defined.

(** X10.  One batch whose loss is NaN makes the reported loss NaN,
    whatever the other batches are: the sum never recovers from it. *)
Theorem eval_model_nan_loss_propagates {Inputs Labels Preds : Type}
    (batch_size : Inputs -> nat) (model : Inputs -> Preds)
    (criterion accuracy : Preds -> Labels -> float)
    (dl : list (Inputs * Labels)) (inputs : Inputs) (labels : Labels)
    (loss acc : float) :
  In (inputs, labels) dl ->
  Float64.is_nan (criterion (model inputs) labels) = true ->
  eval_model batch_size model criterion accuracy dl = Evaluated loss acc ->
  Float64.is_nan loss = true.
Proof.
  intros Hin Hnan. unfold eval_model.
  assert (Hc : criterion (model inputs) labels = S754_nan)
    by (destruct (criterion (model inputs) labels); try discriminate;
        reflexivity).
  destruct (eval_loop batch_size model criterion accuracy dl _) as [t|]
    eqn:Hloop; [|discriminate].
  apply (eval_loop_nan_batch _ _ _ _ _ _ _ _ _ Hin Hc) in Hloop.
  unfold float_div_int. destruct (Float64.of_int (total t)) as [fn|];
    [|discriminate].
  destruct (is_zero fn); [discriminate|].
  intros H. injection H as <- _. rewrite Hloop. reflexivity.
Qed.

Lemma eval_model_nan_loss_propagates_witness :
  Float64.is_nan S754_nan = true.
Proof.
  apply (eval_model_nan_loss_propagates (fun n : nat => n)
           (fun n : nat => n)
           (fun (n : nat) (_ : unit) =>
              if Nat.eqb n 2 then S754_nan else example_ratio)
           (fun (_ : nat) (_ : unit) => Float64.one)
           [(3, tt); (2, tt)] 2 tt S754_nan
           (S754_finite false 4503599627370496 (-52)));
    [simpl; auto|reflexivity|vm_compute; reflexivity].
Defined.

(** X14.  When no batch has a correct prediction (every batch accuracy is
    [0.0]) and there is at least one sample, the accuracy [eval_model]
    reports is exactly [0.0]: the weighted sum stays the zero it starts
    from. *)
Theorem eval_model_zero_accuracy {Inputs Labels Preds : Type}
    (batch_size : Inputs -> nat) (model : Inputs -> Preds)
    (criterion accuracy : Preds -> Labels -> float)
    (dl : list (Inputs * Labels)) :
  (Z.of_nat (samples batch_size dl) <= Float64.exact_int_bound)%Z ->
  0 < samples batch_size dl ->
  Forall (fun sample => accuracy (model (fst sample)) (snd sample)
                        = Float64.zero) dl ->
  exists loss,
    eval_model batch_size model criterion accuracy dl
    = Evaluated loss Float64.zero.
Proof.
  intros HN Hpos Hall. unfold Float64.exact_int_bound in HN.
  unfold eval_model.
  set (t0 := {| total := 0; total_loss := Float64.zero;
                total_correct := Float64.zero |}).
  assert (H0 : (0 <= total t0)%Z) by (simpl; lia).
  assert (Hb : (total t0 + Z.of_nat (samples batch_size dl) <= 2 ^ 53)%Z)
    by (simpl; lia).
  destruct (eval_loop_total batch_size model criterion accuracy dl t0 H0 Hb)
    as (t & Hloop & Htot).
  rewrite Hloop. simpl in Htot.
  pose proof (eval_loop_zero_correct batch_size model criterion accuracy dl
                t0 t H0 Hb Hall eq_refl Hloop) as Hz.
  unfold float_div_int.
  destruct (of_int_exact (total t) ltac:(lia))
    as [[_ Hzero]|(m & e & -> & _)]; [lia|].
  simpl. rewrite Hz. eexists. reflexivity.
Qed.

Lemma eval_model_zero_accuracy_witness :
  exists loss,
    eval_model (fun n : nat => n) (fun n : nat => n)
      (fun (_ : nat) (_ : unit) => example_ratio)
      (fun (_ : nat) (_ : unit) => Float64.zero) [(3, tt); (2, tt)]
    = Evaluated loss Float64.zero.
Proof.
  apply (eval_model_zero_accuracy (fun n : nat => n) (fun n : nat => n)
           (fun (_ : nat) (_ : unit) => example_ratio)
           (fun (_ : nat) (_ : unit) => Float64.zero) [(3, tt); (2, tt)]);
    [vm_compute; discriminate|simpl; lia|repeat constructor].
Defined.

(** X15.  [eval_model] never reports a negative or NaN average for
    non-negative inputs: when every batch loss and batch accuracy is a
    finite double with a clear sign and there is at least one sample, the
    two averages returned are [+0.0], positive doubles or [+inf]. *)
Theorem eval_model_never_negative {Inputs Labels Preds : Type}
    (batch_size : Inputs -> nat) (model : Inputs -> Preds)
    (criterion accuracy : Preds -> Labels -> float)
    (dl : list (Inputs * Labels)) :
  (Z.of_nat (samples batch_size dl) <= Float64.exact_int_bound)%Z ->
  0 < samples batch_size dl ->
  Forall (fun sample =>
            nonnegative (criterion (model (fst sample)) (snd sample))
            && Float64.is_finite (criterion (model (fst sample)) (snd sample))
            && nonnegative (accuracy (model (fst sample)) (snd sample))
            && Float64.is_finite (accuracy (model (fst sample)) (snd sample))
            = true) dl ->
  exists loss acc,
    eval_model batch_size model criterion accuracy dl = Evaluated loss acc /\
    nonnegative loss = true /\ nonnegative acc = true.
Proof.
  intros HN Hpos Hall. unfold Float64.exact_int_bound in HN.
  unfold eval_model.
  set (t0 := {| total := 0; total_loss := Float64.zero;
                total_correct := Float64.zero |}).
  assert (H0 : (0 <= total t0)%Z) by (simpl; lia).
  assert (Hb : (total t0 + Z.of_nat (samples batch_size dl) <= 2 ^ 53)%Z)
    by (simpl; lia).
  destruct (eval_loop_total batch_size model criterion accuracy dl t0 H0 Hb)
    as (t & Hloop & Htot).
  rewrite Hloop. simpl in Htot.
  destruct (eval_loop_nonnegative batch_size model criterion accuracy dl
              t0 t H0 Hb Hall eq_refl eq_refl Hloop) as [Hl Hc].
  unfold float_div_int.
  destruct (of_int_exact (total t) ltac:(lia))
    as [[_ Hzero]|(m & e & -> & _)]; [lia|].
  cbn [is_zero]. eexists. eexists. split; [reflexivity|].
  split; now apply div_nonnegative.
Qed.

Lemma eval_model_never_negative_witness :
  exists loss acc,
    eval_model (fun n : nat => n) (fun n : nat => n)
      (fun (_ : nat) (_ : unit) => example_ratio)
      (fun (_ : nat) (_ : unit) => Float64.one) [(3, tt); (2, tt)]
    = Evaluated loss acc /\
    nonnegative loss = true /\ nonnegative acc = true.
Proof.
  apply (eval_model_never_negative (fun n : nat => n) (fun n : nat => n)
           (fun (_ : nat) (_ : unit) => example_ratio)
           (fun (_ : nat) (_ : unit) => Float64.one) [(3, tt); (2, tt)]);
    [vm_compute; discriminate|simpl; lia|].
  repeat constructor.
Defined.

(** X16.  [eval_model] never reports an accuracy above one: when every
    batch accuracy is a well-formed double between [0.0] and [1.0] and
    there are fewer than [2^53] samples, the average it returns is at
    most [1.0], although every product, sum and the final quotient are
    rounded. *)
Theorem eval_model_accuracy_at_most_one {Inputs Labels Preds : Type}
    (batch_size : Inputs -> nat) (model : Inputs -> Preds)
    (criterion accuracy : Preds -> Labels -> float)
    (dl : list (Inputs * Labels)) :
  (Z.of_nat (samples batch_size dl) < Float64.exact_int_bound)%Z ->
  0 < samples batch_size dl ->
  Forall (fun sample =>
            Float64.valid (accuracy (model (fst sample)) (snd sample))
            && at_most (accuracy (model (fst sample)) (snd sample)) 1
            = true) dl ->
  exists loss acc,
    eval_model batch_size model criterion accuracy dl = Evaluated loss acc /\
    at_most acc 1 = true.
Proof.
  intros HN Hpos Hall. unfold Float64.exact_int_bound in HN.
  unfold eval_model.
  set (t0 := {| total := 0; total_loss := Float64.zero;
                total_correct := Float64.zero |}).
  assert (H0 : (0 <= total t0)%Z) by (simpl; lia).
  assert (Hb : (total t0 + Z.of_nat (samples batch_size dl) <= 2 ^ 53)%Z)
    by (simpl; lia).
  assert (Hb' : (total t0 + Z.of_nat (samples batch_size dl) < 2 ^ 53)%Z)
    by (simpl; lia).
  destruct (eval_loop_total batch_size model criterion accuracy dl t0 H0 Hb)
    as (t & Hloop & Htot).
  rewrite Hloop. simpl in Htot.
  destruct (eval_loop_at_most batch_size model criterion accuracy dl
              t0 t H0 Hb' Hall eq_refl Hloop) as [Hc _].
  unfold float_div_int.
  destruct (of_int_exact (total t) ltac:(lia))
    as [[_ Hzero]|(m & e & -> & _ & Hbt & Hat)]; [lia|].
  cbn [is_zero]. eexists. eexists. split; [reflexivity|].
  now apply (div_at_most _ (total t)).
Qed.

Lemma eval_model_accuracy_at_most_one_witness :
  exists loss acc,
    eval_model (fun n : nat => n) (fun n : nat => n)
      (fun (_ : nat) (_ : unit) => example_ratio)
      (fun (n : nat) (_ : unit) =>
         if Nat.eqb n 3 then Float64.one else Float64.ratio 1 3)
      [(3, tt); (7, tt)]
    = Evaluated loss acc /\
    at_most acc 1 = true.
Proof.
  apply (eval_model_accuracy_at_most_one (fun n : nat => n)
           (fun n : nat => n)
           (fun (_ : nat) (_ : unit) => example_ratio)
           (fun (n : nat) (_ : unit) =>
              if Nat.eqb n 3 then Float64.one else Float64.ratio 1 3)
           [(3, tt); (7, tt)]);
    [vm_compute; reflexivity|simpl; lia|].
  repeat constructor.
Defined.
